(** * IntentProof core: a shallow embedding of the execution engine

    Sources embedded here:
    - [packages/core/src/verifiers/base.ts]: [CommandVerifier] (with its
      private [checkExpectation]) and [FunctionVerifier];
    - [packages/core/src/types.ts]: the data model;
    - [packages/core/src/intent.ts]: the [Intent] builder methods and
      [execute].

    Conventions.  JavaScript strings are modelled by [string] (one [ascii]
    per code unit, so the model speaks about ASCII text).  Wall-clock values
    ([timestamp], [startTime], [duration], ...) are not modelled; for the two
    optional [Date] fields of a [Step] only the fact that they were assigned
    is kept.  The shell behind [execSync] and the regular-expression engine
    behind [new RegExp] live outside the repository and are taken as the
    operations of a [Host].  A caller-supplied function may throw any
    value: what the [catch] clauses do with it depends only on its
    [message] member, and a thrown object whose [message] is present
    without being a text is outside the model.  Listeners registered for
    the events are outside the model as well. *)

From Stdlib Require Import String Ascii List ZArith Bool Lia.
Import ListNotations.
Local Open Scope string_scope.
Local Open Scope Z_scope.

(** ** JavaScript values *)

Module Js.

(** The Numbers that the engine can produce or compare are integer valued:
    [parseInt] never returns a fraction.  [-0] and [+0] are identified; they
    are indistinguishable under [===], [<], [>] and [Boolean]. *)
Inductive number : Type :=
| NaN
| Inf (negative : bool)
| Fin (z : Z).

(** Values of type [any].  [StrObj] is a [String] object (as made by
    [new String(s)]): it has the methods of its text and, being an object,
    is [===] to itself only.  [Ref] is any other object (a plain object, an
    array, a function), known by its identity only; it has none of the
    methods of a text. *)
Inductive value : Type :=
| Undefined
| Null
| Bool (b : bool)
| Num (n : number)
| Str (s : string)
| StrObj (address : nat) (s : string)
| Ref (address : nat).

Definition num_eq (a b : number) : bool :=
  match a, b with
  | Fin x, Fin y => x =? y
  | Inf s, Inf t => Bool.eqb s t
  | _, _ => false
  end.

Definition num_lt (a b : number) : bool :=
  match a, b with
  | NaN, _ | _, NaN => false
  | Inf true, Inf true => false
  | Inf true, _ => true
  | _, Inf true => false
  | Inf false, _ => false
  | Fin _, Inf false => true
  | Fin x, Fin y => x <? y
  end.

Definition num_gt (a b : number) : bool := num_lt b a.

Definition isNaN (a : number) : bool :=
  match a with NaN => true | _ => false end.

(** [a === b] *)
Definition strict_eq (a b : value) : bool :=
  match a, b with
  | Undefined, Undefined => true
  | Null, Null => true
  | Bool x, Bool y => Bool.eqb x y
  | Num x, Num y => num_eq x y
  | Str x, Str y => String.eqb x y
  | StrObj x _, StrObj y _ => Nat.eqb x y
  | Ref x, Ref y => Nat.eqb x y
  | _, _ => false
  end.

(** [Boolean(a)] *)
Definition truthy (a : value) : bool :=
  match a with
  | Undefined | Null => false
  | Bool b => b
  | Num NaN => false
  | Num (Fin z) => negb (z =? 0)
  | Num (Inf _) => true
  | Str s => negb (String.eqb s "")
  | StrObj _ _ | Ref _ => true
  end.

(** *** Strings *)

Definition startsWith (s p : string) : bool := String.prefix p s.

Fixpoint rev_onto (s acc : string) : string :=
  match s with
  | EmptyString => acc
  | String c s' => rev_onto s' (String c acc)
  end.

Definition reverse (s : string) : string := rev_onto s "".

Definition endsWith (s p : string) : bool :=
  String.prefix (reverse p) (reverse s).

(** [s.slice(n)] for [n >= 0] *)
Fixpoint slice_from (n : nat) (s : string) : string :=
  match n, s with
  | O, _ => s
  | S _, EmptyString => EmptyString
  | S n', String _ s' => slice_from n' s'
  end.

(** [s.slice(1, -1)] *)
Definition slice_1_m1 (s : string) : string :=
  String.substring 1 (String.length s - 2) s.

(** [hay.includes(needle)] *)
Fixpoint includes (hay needle : string) : bool :=
  if String.prefix needle hay then true
  else match hay with
       | EmptyString => false
       | String _ hay' => includes hay' needle
       end.

Definition is_space (c : ascii) : bool :=
  let n := nat_of_ascii c in
  (Nat.eqb n 32 || (Nat.leb 9 n && Nat.leb n 13))%bool.

Fixpoint trimStart (s : string) : string :=
  match s with
  | String c s' => if is_space c then trimStart s' else s
  | EmptyString => EmptyString
  end.

(** [s.trim()] *)
Definition trim (s : string) : string :=
  reverse (trimStart (reverse (trimStart s))).

(** *** [parseInt] *)

Definition digit_value (c : ascii) : option Z :=
  let n := Z.of_nat (nat_of_ascii c) in
  if (48 <=? n) && (n <=? 57) then Some (n - 48)
  else if (97 <=? n) && (n <=? 122) then Some (n - 87)
  else if (65 <=? n) && (n <=? 90) then Some (n - 55)
  else None.

Definition is_digit (c : ascii) : bool :=
  let n := nat_of_ascii c in (Nat.leb 48 n && Nat.leb n 57)%bool.

(** Longest prefix of radix-[r] digits, read left to right; [None] when
    that prefix is empty. *)
Fixpoint read_digits (r : Z) (s : string) (acc : option Z) : option Z :=
  match s with
  | EmptyString => acc
  | String c s' =>
      match digit_value c with
      | Some d =>
          if d <? r
          then read_digits r s' (Some (match acc with
                                       | Some a => a * r + d
                                       | None => d
                                       end))
          else acc
      | None => acc
      end
  end.

(** The Number value of a mathematical integer: round to nearest, ties to
    even, on a 53-bit significand; magnitudes from [2^1024] overflow. *)
Definition number_of_Z (z : Z) : number :=
  let a := Z.abs z in
  if a <? 2 ^ 53 then Fin z
  else
    let e := Z.log2 a - 52 in
    let q := Z.shiftr a e in
    let r := a - Z.shiftl q e in
    let half := Z.shiftl 1 (e - 1) in
    let q' := if r <? half then q
              else if half <? r then q + 1
              else if Z.even q then q else q + 1 in
    let v := Z.shiftl q' e in
    if 2 ^ 1024 <=? v then Inf (z <? 0) else Fin (Z.sgn z * v).

(** [parseInt(s)] with no radix argument. *)
Definition parseInt (s : string) : number :=
  let s := trimStart s in
  let '(neg, s) :=
    match s with
    | String "-" s' => (true, s')
    | String "+" s' => (false, s')
    | _ => (false, s)
    end in
  let '(radix, s) :=
    match s with
    | String "0" (String "x" s') => (16, s')
    | String "0" (String "X" s') => (16, s')
    | _ => (10, s)
    end in
  match read_digits radix s None with
  | None => NaN
  | Some m => number_of_Z (if neg then - m else m)
  end.

End Js.

(** ** Data model ([types.ts]) *)

Inductive StepStatus : Type :=
| pending | running | completed | failed | skipped.

Inductive IntentStatus : Type :=
| intent_pending | intent_running | intent_completed | intent_failed
| intent_cancelled.

Record VerificationResult : Type := mkResult {
  success : bool;
  message : string;
  actual : Js.value;
  expected : Js.value;
  evidence : option (list string)
}.

Record VerificationCommand : Type := mkCommand {
  command : string;
  cwd : option string;
  env : option (list (string * string))
}.

(** What a call of [execSync] is given besides the command text. *)
Record ExecOptions : Type := mkExecOptions {
  opt_cwd : option string;
  opt_env : option (list (string * string))
}.

Inductive ExecOutcome : Type :=
| ExecReturns (stdout : string)
| ExecThrows (error_message : string).

(** A thrown value, as far as a [catch] clause that reads [error.message]
    can tell: an [Error] (or any object whose [message] is a text), a
    value without that member (a text, a number, a plain object), [null],
    or [undefined]. *)
Inductive Thrown : Type :=
| ErrorObject (error_message : string)
| NoMessage
| ThrownNull
| ThrownUndefined.

(** [error.message]: [inl] is the message of the [TypeError] thrown by the
    member access itself; [inr None] is [undefined]. *)
Definition read_message (error : Thrown) : string + option string :=
  match error with
  | ErrorObject m => inr (Some m)
  | NoMessage => inr None
  | ThrownNull => inl "Cannot read properties of null (reading 'message')"
  | ThrownUndefined =>
      inl "Cannot read properties of undefined (reading 'message')"
  end.

(** The text of [error.message] inside a template literal. *)
Definition template_text (m : option string) : string :=
  match m with
  | Some s => s
  | None => "undefined"
  end.

(** [error.message] as a value. *)
Definition message_value (m : option string) : Js.value :=
  match m with
  | Some s => Js.Str s
  | None => Js.Undefined
  end.

(** A call of a caller-supplied function (a predicate, or the action of a
    step; a rejected promise counts as a throw): it returns a value or
    throws one. *)
Inductive CallOutcome : Type :=
| Returns (v : Js.value)
| Throws (error : Thrown).

(** The collaborators outside the repository: the shell reached through
    [child_process.execSync], acting on a world of type [W], and the
    regular-expression engine, whose constructor either throws a
    [SyntaxError] or yields the [test] function of the pattern. *)
Class Host (W : Type) : Type := {
  execSync : string -> ExecOptions -> W -> ExecOutcome * W;
  RegExp_new : string -> string + (string -> bool)
}.

(** [VerificationFunction], and the [action] of a step; both may touch the
    world. *)
Definition VerificationFunction (W : Type) : Type := W -> CallOutcome * W.
Definition Action (W : Type) : Type := W -> CallOutcome * W.

(** The [check] member of a [VerificationCheck] as [verifyCheck] tells the
    cases apart: a function, an object tagged ['command'], any other value
    that has members, or no value at all ([CheckNullish]: the member is
    [null], or it is [undefined], as when an object that is no
    [VerificationCheck], say a bare command object, was handed to
    [requires]). *)
Inductive Check (W : Type) : Type :=
| CheckFunction (fn : VerificationFunction W)
| CheckCommand (c : VerificationCommand)
| CheckOther
| CheckNullish (is_null : bool).
Arguments CheckFunction {W} fn.
Arguments CheckCommand {W} c.
Arguments CheckOther {W}.
Arguments CheckNullish {W} is_null.

Record VerificationCheck (W : Type) : Type := mkCheck {
  check_name : option string;
  check : Check W;
  expect : Js.value;
  critical : option bool
}.
Arguments mkCheck {W}.
Arguments check_name {W}.
Arguments check {W}.
Arguments expect {W}.
Arguments critical {W}.

(** The [verify] member of a step definition (declared [any] by [step]) as
    [verifyStep] tells the cases apart; [VerifyMissing] is [undefined]. *)
Inductive StepVerify (W : Type) : Type :=
| VerifyFunction (fn : VerificationFunction W)
| VerifyString (cmd : string)
| VerifyCommand (c : VerificationCommand)
| VerifyOther
| VerifyMissing.
Arguments VerifyFunction {W} fn.
Arguments VerifyString {W} cmd.
Arguments VerifyCommand {W} c.
Arguments VerifyOther {W}.
Arguments VerifyMissing {W}.

(** [timeout], [retries] and [rollback] are declared by the source and
    never read; they are left out. *)
Record StepDefinition (W : Type) : Type := mkDefinition {
  def_description : option string;
  def_dependencies : option (list string);
  def_action : option (Action W);
  def_verify : StepVerify W;
  def_expect : Js.value
}.
Arguments mkDefinition {W}.
Arguments def_description {W}.
Arguments def_dependencies {W}.
Arguments def_action {W}.
Arguments def_verify {W}.
Arguments def_expect {W}.

Record Step (W : Type) : Type := mkStep {
  step_id : string;
  step_name : string;
  step_description : option string;
  step_status : StepStatus;
  step_result : option VerificationResult;
  step_started : bool;      (* [startTime] has been assigned *)
  step_ended : bool;        (* [endTime] has been assigned *)
  step_timed : bool;        (* [duration] has been assigned *)
  step_dependencies : option (list string);
  step_definition : StepDefinition W   (* the [_definition] member *)
}.
Arguments mkStep {W}.
Arguments step_id {W}.
Arguments step_name {W}.
Arguments step_description {W}.
Arguments step_status {W}.
Arguments step_result {W}.
Arguments step_started {W}.
Arguments step_ended {W}.
Arguments step_timed {W}.
Arguments step_dependencies {W}.
Arguments step_definition {W}.

Record IntentContract (W : Type) : Type := mkContract {
  preconditions : option (list (VerificationCheck W));
  postconditions : option (list (VerificationCheck W));
  invariants : option (list (VerificationCheck W))
}.
Arguments mkContract {W}.
Arguments preconditions {W}.
Arguments postconditions {W}.
Arguments invariants {W}.

(** A member of an options object: left out, or given with its value,
    which may be [undefined] ([Given None]). *)
Inductive Member (A : Type) : Type :=
| Absent
| Given (v : option A).
Arguments Absent {A}.
Arguments Given {A} v.

(** The options argument of the constructor: every member may be absent. *)
Record IntentOptions : Type := mkOptions {
  parallel : Member bool;
  stopOnFailure : Member bool;
  verbose : Member bool;
  maxRetries : Member Z;
  timeout : Member Z
}.

Record IntentExecutionResult (W : Type) : Type := mkExecutionResult {
  res_success : bool;
  res_status : IntentStatus;
  res_steps : list (Step W);
  res_failedStep : option string;
  res_failureReason : option string;
  res_verificationLog : list VerificationResult
}.
Arguments mkExecutionResult {W}.
Arguments res_success {W}.
Arguments res_status {W}.
Arguments res_steps {W}.
Arguments res_failedStep {W}.
Arguments res_failureReason {W}.
Arguments res_verificationLog {W}.

(** *** A JavaScript [Map] with string keys

    Insertion ordered: [set] on a present key replaces the value where it
    stands, on a new key appends; [values()] lists in that order. *)
Module JsMap.

Definition t (V : Type) : Type := list (string * V).

Fixpoint get {V} (k : string) (m : t V) : option V :=
  match m with
  | [] => None
  | (k', v) :: m' => if String.eqb k k' then Some v else get k m'
  end.

Fixpoint set {V} (k : string) (v : V) (m : t V) : t V :=
  match m with
  | [] => [(k, v)]
  | (k', v') :: m' =>
      if String.eqb k k' then (k', v) :: m' else (k', v') :: set k v m'
  end.

(** In-place mutation of the object stored under [k]. *)
Fixpoint adjust {V} (f : V -> V) (k : string) (m : t V) : t V :=
  match m with
  | [] => []
  | (k', v) :: m' =>
      if String.eqb k k' then (k', f v) :: m' else (k', v) :: adjust f k m'
  end.

Definition values {V} (m : t V) : list V := List.map snd m.

Definition size {V} (m : t V) : nat := List.length m.

End JsMap.

(** ** Verification backends ([verifiers/base.ts]) *)

Section Verifiers.
Context {W : Type} {host : Host W}.

(** [BaseVerifier.createResult] *)
Definition createResult (ok : bool) (msg : string) (act exp : Js.value)
  : VerificationResult :=
  mkResult ok msg act exp (Some []).

(** [expected.match(/^[<>=]\d+$/)] *)
Definition is_comparator (expected : string) : bool :=
  match expected with
  | String c rest =>
      (Ascii.eqb c "<" || Ascii.eqb c ">" || Ascii.eqb c "=")
      && negb (String.eqb rest "")
      && List.forallb Js.is_digit (list_ascii_of_string rest)
  | EmptyString => false
  end.

(** [CommandVerifier.checkExpectation]; [inl] is the message of an error
    thrown on the way (only [new RegExp] can throw here). *)
Definition checkExpectation (output expected : string) : string + bool :=
  (* Regex pattern *)
  if Js.startsWith expected "/" && Js.endsWith expected "/" then
    match RegExp_new (Js.slice_1_m1 expected) with
    | inl err => inl err
    | inr test => inr (test output)
    end
  (* Numeric comparisons *)
  else if is_comparator expected then
    let operator := String.get 0 expected in
    let expectedNum := Js.parseInt (Js.slice_from 1 expected) in
    let actualNum := Js.parseInt output in
    if Js.isNaN actualNum then inr false
    else match operator with
         | Some ">"%char => inr (Js.num_gt actualNum expectedNum)
         | Some "<"%char => inr (Js.num_lt actualNum expectedNum)
         | Some "="%char => inr (Js.num_eq actualNum expectedNum)
         | _ => inr false
         end
  (* Boolean expectations *)
  else if String.eqb expected "true" || String.eqb expected "false" then
    let expectBool := String.eqb expected "true" in
    let actualBool := String.eqb output "true" || String.eqb output "1"
                      || String.eqb output "yes" in
    inr (Bool.eqb expectBool actualBool)
  (* Exit code expectation *)
  else if String.eqb expected "exit 0" || String.eqb expected "success" then
    inr true
  (* Contains check *)
  else if Js.startsWith expected "contains:" then
    inr (Js.includes output (Js.slice_from 9 expected))
  (* Exact match *)
  else inr (Js.includes output expected).

(** [checkExpectation] when [expected] is a [String] object with the text
    [expected]: [startsWith], [endsWith], [slice], [match], the index [0]
    and the argument of [includes] answer as for the text, and the four
    comparisons [expected === '...'] with a primitive text are false, so
    the two rules they guard are never taken. *)
Definition checkExpectation_object (output expected : string)
  : string + bool :=
  (* Regex pattern *)
  if Js.startsWith expected "/" && Js.endsWith expected "/" then
    match RegExp_new (Js.slice_1_m1 expected) with
    | inl err => inl err
    | inr test => inr (test output)
    end
  (* Numeric comparisons *)
  else if is_comparator expected then
    let operator := String.get 0 expected in
    let expectedNum := Js.parseInt (Js.slice_from 1 expected) in
    let actualNum := Js.parseInt output in
    if Js.isNaN actualNum then inr false
    else match operator with
         | Some ">"%char => inr (Js.num_gt actualNum expectedNum)
         | Some "<"%char => inr (Js.num_lt actualNum expectedNum)
         | Some "="%char => inr (Js.num_eq actualNum expectedNum)
         | _ => inr false
         end
  (* Contains check *)
  else if Js.startsWith expected "contains:" then
    inr (Js.includes output (Js.slice_from 9 expected))
  (* Exact match *)
  else inr (Js.includes output expected).

(** The call [this.checkExpectation(output, expected)] when [expected], a
    [string] only by declaration, holds any value other than [undefined]:
    the first member access throws a [TypeError] on a value that has no
    [startsWith]. *)
Definition checkExpectation_any (output : string) (expected : Js.value)
  : string + bool :=
  match expected with
  | Js.Str e => checkExpectation output e
  | Js.StrObj _ e => checkExpectation_object output e
  | Js.Undefined =>
      inl "Cannot read properties of undefined (reading 'startsWith')"
  | Js.Null =>
      inl "Cannot read properties of null (reading 'startsWith')"
  | _ => inl "expected.startsWith is not a function"
  end.

Definition is_undefined (v : Js.value) : bool :=
  match v with Js.Undefined => true | _ => false end.

(** The [catch] clause of [CommandVerifier.verify]. *)
Definition command_failed (err : string) (expected : Js.value)
  : VerificationResult :=
  if Js.strict_eq expected (Js.Str "fails")
     || Js.strict_eq expected (Js.Str "error")
  then createResult true "Command failed as expected" (Js.Str err) expected
  else createResult false ("Command failed: " ++ err) (Js.Str err) expected.

(** The command text and the options handed to [execSync]. *)
Definition exec_request (cmd : string + VerificationCommand)
  : string * ExecOptions :=
  match cmd with
  | inl s => (s, mkExecOptions None None)
  | inr c => (command c,
              mkExecOptions (cwd c)
                (Some (match env c with Some e => e | None => [] end)))
  end.

(** [CommandVerifier.verify] *)
Definition CommandVerifier_verify (cmd : string + VerificationCommand)
  (expected : Js.value) (w : W) : VerificationResult * W :=
  let '(text, options) := exec_request cmd in
  match execSync text options w with
  | (ExecReturns stdout, w') =>
      let output := Js.trim stdout in
      (* No expectation - just check command succeeded *)
      if is_undefined expected then
        (createResult true "Command executed successfully"
           (Js.Str output) Js.Undefined, w')
      else
        (* Check various expectation formats *)
        match checkExpectation_any output expected with
        | inr matches =>
            (createResult matches
               (if matches then "Output matches expectation"
                else "Output does not match")
               (Js.Str output) expected, w')
        | inl err => (command_failed err expected, w')
        end
  | (ExecThrows err, w') => (command_failed err expected, w')
  end.

(** [FunctionVerifier.verify]; the parameter is declared
    [expected: any = true], so an [undefined] argument is replaced by
    [true] before the body runs.  [inl] is the message of the [TypeError]
    with which the call rejects when its [catch] clause cannot read
    [error.message]. *)
Definition FunctionVerifier_verify (fn : VerificationFunction W)
  (expected : Js.value) (w : W) : (string + VerificationResult) * W :=
  let expected := if is_undefined expected then Js.Bool true else expected in
  match fn w with
  | (Returns result, w') =>
      let ok := if is_undefined expected then Js.truthy result
                else Js.strict_eq result expected in
      (inr (createResult ok
              (if ok then "Function verification passed"
               else "Function verification failed")
              result expected), w')
  | (Throws error, w') =>
      match read_message error with
      | inr m =>
          (inr (createResult false
                  ("Function threw error: " ++ template_text m)
                  (message_value m) expected), w')
      | inl type_error => (inl type_error, w')
      end
  end.

End Verifiers.

(** ** The Intent aggregate ([intent.ts]) *)

(** [this.options]: the defaults overwritten by the members given, so a
    member given as [undefined] is [undefined] here ([None]). *)
Record Options : Type := mkMerged {
  o_stopOnFailure : option bool;
  o_verbose : option bool;
  o_parallel : option bool;
  o_maxRetries : option Z;
  o_timeout : option Z
}.

(** The test [if (flag)] on a member of [this.options]. *)
Definition enabled (flag : option bool) : bool :=
  match flag with
  | Some b => b
  | None => false
  end.

Record Intent (W : Type) : Type := mkIntent {
  id : string;
  goal : string;
  status : IntentStatus;
  steps : JsMap.t (Step W);
  stepOrder : list string;
  contract : IntentContract W;
  options : Options
}.
Arguments mkIntent {W}.
Arguments id {W}.
Arguments goal {W}.
Arguments status {W}.
Arguments steps {W}.
Arguments stepOrder {W}.
Arguments contract {W}.
Arguments options {W}.

(** Payloads of the events sent through [this.emit]; durations left out. *)
Inductive Event : Type :=
| EvStart (goal : string) (steps : nat)
| EvPhase (phase : string)
| EvFailed (phase : string) (step : option string) (reason : string)
| EvStepSkipped (step reason : string)
| EvStepStart (step : string)
| EvStepComplete (step : string)
| EvStepFailed (step reason : string)
| EvStepError (step : string) (error : option string)
| EvComplete (steps : nat).

(** Where in [execute] a contract check is evaluated. *)
Inductive Phase : Type :=
| PhasePre
| PhasePost
| PhaseInvBefore (stepId : string)
| PhaseInvAfter (stepId : string).

Definition inv_phase (before : bool) (stepId : string) : Phase :=
  if before then PhaseInvBefore stepId else PhaseInvAfter stepId.

(** Ghost record of what [execute] does, in order: each evaluation of a
    contract check that returned a result (with the [critical] member of
    the check and the verdict), each call of a step's action, each call of
    [verifyStep] ([None] when the call threw), and each assignment to a
    [status] member of a step.  Nothing in the model reads it. *)
Inductive Obs : Type :=
| ObsCheck (ph : Phase) (crit : option bool) (ok : bool)
| ObsAction (stepId : string) (ok : bool)
| ObsVerify (stepId : string) (verdict : option bool)
| ObsStatus (stepId : string) (s : StepStatus).

(** The mutable state one call of [execute] works on. *)
Record State (W : Type) : Type := mkState {
  st_status : IntentStatus;
  st_steps : JsMap.t (Step W);
  st_log : list VerificationResult;      (* [verificationLog] *)
  st_events : list Event;
  st_trace : list Obs;
  st_world : W
}.
Arguments mkState {W}.
Arguments st_status {W}.
Arguments st_steps {W}.
Arguments st_log {W}.
Arguments st_events {W}.
Arguments st_trace {W}.
Arguments st_world {W}.

(** Control after a statement of [execute]: fall through, [return], or an
    exception that leaves [execute] (the promise is rejected). *)
Inductive Flow (W : Type) : Type :=
| Next (st : State W)
| Return (r : IntentExecutionResult W) (st : State W)
| Reject (error_message : string) (st : State W).
Arguments Next {W}.
Arguments Return {W}.
Arguments Reject {W}.

Inductive Exit : Type := ExitNext | ExitReturn | ExitReject.

Definition exit_of {W} (f : Flow W) : Exit :=
  match f with
  | Next _ => ExitNext
  | Return _ _ => ExitReturn
  | Reject _ _ => ExitReject
  end.

Definition flow_state {W} (f : Flow W) : State W :=
  match f with
  | Next st => st
  | Return _ st => st
  | Reject _ st => st
  end.

Definition and_then {W} (f : Flow W) (k : State W -> Flow W) : Flow W :=
  match f with
  | Next st => k st
  | other => other
  end.

(** Arguments accepted by [requires], [ensures] and [invariant]. *)
Inductive CheckArg (W : Type) : Type :=
| ArgString (cmd : string)
| ArgFunction (fn : VerificationFunction W)
| ArgCheck (c : VerificationCheck W).
Arguments ArgString {W}.
Arguments ArgFunction {W}.
Arguments ArgCheck {W}.

Definition or_default {A} (o : option A) (d : A) : A :=
  match o with Some a => a | None => d end.

(** A default overwritten by [...options]. *)
Definition spread {A} (m : Member A) (default : A) : option A :=
  match m with
  | Absent => Some default
  | Given v => v
  end.

Definition no_options : IntentOptions :=
  mkOptions Absent Absent Absent Absent Absent.

Section Builder.
Context {W : Type}.

(** [new Intent(goal, options)]; [rnd] is the hexadecimal text of the
    random bytes drawn for the identity. *)
Definition new_Intent (rnd goal : string) (opts : IntentOptions) : Intent W :=
  mkIntent rnd goal intent_pending [] [] (mkContract None None None)
    (mkMerged (spread (stopOnFailure opts) true)
              (spread (verbose opts) false)
              (spread (parallel opts) false)
              (spread (maxRetries opts) 0)
              (spread (timeout opts) 30000)).

Definition with_contract (I : Intent W) (c : IntentContract W) : Intent W :=
  mkIntent (id I) (goal I) (status I) (steps I) (stepOrder I) c (options I).

(** [requires] *)
Definition requires (chk : CheckArg W) (exp : Js.value) (I : Intent W)
  : Intent W :=
  let c := contract I in
  let pre := or_default (preconditions c) [] in
  let entry :=
    match chk with
    | ArgString s =>
        mkCheck None (CheckCommand (mkCommand s None None)) exp (Some true)
    | ArgFunction f => mkCheck None (CheckFunction f) exp (Some true)
    | ArgCheck vc => vc
    end in
  with_contract I
    (mkContract (Some (pre ++ [entry])%list) (postconditions c) (invariants c)).

(** [ensures] *)
Definition ensures (chk : CheckArg W) (exp : Js.value) (I : Intent W)
  : Intent W :=
  let c := contract I in
  let post := or_default (postconditions c) [] in
  let entry :=
    match chk with
    | ArgString s =>
        mkCheck None (CheckCommand (mkCommand s None None)) exp (Some true)
    | ArgFunction f => mkCheck None (CheckFunction f) exp (Some true)
    | ArgCheck vc => vc
    end in
  with_contract I
    (mkContract (preconditions c) (Some (post ++ [entry])%list) (invariants c)).

(** [invariant] *)
Definition invariant (chk : CheckArg W) (exp : Js.value) (I : Intent W)
  : Intent W :=
  let c := contract I in
  let inv := or_default (invariants c) [] in
  let entry :=
    match chk with
    | ArgString s =>
        mkCheck None (CheckCommand (mkCommand s None None)) exp (Some true)
    | ArgFunction f => mkCheck None (CheckFunction f) exp None
    | ArgCheck vc => vc
    end in
  with_contract I
    (mkContract (preconditions c) (postconditions c) (Some (inv ++ [entry])%list)).

(** [step]; [rnd] is the text of the random bytes drawn for [stepId]. *)
Definition step (rnd name : string) (definition : StepDefinition W)
  (I : Intent W) : Intent W :=
  let s := mkStep rnd name (def_description definition) pending None
             false false false (def_dependencies definition) definition in
  mkIntent (id I) (goal I) (status I)
    (JsMap.set rnd s (steps I)) (stepOrder I ++ [rnd])%list
    (contract I) (options I).

End Builder.

(** ** [Intent.execute] *)

Section Engine.
Context {W : Type} {host : Host W}.

(** [this.emit(...)] *)
Definition emit (e : Event) (st : State W) : State W :=
  mkState (st_status st) (st_steps st) (st_log st)
    (st_events st ++ [e])%list (st_trace st) (st_world st).

(** An entry of the ghost record. *)
Definition note (o : Obs) (st : State W) : State W :=
  mkState (st_status st) (st_steps st) (st_log st)
    (st_events st) (st_trace st ++ [o])%list (st_world st).

(** [verificationLog.push(r)] *)
Definition push_log (r : VerificationResult) (st : State W) : State W :=
  mkState (st_status st) (st_steps st) (st_log st ++ [r])%list
    (st_events st) (st_trace st) (st_world st).

(** The world as a call to the outside left it. *)
Definition with_world (w : W) (st : State W) : State W :=
  mkState (st_status st) (st_steps st) (st_log st)
    (st_events st) (st_trace st) w.

(** [this.status = s] *)
Definition with_status (s : IntentStatus) (st : State W) : State W :=
  mkState s (st_steps st) (st_log st)
    (st_events st) (st_trace st) (st_world st).

(** Assignment to members of the [Step] object stored under [stepId]. *)
Definition mutate (stepId : string) (f : Step W -> Step W) (st : State W)
  : State W :=
  mkState (st_status st) (JsMap.adjust f stepId (st_steps st)) (st_log st)
    (st_events st) (st_trace st) (st_world st).

Definition assign_status (s : StepStatus) (x : Step W) : Step W :=
  mkStep (step_id x) (step_name x) (step_description x) s (step_result x)
    (step_started x) (step_ended x) (step_timed x)
    (step_dependencies x) (step_definition x).

Definition assign_result (r : VerificationResult) (x : Step W) : Step W :=
  mkStep (step_id x) (step_name x) (step_description x) (step_status x)
    (Some r) (step_started x) (step_ended x) (step_timed x)
    (step_dependencies x) (step_definition x).

Definition assign_startTime (x : Step W) : Step W :=
  mkStep (step_id x) (step_name x) (step_description x) (step_status x)
    (step_result x) true (step_ended x) (step_timed x)
    (step_dependencies x) (step_definition x).

Definition assign_endTime (x : Step W) : Step W :=
  mkStep (step_id x) (step_name x) (step_description x) (step_status x)
    (step_result x) (step_started x) true (step_timed x)
    (step_dependencies x) (step_definition x).

Definition assign_duration (x : Step W) : Step W :=
  mkStep (step_id x) (step_name x) (step_description x) (step_status x)
    (step_result x) (step_started x) (step_ended x) true
    (step_dependencies x) (step_definition x).

(** [step.status = s] *)
Definition set_step_status (stepId : string) (s : StepStatus) (st : State W)
  : State W :=
  note (ObsStatus stepId s) (mutate stepId (assign_status s) st).

(** The object literal returned on every failing path; [failureReason] is
    [undefined] ([None]) when what it is given is. *)
Definition failure_result (st : State W) (failedStep : string)
  (reason : option string) : IntentExecutionResult W :=
  mkExecutionResult false intent_failed (JsMap.values (st_steps st))
    (Some failedStep) reason (st_log st).

(** [verifyCheck]; [inl] is the message of the [TypeError] it throws:
    the one [FunctionVerifier.verify] rejects with, or the one thrown by
    [check.check.type] when [check.check] is [null] or [undefined]. *)
Definition verifyCheck (c : VerificationCheck W) (w : W)
  : (string + VerificationResult) * W :=
  match check c with
  | CheckFunction fn => FunctionVerifier_verify fn (expect c) w
  | CheckCommand cmd =>
      let '(r, w') := CommandVerifier_verify (inr cmd) (expect c) w in
      (inr r, w')
  | CheckOther =>
      (inr (mkResult false "Unknown verification type"
              Js.Undefined Js.Undefined None), w)
  | CheckNullish is_null =>
      (inl ("Cannot read properties of "
              ++ (if is_null then "null" else "undefined")
              ++ " (reading 'type')"), w)
  end.

(** [verifyStep]; [inl] is the message of the [TypeError] it throws: the
    one [FunctionVerifier.verify] rejects with, or the one thrown by
    [definition.verify.type] when [verify] is [undefined]. *)
Definition verifyStep (d : StepDefinition W) (w : W)
  : (string + VerificationResult) * W :=
  match def_verify d with
  | VerifyFunction fn => FunctionVerifier_verify fn (def_expect d) w
  | VerifyString cmd =>
      let '(r, w') := CommandVerifier_verify (inl cmd) (def_expect d) w in
      (inr r, w')
  | VerifyCommand c =>
      let '(r, w') := CommandVerifier_verify (inr c) (def_expect d) w in
      (inr r, w')
  | VerifyOther =>
      (inr (mkResult false "No verification defined for step"
              Js.Undefined Js.Undefined None), w)
  | VerifyMissing =>
      (inl "Cannot read properties of undefined (reading 'type')", w)
  end.

(** The loop over [this.contract.preconditions] and the one over
    [this.contract.postconditions]; the two differ in the phase label.
    Neither stands in a [try]: what [verifyCheck] throws leaves
    [execute]. *)
Fixpoint check_conditions (ph : Phase) (label : string)
  (cs : list (VerificationCheck W)) (st : State W) : Flow W :=
  match cs with
  | [] => Next st
  | c :: rest =>
      match verifyCheck c (st_world st) with
      | (inl err, w') => Reject err (with_world w' st)
      | (inr result, w') =>
          let st1 := push_log result
                       (note (ObsCheck ph (critical c) (success result))
                          (with_world w' st)) in
          if negb (success result)
             && negb (match critical c with
                      | Some false => true
                      | _ => false
                      end)
          then
            let st2 := emit (EvFailed label None (message result))
                         (with_status intent_failed st1) in
            Return (failure_result st2 label (Some (message result))) st2
          else check_conditions ph label rest st1
      end
  end.

(** The loops over [this.contract.invariants], before ([before = true]) and
    after a step.  Only the one before assigns [step.status].  Neither
    stands in the [try] of the step. *)
Fixpoint check_invariants (before : bool) (stepId name : string)
  (invs : list (VerificationCheck W)) (st : State W) : Flow W :=
  match invs with
  | [] => Next st
  | inv :: rest =>
      match verifyCheck inv (st_world st) with
      | (inl err, w') => Reject err (with_world w' st)
      | (inr result, w') =>
          let st1 := note (ObsCheck (inv_phase before stepId) (critical inv)
                             (success result))
                       (with_world w' st) in
          if negb (success result) then
            let st2 := with_status intent_failed st1 in
            let st3 := if before then set_step_status stepId failed st2
                       else st2 in
            let st4 := emit (EvFailed "invariant" (Some name)
                               (message result))
                         st3 in
            Return (failure_result st4
                      ((if before then "invariant before "
                        else "invariant after ") ++ name)
                      (Some (message result))) st4
          else check_invariants before stepId name rest st1
      end
  end.

(** [step.dependencies.filter(...)] *)
Definition unmetDeps (deps : list string) (m : JsMap.t (Step W))
  : list string :=
  List.filter
    (fun depId =>
       match JsMap.get depId m with
       | None => true
       | Some dep => match step_status dep with
                     | completed => false
                     | _ => true
                     end
       end) deps.

(** The body of the [try] up to the value of [verifyStep]: [inl] carries
    what was thrown, which is the value the action threw or the
    [TypeError] [verifyStep] threw. *)
Definition attempt (stepId : string) (d : StepDefinition W) (st : State W)
  : (Thrown + VerificationResult) * State W :=
  let run_verify (st : State W) :=
    match verifyStep d (st_world st) with
    | (inr r, w') =>
        (inr r, note (ObsVerify stepId (Some (success r))) (with_world w' st))
    | (inl err, w') =>
        (inl (ErrorObject err),
         note (ObsVerify stepId None) (with_world w' st))
    end in
  match def_action d with
  | Some act =>
      match act (st_world st) with
      | (Returns _, w') =>
          run_verify (note (ObsAction stepId true) (with_world w' st))
      | (Throws error, w') =>
          (inl error, note (ObsAction stepId false) (with_world w' st))
      end
  | None => run_verify st
  end.

(** The loop over the invariants as it stands before and after the step. *)
Definition invariants_phase (I : Intent W) (before : bool)
  (stepId name : string) (st : State W) : Flow W :=
  match invariants (contract I) with
  | Some invs => check_invariants before stepId name invs st
  | None => Next st
  end.

(** The rest of the [try] block once [verifyStep] has returned ([inr]), and
    the [catch] clause ([inl]), which assigns the status and then reads
    [error.message]: on [null] and [undefined] that access throws, and the
    [TypeError] leaves [execute]. *)
Definition settle_attempt (I : Intent W) (stepId name : string)
  (outcome : Thrown + VerificationResult) (st : State W) : Flow W :=
  match outcome with
  | inr result =>
      let st := push_log result (mutate stepId (assign_result result) st) in
      if success result then
        Next (emit (EvStepComplete name)
                (mutate stepId assign_duration
                   (mutate stepId assign_endTime
                      (set_step_status stepId completed st))))
      else
        let st := emit (EvStepFailed name (message result))
                    (mutate stepId assign_endTime
                       (set_step_status stepId failed st)) in
        if enabled (o_stopOnFailure (options I)) then
          let st := with_status intent_failed st in
          Return (failure_result st name (Some (message result))) st
        else Next st
  | inl error =>
      let st := set_step_status stepId failed st in
      match read_message error with
      | inl type_error => Reject type_error st
      | inr m =>
          let st :=
            emit (EvStepError name m)
              (mutate stepId
                 (assign_result
                    (mkResult false
                       ("Step execution error: " ++ template_text m)
                       Js.Undefined Js.Undefined None))
                 st) in
          if enabled (o_stopOnFailure (options I)) then
            let st := with_status intent_failed st in
            Return (failure_result st name m) st
          else Next st
      end
  end.

(** [unmetDeps.length > 0], guarded by [if (step.dependencies)]. *)
Definition has_unmet_dependencies (s : Step W) (m : JsMap.t (Step W))
  : bool :=
  match step_dependencies s with
  | Some deps => Nat.ltb 0 (List.length (unmetDeps deps m))
  | None => false
  end.

(** One turn of [for (const stepId of this.stepOrder)]. *)
Definition run_step (I : Intent W) (stepId : string) (st : State W)
  : Flow W :=
  match JsMap.get stepId (st_steps st) with
  | None =>
      Reject "Cannot read properties of undefined (reading '_definition')" st
  | Some s =>
      let definition := step_definition s in
      let name := step_name s in
      (* Check dependencies *)
      if has_unmet_dependencies s (st_steps st) then
        Next (emit (EvStepSkipped name "unmet dependencies")
                (set_step_status stepId skipped st))
      else
        (* Check invariants before step *)
        and_then (invariants_phase I true stepId name st)
          (fun st =>
             (* Execute step *)
             let st := emit (EvStepStart name)
                         (mutate stepId assign_startTime
                            (set_step_status stepId running st)) in
             let '(outcome, st) := attempt stepId definition st in
             and_then (settle_attempt I stepId name outcome st)
               (* Check invariants after step *)
               (invariants_phase I false stepId name))
  end.

Fixpoint run_steps (I : Intent W) (ids : list string) (st : State W)
  : Flow W :=
  match ids with
  | [] => Next st
  | stepId :: rest => and_then (run_step I stepId st) (run_steps I rest)
  end.

(** How the promise returned by [execute] settles. *)
Inductive Completion : Type :=
| Resolved (r : IntentExecutionResult W) (st : State W)
| Rejected (error_message : string) (st : State W).

Definition initial_state (I : Intent W) (w : W) : State W :=
  mkState intent_running (steps I) []
    [EvStart (goal I) (List.length (stepOrder I))] [] w.

Definition preconditions_phase (I : Intent W) (st : State W) : Flow W :=
  match preconditions (contract I) with
  | Some pre =>
      check_conditions PhasePre "preconditions" pre
        (emit (EvPhase "preconditions") st)
  | None => Next st
  end.

Definition steps_phase (I : Intent W) (st : State W) : Flow W :=
  run_steps I (stepOrder I) (emit (EvPhase "execution") st).

Definition postconditions_phase (I : Intent W) (st : State W) : Flow W :=
  match postconditions (contract I) with
  | Some post =>
      check_conditions PhasePost "postconditions" post
        (emit (EvPhase "postconditions") st)
  | None => Next st
  end.

(** The end of [execute]: the success literal when no phase returned. *)
Definition finish (flow : Flow W) : Completion :=
  match flow with
  | Next st =>
      let st := emit (EvComplete (JsMap.size (st_steps st)))
                  (with_status intent_completed st) in
      Resolved (mkExecutionResult true intent_completed
                  (JsMap.values (st_steps st)) None None (st_log st)) st
  | Return r st => Resolved r st
  | Reject err st => Rejected err st
  end.

(** [execute] *)
Definition execute (I : Intent W) (w : W) : Completion :=
  finish
    (and_then (preconditions_phase I (initial_state I w))
       (fun st => and_then (steps_phase I st) (postconditions_phase I))).

Definition final_state (c : Completion) : State W :=
  match c with
  | Resolved _ st => st
  | Rejected _ st => st
  end.

End Engine.

Arguments Resolved {W}.
Arguments Rejected {W}.

(** ** A host to run examples on

    The world is the list of the command lines run so far.  The shell knows
    [true], [false] and [echo]; the pattern engine knows literal text. *)

Definition DemoWorld : Type := list string.

Definition demo_execSync (cmd : string) (_ : ExecOptions) (w : DemoWorld)
  : ExecOutcome * DemoWorld :=
  let w' := (w ++ [cmd])%list in
  if String.eqb cmd "true" then (ExecReturns "", w')
  else if Js.startsWith cmd "echo " then
    (ExecReturns (Js.slice_from 5 cmd ++ String "010" ""), w')
  else (ExecThrows ("Command failed: " ++ cmd), w').

Definition demo_RegExp_new (pattern : string) : string + (string -> bool) :=
  if Js.includes pattern "["
  then inl ("Invalid regular expression: /" ++ pattern ++ "/")
  else inr (fun input => Js.includes input pattern).

#[export] Instance demo_host : Host DemoWorld :=
  {| execSync := demo_execSync; RegExp_new := demo_RegExp_new |}.

Definition command_step (cmd : string) (exp : Js.value)
  : StepDefinition DemoWorld :=
  mkDefinition None None None (VerifyString cmd) exp.

(** A predicate that returns the number 1. *)
Definition returns_one : VerificationFunction DemoWorld :=
  fun w => (Returns (Js.Num (Js.Fin 1)), w).


Definition keep_going : IntentOptions :=
  mkOptions Absent (Given (Some false)) Absent Absent Absent.

(** One step whose command exits non-zero, run with
    [stopOnFailure: false]. *)
Definition lenient_intent : Intent DemoWorld :=
  step "a1" "first" (command_step "false" Js.Undefined)
    (new_Intent "id" "goal" keep_going).

(** Two steps, the second depending on the first, which fails. *)
Definition chained_intent : Intent DemoWorld :=
  step "b2" "second"
    (mkDefinition None (Some ["a1"]) None (VerifyString "true") Js.Undefined)
    (step "a1" "first" (command_step "false" Js.Undefined)
       (new_Intent "id" "goal" no_options)).

(** A failing precondition marked [critical: false], and nothing else. *)
Definition tolerant_intent : Intent DemoWorld :=
  requires
    (ArgCheck (mkCheck (Some "optional")
                 (CheckCommand (mkCommand "false" None None))
                 Js.Undefined (Some false)))
    Js.Undefined (new_Intent "id" "goal" no_options).

(** A precondition that expects the command to fail, then one step. *)
Definition bugfix_intent : Intent DemoWorld :=
  step "a1" "Apply fix" (command_step "true" Js.Undefined)
    (requires (ArgString "false") (Js.Str "fails")
       (new_Intent "id" "Fix bug" no_options)).

(** One step verified by a predicate returning 1, no expectation. *)
Definition one_intent : Intent DemoWorld :=
  step "a1" "first"
    (mkDefinition None None None (VerifyFunction returns_one) Js.Undefined)
    (new_Intent "id" "goal" no_options).


(** An action that throws [null]. *)
Definition throw_null : Action DemoWorld :=
  fun w => (Throws ThrownNull, (w ++ ["null"])%list).

(** One step whose action throws [null]. *)
Definition null_intent : Intent DemoWorld :=
  step "a1" "first"
    (mkDefinition None None (Some throw_null) (VerifyString "true")
       Js.Undefined)
    (new_Intent "id" "goal" no_options).

(** An invariant marked [critical: false] whose command exits non-zero,
    and one step. *)
Definition guarded_intent : Intent DemoWorld :=
  step "a1" "first" (command_step "true" Js.Undefined)
    (invariant
       (ArgCheck (mkCheck None (CheckCommand (mkCommand "false" None None))
                    Js.Undefined (Some false)))
       Js.Undefined (new_Intent "id" "goal" no_options)).

(** ** Vocabulary of the properties *)

(** [a op b] for the operator characters of the numeric rule. *)
Definition compare_with (operator : ascii) (a b : Js.number) : bool :=
  if Ascii.eqb operator ">" then Js.num_gt a b
  else if Ascii.eqb operator "<" then Js.num_lt a b
  else if Ascii.eqb operator "=" then Js.num_eq a b
  else false.

(** The step an observation belongs to. *)
Definition obs_step (o : Obs) : option string :=
  match o with
  | ObsCheck (PhaseInvBefore k) _ _ | ObsCheck (PhaseInvAfter k) _ _ => Some k
  | ObsCheck _ _ _ => None
  | ObsAction k _ | ObsVerify k _ | ObsStatus k _ => Some k
  end.

Definition about (k : string) (o : Obs) : Prop := obs_step o = Some k.

Definition status_written (k : string) (o : Obs) : list StepStatus :=
  match o with
  | ObsStatus k' s => if String.eqb k' k then [s] else []
  | _ => []
  end.

(** The statuses assigned to step [k], in order. *)
Definition writes (k : string) (t : list Obs) : list StepStatus :=
  List.flat_map (status_written k) t.

Definition rank (s : StepStatus) : nat :=
  match s with
  | pending => 0
  | running => 1
  | completed | failed | skipped => 2
  end.

(** A history of statuses that only moves forward. *)
Fixpoint advancing (h : list StepStatus) : Prop :=
  match h with
  | a :: (b :: _) as h' => (rank a < rank b)%nat /\ advancing h'
  | _ => True
  end.

(** An evaluation with a verdict other than "passed". *)
Definition not_passed (o : Obs) : bool :=
  match o with
  | ObsCheck _ _ ok => negb ok
  | ObsVerify _ (Some ok) => negb ok
  | ObsVerify _ None => true
  | _ => false
  end.

(** An observation that stops a run under [stopOnFailure]: a failed or
    throwing step, a failed invariant, a failed pre- or postcondition
    unless it is marked [critical: false]. *)
Definition fatal (o : Obs) : bool :=
  match o with
  | ObsCheck (PhasePre | PhasePost) (Some false) _ => false
  | ObsCheck _ _ ok => negb ok
  | ObsAction _ ok => negb ok
  | ObsVerify _ (Some ok) => negb ok
  | ObsVerify _ None => true
  | ObsStatus _ _ => false
  end.

Definition nonfatal (o : Obs) : Prop := fatal o = false.

Definition invariant_failure (o : Obs) : bool :=
  match o with
  | ObsCheck (PhaseInvBefore _ | PhaseInvAfter _) _ false => true
  | _ => false
  end.

(** What the outcome of [attempt] counts as: [None] when it threw. *)
Definition verdict (outcome : Thrown + VerificationResult) : option bool :=
  match outcome with
  | inr r => Some (success r)
  | inl _ => None
  end.

(** The [catch] clause of the step cannot read the message of what was
    thrown, and throws itself. *)
Definition crashes (outcome : Thrown + VerificationResult) : bool :=
  match outcome with
  | inl error =>
      match read_message error with
      | inl _ => true
      | inr _ => false
      end
  | inr _ => false
  end.

(** *** The shape of the ghost record *)

Inductive invariants_trace (before : bool) (k : string)
  : list Obs -> Exit -> Prop :=
| it_done : invariants_trace before k [] ExitNext
| it_pass crit t e :
    invariants_trace before k t e ->
    invariants_trace before k (ObsCheck (inv_phase before k) crit true :: t) e
| it_fail crit :
    invariants_trace before k
      (ObsCheck (inv_phase before k) crit false
         :: (if before then [ObsStatus k failed] else []))
      ExitReturn
| it_threw : invariants_trace before k [] ExitReject.

Inductive conditions_trace (ph : Phase) : list Obs -> Exit -> Prop :=
| ct_done : conditions_trace ph [] ExitNext
| ct_pass crit t e :
    conditions_trace ph t e ->
    conditions_trace ph (ObsCheck ph crit true :: t) e
| ct_tolerated t e :
    conditions_trace ph t e ->
    conditions_trace ph (ObsCheck ph (Some false) false :: t) e
| ct_fail crit :
    crit <> Some false ->
    conditions_trace ph [ObsCheck ph crit false] ExitReturn
| ct_threw : conditions_trace ph [] ExitReject.

Inductive attempt_trace (k : string) : list Obs -> option bool -> Prop :=
| at_verify v : attempt_trace k [ObsVerify k v] v
| at_action v : attempt_trace k [ObsAction k true; ObsVerify k v] v
| at_threw : attempt_trace k [ObsAction k false] None.

Inductive step_trace (stop : bool) (k : string)
  : list Obs -> Exit -> Prop :=
| st_reject : step_trace stop k [] ExitReject
| st_skipped : step_trace stop k [ObsStatus k skipped] ExitNext
| st_invariant t :
    invariants_trace true k t ExitReturn -> step_trace stop k t ExitReturn
| st_completed t0 ta t1 e :
    invariants_trace true k t0 ExitNext ->
    attempt_trace k ta (Some true) ->
    invariants_trace false k t1 e ->
    step_trace stop k
      (t0 ++ ObsStatus k running :: ta ++ ObsStatus k completed :: t1)%list e
| st_failed_stop t0 ta v :
    stop = true -> v <> Some true ->
    invariants_trace true k t0 ExitNext ->
    attempt_trace k ta v ->
    step_trace stop k
      (t0 ++ ObsStatus k running :: ta ++ [ObsStatus k failed])%list
      ExitReturn
| st_failed_on t0 ta v t1 e :
    stop = false -> v <> Some true ->
    invariants_trace true k t0 ExitNext ->
    attempt_trace k ta v ->
    invariants_trace false k t1 e ->
    step_trace stop k
      (t0 ++ ObsStatus k running :: ta ++ ObsStatus k failed :: t1)%list e
| st_before_threw t :
    invariants_trace true k t ExitReject -> step_trace stop k t ExitReject
| st_crashed t0 :
    invariants_trace true k t0 ExitNext ->
    step_trace stop k
      (t0 ++ [ObsStatus k running; ObsAction k false; ObsStatus k failed])%list
      ExitReject.

Inductive steps_trace (stop : bool)
  : list string -> list Obs -> Exit -> Prop :=
| sts_done : steps_trace stop [] [] ExitNext
| sts_next k ids t t' e :
    step_trace stop k t ExitNext ->
    steps_trace stop ids t' e ->
    steps_trace stop (k :: ids) (t ++ t')%list e
| sts_halt k ids t e :
    e <> ExitNext ->
    step_trace stop k t e ->
    steps_trace stop (k :: ids) t e.

Inductive run_trace (stop : bool) (ids : list string)
  : list Obs -> Exit -> Prop :=
| rt_pre t e :
    e <> ExitNext ->
    conditions_trace PhasePre t e -> run_trace stop ids t e
| rt_steps tp ts e :
    e <> ExitNext ->
    conditions_trace PhasePre tp ExitNext ->
    steps_trace stop ids ts e ->
    run_trace stop ids (tp ++ ts)%list e
| rt_post tp ts tq e :
    conditions_trace PhasePre tp ExitNext ->
    steps_trace stop ids ts ExitNext ->
    conditions_trace PhasePost tq e ->
    run_trace stop ids (tp ++ ts ++ tq)%list e.

(** The status stored for step [k], if the map has that step. *)
Definition status_of {W} (k : string) (m : JsMap.t (Step W))
  : option StepStatus :=
  option_map step_status (JsMap.get k m).

(** [st'] comes after [st] with [t] added to the ghost record, and the
    status of every step is the last one written to it. *)
Definition tracks {W} (st st' : State W) (t : list Obs) : Prop :=
  st_trace st' = (st_trace st ++ t)%list /\
  forall k,
    status_of k (st_steps st')
    = option_map (List.last (writes k t)) (status_of k (st_steps st)).

(** The status of step [d] once the assignments recorded in [t] have been
    made to the steps [m]. *)
Definition status_after {W} (m : JsMap.t (Step W)) (t : list Obs)
  (d : string) : option StepStatus :=
  option_map (List.last (writes d t)) (status_of d m).

(** Every dependency that step [s] declares is a step of [m] and is
    [completed] once the assignments recorded in [t] have been made. *)
Definition dependencies_met {W} (s : Step W) (m : JsMap.t (Step W))
  (t : list Obs) : Prop :=
  forall deps d,
    step_dependencies s = Some deps -> In d deps ->
    status_after m t d = Some completed.

(** What [turn] records is the turn of step [k] in a run that it did not
    stop, [before] being what was recorded up to there: with a dependency
    missing or not completed the step is marked [skipped] and nothing
    else; with its dependencies met it is set [running], its action, if
    it has one, is called and returns, its verification is called and
    passes, and it is set [completed]. *)
Definition turn_of {W} (I : Intent W) (k : string) (before turn : list Obs)
  : Prop :=
  exists s,
    JsMap.get k (steps I) = Some s
    /\ ((~ dependencies_met s (steps I) before
         /\ turn = [ObsStatus k skipped])
        \/ (dependencies_met s (steps I) before
            /\ In (ObsStatus k running) turn
            /\ (def_action (step_definition s) <> None ->
                In (ObsAction k true) turn)
            /\ In (ObsVerify k (Some true)) turn
            /\ In (ObsStatus k completed) turn
            /\ Forall (about k) turn)).

(** Every step of [stepOrder] has had its turn in [t], in a run it did not
    stop. *)
Definition every_step_accounted {W} (I : Intent W) (t : list Obs) : Prop :=
  forall pre k post,
    stepOrder I = (pre ++ k :: post)%list ->
    exists t1 turn t2,
      t = (t1 ++ turn ++ t2)%list /\ turn_of I k t1 turn.

(** Every step of the Intent is still [pending]: no [execute] has run. *)
Definition fresh {W} (I : Intent W) : Prop :=
  forall k s, status_of k (steps I) = Some s -> s = pending.

(** A [return] inside [execute] hands out the failure literal, built from
    the state as it is at that point. *)
Definition returns_failure {W} (f : Flow W) : Prop :=
  match f with
  | Return r st =>
      st_status st = intent_failed
      /\ exists label reason, r = failure_result st label reason
  | _ => True
  end.

(** The statuses one turn of the loop can assign to its step. *)
Definition turn_history (h : list StepStatus) : Prop :=
  h = [] \/ h = [skipped] \/ h = [failed]
  \/ h = [running; completed] \/ h = [running; failed].

(** The reading of C1 as it is worded: [success] is true exactly when
    every evaluation that was made passed. *)
Definition success_iff_all_passed {W} {host : Host W}
  (I : Intent W) (w : W) : Prop :=
  forall r st,
    execute I w = Resolved r st ->
    (res_success r = true
     <-> Forall (fun o => not_passed o = false) (st_trace st)).


(** No invariant has failed in [t]. *)
Definition clean (t : list Obs) : Prop :=
  Forall (fun o => invariant_failure o = false) t.

(** [t] ends at its one failed invariant check, followed at most by the
    assignment of [failed] to the step it was checked before. *)
Definition ends_at_invariant (t : list Obs) : Prop :=
  exists t0 o tail,
    t = (t0 ++ o :: tail)%list
    /\ clean t0
    /\ invariant_failure o = true
    /\ (tail = [] \/ exists k, tail = [ObsStatus k failed]).

(** How [execute] ended, as an [Exit]. *)
Definition completion_exit {W} (c : @Completion W) : Exit :=
  match c with
  | Resolved r _ => if res_success r then ExitNext else ExitReturn
  | Rejected _ _ => ExitReject
  end.

(** * The rest of [verifiers/base.ts] and the helpers of [index.ts] *)

From Stdlib Require Import DecimalString.

(** ** The language runtime

    Built-ins whose results the verifiers put into texts or compare, taken
    as given: the text of a Number as a template literal prints it, and the
    two halves of the [JSON] object.  [JSON.stringify] yields a text,
    [undefined], or throws. *)

Inductive Stringified : Type :=
| JsonText (text : string)
| JsonUndefined
| JsonThrows (error_message : string).

Class Runtime : Type := {
  Number_toString : Js.number -> string;
  JSON_stringify : Js.value -> Stringified;
  JSON_parse : string -> string + Js.value
}.

(** ** [FileVerifier] *)

(** What [fs.statSync] tells, as far as the verifier reads it; [mtime] is
    the time value of the [Date]. *)
Record Stats : Type := mkStats {
  stat_size : Z;
  stat_mtime : Z
}.

(** A path that exists: its [Stats], and what [fs.readFileSync(path,
    'utf-8')] does on it, return the text ([inr]) or throw ([inl], as on a
    directory). *)
Record FileNode : Type := mkFile {
  file_stats : Stats;
  file_read : string + string
}.

(** The file system as the synchronous calls of one [verify] see it. *)
Definition FileSystem : Type := string -> option FileNode.

(** A [RegExp] object without the [g] and [y] flags (so that [test] keeps
    no state): its text as [toString] prints it, and its [test]. *)
Record RegExp : Type := mkRegExp {
  re_text : string;
  re_test : string -> bool
}.

Record SizeBounds : Type := mkSizeBounds {
  size_min : option Js.number;
  size_max : option Js.number
}.

(** [after] and [before] are [Date]s, kept as their time values ([NaN] for
    an invalid date). *)
Record TimeBounds : Type := mkTimeBounds {
  time_after : option Js.number;
  time_before : option Js.number
}.

Record FileChecks : Type := mkFileChecks {
  fc_exists : option bool;
  fc_contains : option (string + list string);
  fc_matches : option RegExp;
  fc_size : option SizeBounds;
  fc_modified : option TimeBounds
}.

(** The values [FileVerifier] stores in [actual] and [expected]. *)
Inductive FileDatum : Type :=
| DAbsent
| DBool (b : bool)
| DNumber (n : Js.number)
| DText (s : string)
| DSize (bounds : SizeBounds)
| DDate (time : Js.number).

(** A [VerificationResult] as [FileVerifier] fills it. *)
Record FileResult : Type := mkFileResult {
  f_success : bool;
  f_message : string;
  f_actual : FileDatum;
  f_expected : FileDatum;
  f_evidence : option (list string)
}.

Section FileVerifier.
Context {runtime : Runtime}.

(** The double quote character, as a text. *)
Definition quote : string := String (Ascii.ascii_of_nat 34) "".

(** [createResult] on the values of this verifier. *)
Definition createFileResult (ok : bool) (msg : string)
  (act exp : FileDatum) : FileResult :=
  mkFileResult ok msg act exp (Some []).

(** Truthiness of [checks.contains]: the empty string is falsy, an array
    is truthy even when empty. *)
Definition contains_given (c : FileChecks) : bool :=
  match fc_contains c with
  | Some (inl s) => negb (String.eqb s "")
  | Some (inr _) => true
  | None => false
  end.

(** [Array.isArray(checks.contains) ? checks.contains : [checks.contains]] *)
Definition searchTerms (contains : string + list string) : list string :=
  match contains with
  | inl s => [s]
  | inr terms => terms
  end.

(** The loop over [searchTerms]: the failure result at the first term the
    content lacks, else the evidence with one line added per term. *)
Fixpoint check_terms (content : string) (terms : list string)
  (evidence : list string) : FileResult + list string :=
  match terms with
  | [] => inr evidence
  | term :: rest =>
      if negb (Js.includes content term) then
        inl (createFileResult false
               ("File does not contain: " ++ quote ++ term ++ quote)
               (DText "file content") (DText term))
      else check_terms content rest
             (evidence ++ ["Contains: " ++ quote ++ term ++ quote])
  end.

(** The size checks; [None] when they pass. *)
Definition check_size (stats : Stats) (c : FileChecks) : option FileResult :=
  match fc_size c with
  | Some bounds =>
      let size := Js.Fin (stat_size stats) in
      let large :=
        match size_max bounds with
        | Some hi =>
            if Js.num_gt size hi then
              Some (createFileResult false
                      ("File too large: " ++ Number_toString size ++ " > "
                         ++ Number_toString hi)
                      (DNumber size) (DSize bounds))
            else None
        | None => None
        end in
      match size_min bounds with
      | Some lo =>
          if Js.num_lt size lo then
            Some (createFileResult false
                    ("File too small: " ++ Number_toString size ++ " < "
                       ++ Number_toString lo)
                    (DNumber size) (DSize bounds))
          else large
      | None => large
      end
  | None => None
  end.

(** The modification time checks; [None] when they pass. *)
Definition check_modified (stats : Stats) (c : FileChecks)
  : option FileResult :=
  match fc_modified c with
  | Some bounds =>
      let mtime := Js.Fin (stat_mtime stats) in
      let late :=
        match time_before bounds with
        | Some t =>
            if Js.num_gt mtime t then
              Some (createFileResult false "File modified too recently"
                      (DDate mtime) (DDate t))
            else None
        | None => None
        end in
      match time_after bounds with
      | Some t =>
          if Js.num_lt mtime t then
            Some (createFileResult false "File not modified recently"
                    (DDate mtime) (DDate t))
          else late
      | None => late
      end
  | None => None
  end.

(** The content checks, on the evidence gathered so far: a thrown read
    error, a failure result, or the final evidence. *)
Definition check_content (node : FileNode) (c : FileChecks)
  (evidence : list string) : string + (FileResult + list string) :=
  if contains_given c
     || match fc_matches c with Some _ => true | None => false end
  then
    match file_read node with
    | inl err => inl err
    | inr content =>
        match (if contains_given c
               then check_terms content
                      (match fc_contains c with
                       | Some given => searchTerms given
                       | None => []
                       end) evidence
               else inr evidence) with
        | inl failure => inr (inl failure)
        | inr evidence =>
            match fc_matches c with
            | Some re =>
                if negb (re_test re content) then
                  inr (inl (createFileResult false
                              ("File does not match pattern: " ++ re_text re)
                              (DText "file content") (DText (re_text re))))
                else inr (inr evidence)
            | None => inr (inr evidence)
            end
        end
    end
  else inr (inr evidence).

Definition no_checks : FileChecks := mkFileChecks None None None None None.

(** [FileVerifier.verify]; [inl] is the message of the error thrown by
    [readFileSync].  An absent [checks] argument reads like one with no
    member, every access being [checks?.member]. *)
Definition FileVerifier_verify (fs : FileSystem) (filePath : string)
  (checks : option FileChecks) : string + FileResult :=
  let c := match checks with Some c => c | None => no_checks end in
  let exists_ := match fs filePath with Some _ => true | None => false end in
  let proceed :=
    match fs filePath with
    | None =>
        inr (createFileResult false ("File not found: " ++ filePath)
               DAbsent DAbsent)
    | Some node =>
        let stats := file_stats node in
        let evidence :=
          ["File size: " ++ Number_toString (Js.Fin (stat_size stats))
             ++ " bytes"] in
        (* Size checks *)
        match check_size stats c with
        | Some failure => inr failure
        | None =>
            (* Modified time checks *)
            match check_modified stats c with
            | Some failure => inr failure
            | None =>
                (* Content checks *)
                match check_content node c evidence with
                | inl err => inl err
                | inr (inl failure) => inr failure
                | inr (inr evidence) =>
                    inr (mkFileResult true
                           ("File verification passed: " ++ filePath)
                           DAbsent DAbsent (Some evidence))
                end
            end
        end
    end in
  (* Check existence *)
  match fc_exists c with
  | Some wanted =>
      if negb (Bool.eqb exists_ wanted) then
        inr (createFileResult false
               (if wanted then "File does not exist: " ++ filePath
                else "File should not exist: " ++ filePath)
               (DBool exists_) (DBool wanted))
      else if negb wanted then
        inr (createFileResult true "File does not exist as expected"
               DAbsent DAbsent)
      else proceed
  | None => proceed
  end.

End FileVerifier.

(** ** [StateVerifier] *)

Section StateVerifier.
Context {runtime : Runtime}.

(** The private [snapshots] map. *)
Definition Snapshots : Type := JsMap.t Js.value.

(** [JSON.parse(JSON.stringify(value))]; an [undefined] from [stringify] is
    handed to [parse] as the text "undefined". *)
Definition deep_copy (value : Js.value) : string + Js.value :=
  match JSON_stringify value with
  | JsonThrows err => inl err
  | JsonUndefined => JSON_parse "undefined"
  | JsonText text => JSON_parse text
  end.

(** [snapshot]: the map with the copy stored, or the error thrown while
    copying (the map is then as it was). *)
Definition snapshot (key : string) (value : Js.value) (snapshots : Snapshots)
  : string + Snapshots :=
  match deep_copy value with
  | inl err => inl err
  | inr copy => inr (JsMap.set key copy snapshots)
  end.

(** [JSON.stringify(a) === JSON.stringify(b)], the left call first; [inl]
    when one of them throws. *)
Definition same_json (a b : Js.value) : string + bool :=
  match JSON_stringify a with
  | JsonThrows err => inl err
  | JsonUndefined =>
      match JSON_stringify b with
      | JsonThrows err => inl err
      | JsonUndefined => inr true
      | JsonText _ => inr false
      end
  | JsonText ta =>
      match JSON_stringify b with
      | JsonThrows err => inl err
      | JsonUndefined => inr false
      | JsonText tb => inr (String.eqb ta tb)
      end
  end.

(** [StateVerifier.verify] *)
Definition StateVerifier_verify (key : string) (expected : Js.value)
  (snapshots : Snapshots) : string + VerificationResult :=
  match JsMap.get key snapshots with
  | None =>
      inr (createResult false ("No snapshot found for key: " ++ key)
             Js.Undefined Js.Undefined)
  | Some actual =>
      if is_undefined expected then
        inr (createResult true "Snapshot exists" actual Js.Undefined)
      else
        match same_json actual expected with
        | inl err => inl err
        | inr matches =>
            inr (createResult matches
                   (if matches then "State matches expected"
                    else "State does not match")
                   actual expected)
        end
  end.

(** [StateVerifier.diff] *)
Definition diff (key1 key2 : string) (snapshots : Snapshots)
  : string + VerificationResult :=
  match JsMap.get key1 snapshots, JsMap.get key2 snapshots with
  | Some snap1, Some snap2 =>
      match same_json snap1 snap2 with
      | inl err => inl err
      | inr same =>
          inr (createResult same
                 (if same then "States are identical" else "States differ")
                 snap2 snap1)
      end
  | _, _ =>
      inr (createResult false "Missing snapshots for comparison"
             Js.Undefined Js.Undefined)
  end.

End StateVerifier.

(** ** Convenience exports ([index.ts]) *)

(** An element of the [steps] argument of [verify]. *)
Record QuickStep (W : Type) : Type := mkQuickStep {
  qs_name : string;
  qs_verify : string + VerificationFunction W;
  qs_expect : Js.value
}.
Arguments mkQuickStep {W}.
Arguments qs_name {W}.
Arguments qs_verify {W}.
Arguments qs_expect {W}.

Section Helpers.
Context {W : Type} {host : Host W}.

(** The Intent [verify] builds before it calls [execute]; every step comes
    with the random text drawn for its identity. *)
Definition verify_intent (rnd goal : string)
  (steps : list (string * QuickStep W)) : Intent W :=
  List.fold_left
    (fun I '(r, s) =>
       step r (qs_name s)
         (mkDefinition None None None
            (match qs_verify s with
             | inl cmd => VerifyString cmd
             | inr fn => VerifyFunction fn
             end)
            (qs_expect s)) I)
    steps (new_Intent rnd goal no_options).

(** [verify] *)
Definition verify (rnd goal : string) (steps : list (string * QuickStep W))
  (w : W) : Completion :=
  execute (verify_intent rnd goal steps) w.

(** [ensureTestsPass]; [None] is the omitted argument. *)
Definition ensureTestsPass (rnd : string) (testCommand : option string)
  : Intent W :=
  let testCommand := or_default testCommand "npm test" in
  ensures (ArgString testCommand) (Js.Str "exit 0")
    (requires (ArgString testCommand) (Js.Str "exit 0")
       (new_Intent rnd "Ensure tests pass" no_options)).

(** [ensureBugFixed]; [expectedOutput || 'success'] takes the default for
    the omitted and for the empty text. *)
Definition ensureBugFixed (rnd rnd_step : string)
  (bugDescription verificationCommand : string)
  (expectedOutput : option string) : Intent W :=
  ensures (ArgString verificationCommand)
    (Js.Str (match expectedOutput with
             | Some e => if String.eqb e "" then "success" else e
             | None => "success"
             end))
    (step rnd_step "Apply fix"
       (mkDefinition None None None
          (VerifyFunction (fun w => (Returns (Js.Bool true), w)))
          Js.Undefined)
       (requires (ArgString verificationCommand) (Js.Str "fails")
          (new_Intent rnd ("Fix bug: " ++ bugDescription) no_options))).

(** [ensureFilesCreated]; every file comes with the random text drawn for
    the identity of its step. *)
Definition ensureFilesCreated (rnd : string) (files : list (string * string))
  : Intent W :=
  List.fold_left
    (fun I '(r, file) =>
       step r ("Create " ++ file)
         (mkDefinition None None None (VerifyString ("test -f " ++ file))
            (Js.Str file)) I)
    files (new_Intent rnd "Create required files" no_options).

End Helpers.

(** ** A runtime to run examples on *)

Definition demo_Number_toString (n : Js.number) : string :=
  match n with
  | Js.NaN => "NaN"
  | Js.Inf true => "-Infinity"
  | Js.Inf false => "Infinity"
  | Js.Fin z => NilZero.string_of_int (Z.to_int z)
  end.

(** Texts of the scalar values only; an object prints as the empty
    object. *)
Definition demo_JSON_stringify (v : Js.value) : Stringified :=
  match v with
  | Js.Undefined => JsonUndefined
  | Js.Null => JsonText "null"
  | Js.Bool b => JsonText (if b then "true" else "false")
  | Js.Num (Js.Fin z) => JsonText (demo_Number_toString (Js.Fin z))
  | Js.Num _ => JsonText "null"
  | Js.Str s | Js.StrObj _ s => JsonText (quote ++ s ++ quote)
  | Js.Ref _ => JsonText "{}"
  end.

Definition demo_JSON_parse (text : string) : string + Js.value :=
  if String.eqb text "null" then inr Js.Null
  else if String.eqb text "true" then inr (Js.Bool true)
  else if String.eqb text "false" then inr (Js.Bool false)
  else if String.eqb text "{}" then inr (Js.Ref 0)
  else if Js.startsWith text quote && Js.endsWith text quote
          && Nat.leb 2 (String.length text)
  then inr (Js.Str (Js.slice_1_m1 text))
  else match Js.parseInt text with
       | Js.NaN => inl ("Unexpected token in JSON: " ++ text)
       | n => inr (Js.Num n)
       end.

#[export] Instance demo_runtime : Runtime :=
  {| Number_toString := demo_Number_toString;
     JSON_stringify := demo_JSON_stringify;
     JSON_parse := demo_JSON_parse |}.

(** A file system with one text file and one directory. *)
Definition demo_fs : FileSystem :=
  fun path =>
    if String.eqb path "notes.txt"
    then Some (mkFile (mkStats 11 1000) (inr "hello world"))
    else if String.eqb path "src"
    then Some (mkFile (mkStats 4096 2000)
                 (inl "EISDIR: illegal operation on a directory, read"))
    else None.

(** ** Vocabulary of the further properties *)

(** The matcher said yes (and did not throw). *)
Definition matched (r : string + bool) : bool :=
  match r with
  | inr true => true
  | _ => false
  end.

(** An expectation the matcher reads as a regular expression. *)
Definition regex_shaped (e : string) : bool :=
  Js.startsWith e "/" && Js.endsWith e "/".

(** An expectation that is neither omitted, nor a text, nor a [String]
    object: a number, a boolean, [null], or an object that has none of
    the methods of a text. *)
Definition not_textual (v : Js.value) : bool :=
  match v with
  | Js.Undefined | Js.Str _ | Js.StrObj _ _ => false
  | _ => true
  end.

(** What [execute] never assigns in a step: identity, name, description,
    dependencies and definition. *)
Definition skeleton {W} (x : Step W)
  : string * string * option string * option (list string)
    * StepDefinition W :=
  (step_id x, step_name x, step_description x, step_dependencies x,
   step_definition x).

(** The step collection without what [execute] assigns: the keys in
    insertion order, each with the skeleton of its step. *)
Definition outline {W} (m : JsMap.t (Step W)) :=
  List.map (fun kx => (fst kx, skeleton (snd kx))) m.

(** The events emitted between the first and the last one. *)
Definition inner_event (e : Event) : Prop :=
  match e with
  | EvStart _ _ | EvComplete _ => False
  | _ => True
  end.

(** One assignment made by [execute] on its way. *)
Inductive update {W} : State W -> State W -> Prop :=
| up_emit e st : inner_event e -> update st (emit e st)
| up_note o st : update st (note o st)
| up_push_log r st : update st (push_log r st)
| up_with_world w st : update st (with_world w st)
| up_with_status st : update st (with_status intent_failed st)
| up_mutate k f st :
    (forall x, skeleton (f x) = skeleton x) -> update st (mutate k f st).

Inductive reaches {W} (a : State W) : State W -> Prop :=
| reaches_refl : reaches a a
| reaches_step b c : reaches a b -> update b c -> reaches a c.

(** Intents as the builder methods make them. *)
Inductive Built {W} : Intent W -> Prop :=
| built_new rnd goal opts : Built (new_Intent rnd goal opts)
| built_requires chk e I : Built I -> Built (requires chk e I)
| built_ensures chk e I : Built I -> Built (ensures chk e I)
| built_invariant chk e I : Built I -> Built (invariant chk e I)
| built_step rnd name d I : Built I -> Built (step rnd name d I).

(** Every identity in [stepOrder] is a key of [steps]. *)
Definition covered {W} (I : Intent W) : Prop :=
  forall k, In k (stepOrder I) -> JsMap.get k (steps I) <> None.

(** The verdicts an observation adds to the verification log. *)
Definition logged (o : Obs) : list bool :=
  match o with
  | ObsCheck (PhasePre | PhasePost) _ ok => [ok]
  | ObsVerify _ (Some ok) => [ok]
  | _ => []
  end.

Definition log_of (t : list Obs) : list bool := List.flat_map logged t.

(** The state in which [execute] leaves its phases; the success path then
    adds the status [completed] and the event [complete]. *)
Definition last_inner_state {W} {host : Host W} (I : Intent W) (w : W)
  : State W :=
  flow_state
    (and_then (preconditions_phase I (initial_state I w))
       (fun st => and_then (steps_phase I st) (postconditions_phase I))).

(** The log holds the verdicts the ghost record says it should. *)
Definition log_agrees {W} (st : State W) : Prop :=
  List.map success (st_log st) = log_of (st_trace st).

Definition not_a_precondition (o : Obs) : Prop :=
  forall c ok, o <> ObsCheck PhasePre c ok.

(** *** What [FileVerifier] accepts, said without the code *)

Section FileVocabulary.
Context {runtime : Runtime}.

(** The size is not below [min] and not above [max], for the bounds that
    are given. *)
Definition size_within (stats : Stats) (c : FileChecks) : Prop :=
  forall bounds, fc_size c = Some bounds ->
    (forall lo, size_min bounds = Some lo ->
                Js.num_lt (Js.Fin (stat_size stats)) lo = false)
    /\ (forall hi, size_max bounds = Some hi ->
                   Js.num_gt (Js.Fin (stat_size stats)) hi = false).

(** The modification time is not before [after] and not after [before]. *)
Definition time_within (stats : Stats) (c : FileChecks) : Prop :=
  forall bounds, fc_modified c = Some bounds ->
    (forall t, time_after bounds = Some t ->
               Js.num_lt (Js.Fin (stat_mtime stats)) t = false)
    /\ (forall t, time_before bounds = Some t ->
                  Js.num_gt (Js.Fin (stat_mtime stats)) t = false).

(** The content has to be read. *)
Definition reads_content (c : FileChecks) : bool :=
  contains_given c
  || match fc_matches c with Some _ => true | None => false end.

(** The terms the content has to contain. *)
Definition required_terms (c : FileChecks) : list string :=
  if contains_given c
  then match fc_contains c with
       | Some given => searchTerms given
       | None => []
       end
  else [].

(** The content, where it has to be read, can be read, contains every
    term and is accepted by the pattern. *)
Definition content_accepted (node : FileNode) (c : FileChecks) : Prop :=
  reads_content c = true ->
  exists text,
    file_read node = inr text
    /\ (forall term, In term (required_terms c) ->
                     Js.includes text term = true)
    /\ (forall re, fc_matches c = Some re -> re_test re text = true).

(** The evidence line of a term that was found. *)
Definition contains_line (term : string) : string :=
  "Contains: " ++ quote ++ term ++ quote.

(** The evidence of a passed verification. *)
Definition passing_evidence (stats : Stats) (c : FileChecks) : list string :=
  ("File size: " ++ Number_toString (Js.Fin (stat_size stats)) ++ " bytes")
    :: List.map contains_line (required_terms c).

End FileVocabulary.

(** A shell that also knows [test -f], answered from [demo_fs]: it prints
    nothing and exits zero for a regular file, non-zero otherwise. *)
Definition file_execSync (cmd : string) (o : ExecOptions) (w : DemoWorld)
  : ExecOutcome * DemoWorld :=
  if Js.startsWith cmd "test -f " then
    let w' := (w ++ [cmd])%list in
    match demo_fs (Js.slice_from 8 cmd) with
    | Some (mkFile _ (inr _)) => (ExecReturns "", w')
    | _ => (ExecThrows ("Command failed: " ++ cmd), w')
    end
  else demo_execSync cmd o w.

Definition file_shell : Host DemoWorld :=
  {| execSync := file_execSync; RegExp_new := demo_RegExp_new |}.

(** The file names [ensureFilesCreated] reads as something else than a
    text to find in the output. *)
Definition reserved_file_names : list string :=
  ["false"; "exit 0"; "success"; "contains:"; ""; "fails"; "error"].

(** A precondition whose command exits non-zero, then one step. *)
Definition blocked_intent : Intent DemoWorld :=
  step "a1" "first" (command_step "true" Js.Undefined)
    (requires (ArgString "false") (Js.Str "exit 0")
       (new_Intent "id" "goal" no_options)).

(** Two steps, the first depending on the second. *)
Definition forward_intent : Intent DemoWorld :=
  step "b2" "second" (command_step "true" Js.Undefined)
    (step "a1" "first"
       (mkDefinition None (Some ["b2"]) None (VerifyString "true")
          Js.Undefined)
       (new_Intent "id" "goal" no_options)).

(** The file has to be there, hold one byte at least and contain
    "hello". *)
Definition hello_checks : FileChecks :=
  mkFileChecks (Some true) (Some (inl "hello")) None
    (Some (mkSizeBounds (Some (Js.Fin 1)) None)) None.

(** The file has to be absent. *)
Definition absent_checks : FileChecks :=
  mkFileChecks (Some false) None None None None.

(** *** Intents that cannot make [execute] throw *)

(** A function that, whatever the world, does not throw [null] or
    [undefined]. *)
Definition never_throws_nullish {W} (f : W -> CallOutcome * W) : Prop :=
  forall w,
    fst (f w) <> Throws ThrownNull /\ fst (f w) <> Throws ThrownUndefined.

(** A contract check whose [check] member is there, and whose predicate,
    if that is what it is, does not throw [null] or [undefined]. *)
Definition sound_check {W} (c : VerificationCheck W) : Prop :=
  match check c with
  | CheckFunction fn => never_throws_nullish fn
  | CheckCommand _ | CheckOther => True
  | CheckNullish _ => False
  end.

(** No action of a step throws [null] or [undefined]. *)
Definition tame_steps {W} (m : JsMap.t (Step W)) : Prop :=
  forall k s act,
    JsMap.get k m = Some s ->
    def_action (step_definition s) = Some act ->
    never_throws_nullish act.

(** Every contract check is sound, and no action throws [null] or
    [undefined]. *)
Definition tame {W} (I : Intent W) : Prop :=
  Forall sound_check (or_default (preconditions (contract I)) [])
  /\ Forall sound_check (or_default (postconditions (contract I)) [])
  /\ Forall sound_check (or_default (invariants (contract I)) [])
  /\ tame_steps (steps I).

(** A [return] inside [execute] gives a reason, unless it follows an
    action that threw a value without a message. *)
Definition reason_given {W} (f : Flow W) : Prop :=
  match f with
  | Return r st =>
      (exists reason, res_failureReason r = Some reason)
      \/ (res_failureReason r = None
          /\ exists k t,
               st_trace st
               = (t ++ [ObsAction k false; ObsStatus k failed])%list)
  | _ => True
  end.

(** * Properties *)

Section Properties.
Context {W : Type} {host : Host W}.

(** ** The expectation matcher *)

Lemma comparator_shape (operator : ascii) (digits : string) :
  (operator = ">" \/ operator = "<" \/ operator = "=")%char ->
  digits <> "" ->
  List.forallb Js.is_digit (list_ascii_of_string digits) = true ->
  is_comparator (String operator digits) = true.
Proof.
  intros Hop Hne Hdig. unfold is_comparator. rewrite Hdig.
  destruct (String.eqb_spec digits "") as [E | _]; [contradiction |].
  destruct Hop as [-> | [-> | ->]]; reflexivity.
Qed.

(** C8.  An expected value made of a comparator character and digits is
    compared numerically with [parseInt] of the output, and does not match
    when that is [NaN]; output "5" passes ">3" and fails ">10"; ">abc" is
    no comparator and ends in the substring rule. *)
Theorem C8_numeric_comparator :
  (forall (operator : ascii) (digits output : string),
      (operator = ">" \/ operator = "<" \/ operator = "=")%char ->
      digits <> "" ->
      List.forallb Js.is_digit (list_ascii_of_string digits) = true ->
      checkExpectation output (String operator digits)
      = inr (negb (Js.isNaN (Js.parseInt output))
             && compare_with operator (Js.parseInt output)
                  (Js.parseInt digits)))
  /\ checkExpectation "5" ">3" = inr true
  /\ checkExpectation "5" ">10" = inr false
  /\ is_comparator ">abc" = false
  /\ (forall output : string,
         checkExpectation output ">abc" = inr (Js.includes output ">abc")).
Proof.
  split; [| repeat split].
  intros operator digits output Hop Hne Hdig.
  pose proof (comparator_shape operator digits Hop Hne Hdig) as Hcmp.
  unfold checkExpectation. rewrite Hcmp.
  assert (Hslash : Js.startsWith (String operator digits) "/" = false).
  { destruct Hop as [-> | [-> | ->]]; reflexivity. }
  rewrite Hslash. cbn [andb Js.slice_from String.get].
  destruct (Js.isNaN (Js.parseInt output)); [reflexivity |].
  destruct Hop as [-> | [-> | ->]]; reflexivity.
Qed.

(** ** The command backend *)

Lemma strict_eq_Str (v : Js.value) (s : string) :
  Js.strict_eq v (Js.Str s) = true <-> v = Js.Str s.
Proof.
  destruct v; simpl; try (split; [discriminate | discriminate]).
  rewrite String.eqb_eq. split; [intros -> | intros [= ->]]; reflexivity.
Qed.

Lemma command_failed_success (err : string) (expected : Js.value) :
  success (command_failed err expected) = true
  <-> expected = Js.Str "fails" \/ expected = Js.Str "error".
Proof.
  unfold command_failed.
  rewrite <- !strict_eq_Str, <- Bool.orb_true_iff.
  destruct (_ || _); simpl; split; congruence.
Qed.

Lemma command_failed_message (err : string) (expected : Js.value) :
  success (command_failed err expected) = false ->
  message (command_failed err expected) = "Command failed: " ++ err.
Proof.
  unfold command_failed. destruct (_ || _); simpl; [discriminate | reflexivity].
Qed.

Lemma CommandVerifier_verify_throws cmd expected (w w' : W) err :
  execSync (fst (exec_request cmd)) (snd (exec_request cmd)) w
  = (ExecThrows err, w') ->
  CommandVerifier_verify cmd expected w = (command_failed err expected, w').
Proof.
  unfold CommandVerifier_verify. destruct (exec_request cmd) as [text opts].
  simpl. intros ->. reflexivity.
Qed.

(** C4.  When [execSync] throws, the command backend succeeds exactly for
    the expected values "fails" and "error", and otherwise fails with a
    message that carries the error; a precondition expecting "fails" on
    such a command passes and [execute] goes on with the step phase. *)
Theorem C4_command_failure
  (cmd : string + VerificationCommand) (expected : Js.value)
  (w w' : W) (err : string) :
  execSync (fst (exec_request cmd)) (snd (exec_request cmd)) w
  = (ExecThrows err, w') ->
  let r := fst (CommandVerifier_verify cmd expected w) in
  (success r = true
   <-> expected = Js.Str "fails" \/ expected = Js.Str "error")
  /\ (success r = false -> message r = "Command failed: " ++ err)
  /\ (forall (I : Intent W) (c : VerificationCommand) name crit,
         cmd = inr c ->
         preconditions (contract I)
         = Some [mkCheck name (CheckCommand c) (Js.Str "fails") crit] ->
         exists st1,
           preconditions_phase I (initial_state I w) = Next st1
           /\ st_log st1
              = [createResult true "Command failed as expected"
                   (Js.Str err) (Js.Str "fails")]
           /\ st_world st1 = w'
           /\ execute I w
              = finish (and_then (steps_phase I st1)
                          (postconditions_phase I))).
Proof.
  intros Hexec r. subst r.
  rewrite (CommandVerifier_verify_throws _ expected _ _ _ Hexec). simpl.
  split; [apply command_failed_success |].
  split; [apply command_failed_message |].
  intros I c name crit -> Hpre.
  unfold execute, preconditions_phase. rewrite Hpre.
  cbn [check_conditions verifyCheck check expect critical].
  cbn [st_world emit with_world initial_state].
  rewrite (CommandVerifier_verify_throws _ (Js.Str "fails") _ _ _ Hexec).
  cbn. eexists. repeat split.
Qed.

(** ** The predicate backend *)

Lemma FunctionVerifier_verify_returns (fn : VerificationFunction W)
  (expected result : Js.value) (w w' : W) :
  fn w = (Returns result, w') ->
  exists r,
    FunctionVerifier_verify fn expected w = (inr r, w')
    /\ success r
       = Js.strict_eq result
           (if is_undefined expected then Js.Bool true else expected).
Proof.
  intros Hfn. unfold FunctionVerifier_verify. rewrite Hfn.
  destruct expected; eexists; split; reflexivity.
Qed.

Lemma FunctionVerifier_verify_throws (fn : VerificationFunction W)
  (expected : Js.value) (error : Thrown) (w w' : W) :
  fn w = (Throws error, w') ->
  FunctionVerifier_verify fn expected w
  = match read_message error with
    | inr m =>
        (inr (createResult false
                ("Function threw error: " ++ template_text m)
                (message_value m)
                (if is_undefined expected then Js.Bool true else expected)),
         w')
    | inl type_error => (inl type_error, w')
    end.
Proof.
  intros Hfn. unfold FunctionVerifier_verify. rewrite Hfn. reflexivity.
Qed.

(** ** Bookkeeping: maps, histories, and the ghost record *)

Lemma get_adjust {V} (f : V -> V) (k k' : string) (m : JsMap.t V) :
  JsMap.get k (JsMap.adjust f k' m)
  = if String.eqb k k' then option_map f (JsMap.get k m) else JsMap.get k m.
Proof.
  induction m as [| [k0 v] m IH]; simpl.
  - destruct (String.eqb k k'); reflexivity.
  - destruct (String.eqb_spec k' k0) as [-> | Hne]; simpl.
    + destruct (String.eqb k k0); reflexivity.
    + rewrite IH. destruct (String.eqb_spec k k0) as [-> | Hne']; simpl.
      * destruct (String.eqb_spec k0 k'); [congruence | reflexivity].
      * reflexivity.
Qed.

Lemma last_cons {A} (a d : A) (l : list A) :
  List.last (a :: l) d = List.last l a.
Proof.
  revert a d. induction l as [| b l IH]; intros a d; [reflexivity |].
  change (List.last (a :: b :: l) d) with (List.last (b :: l) d).
  rewrite !IH. reflexivity.
Qed.

Lemma last_app {A} (l l' : list A) (d : A) :
  List.last (l ++ l') d = List.last l' (List.last l d).
Proof.
  revert d. induction l as [| a l IH]; intros d; [reflexivity |].
  rewrite <- app_comm_cons, !last_cons. apply IH.
Qed.

Lemma writes_app (k : string) (t t' : list Obs) :
  writes k (t ++ t') = (writes k t ++ writes k t')%list.
Proof. apply flat_map_app. Qed.

Lemma status_of_adjust (f : Step W -> Step W) (k k' : string) m :
  (forall x, step_status (f x) = step_status x) ->
  status_of k (JsMap.adjust f k' m) = status_of k m.
Proof.
  intros Hf. unfold status_of. rewrite get_adjust.
  destruct (String.eqb k k'); [| reflexivity].
  destruct (JsMap.get k m); simpl; [rewrite Hf |]; reflexivity.
Qed.

Lemma status_of_assign (s : StepStatus) (k k' : string) (m : JsMap.t (Step W)) :
  status_of k (JsMap.adjust (assign_status s) k' m)
  = option_map (List.last (status_written k (ObsStatus k' s)))
      (status_of k m).
Proof.
  unfold status_of. rewrite get_adjust. simpl.
  rewrite (String.eqb_sym k' k).
  destruct (String.eqb k k'); destruct (JsMap.get k m); reflexivity.
Qed.

Lemma tracks_refl (st : State W) : tracks st st [].
Proof.
  split; [symmetry; apply app_nil_r |].
  intros k. simpl. destruct (status_of k (st_steps st)); reflexivity.
Qed.

Lemma tracks_trans (a b c : State W) (t t' : list Obs) :
  tracks a b t -> tracks b c t' -> tracks a c (t ++ t').
Proof.
  intros [Ht Hs] [Ht' Hs']. split.
  - rewrite Ht', Ht. symmetry. apply app_assoc.
  - intros k. rewrite Hs', Hs, writes_app.
    destruct (status_of k (st_steps a)); simpl; [| reflexivity].
    rewrite last_app. reflexivity.
Qed.

Lemma tracks_same (a b c : State W) (t : list Obs) :
  tracks a b t -> st_trace c = st_trace b -> st_steps c = st_steps b ->
  tracks a c t.
Proof. intros [Ht Hs] Hc Hm. split; [congruence |]. rewrite Hm. exact Hs. Qed.

Lemma tracks_emit e (a b : State W) t : tracks a b t -> tracks a (emit e b) t.
Proof. intros H. eapply tracks_same; [exact H | |]; reflexivity. Qed.

Lemma tracks_push_log r (a b : State W) t :
  tracks a b t -> tracks a (push_log r b) t.
Proof. intros H. eapply tracks_same; [exact H | |]; reflexivity. Qed.

Lemma tracks_with_world w (a b : State W) t :
  tracks a b t -> tracks a (with_world w b) t.
Proof. intros H. eapply tracks_same; [exact H | |]; reflexivity. Qed.

Lemma tracks_with_status s (a b : State W) t :
  tracks a b t -> tracks a (with_status s b) t.
Proof. intros H. eapply tracks_same; [exact H | |]; reflexivity. Qed.

Lemma tracks_mutate k f (a b : State W) t :
  (forall x, step_status (f x) = step_status x) ->
  tracks a b t -> tracks a (mutate k f b) t.
Proof.
  intros Hf [Ht Hs]. split; [exact Ht |].
  intros k'. simpl. rewrite status_of_adjust by exact Hf. apply Hs.
Qed.

Lemma tracks_note o (a b : State W) t :
  (forall k, status_written k o = []) ->
  tracks a b t -> tracks a (note o b) (t ++ [o]).
Proof.
  intros Ho H. eapply tracks_trans; [exact H |].
  split; [reflexivity |]. intros k. simpl. rewrite Ho. simpl.
  destruct (status_of k (st_steps b)); reflexivity.
Qed.

Lemma tracks_set_step_status k s (a b : State W) t :
  tracks a b t -> tracks a (set_step_status k s b) (t ++ [ObsStatus k s]).
Proof.
  intros H. eapply tracks_trans; [exact H |].
  split; [reflexivity |]. intros k'. simpl.
  rewrite status_of_assign. simpl. rewrite app_nil_r. reflexivity.
Qed.

(** Goals [tracks st (f1 (f2 ... st)) ?t] over the state updates of the
    engine. *)
Ltac tracks_chain :=
  repeat first
    [ eassumption
    | apply tracks_refl
    | apply tracks_emit
    | apply tracks_push_log
    | apply tracks_with_world
    | apply tracks_with_status
    | apply tracks_set_step_status
    | apply tracks_mutate; [intros; reflexivity |]
    | apply tracks_note; [intros; reflexivity |] ].

(** ** The ghost record has the declared shape *)

Lemma check_invariants_sound before k name invs : forall st : State W,
  exists t,
    tracks st (flow_state (check_invariants before k name invs st)) t
    /\ invariants_trace before k t
         (exit_of (check_invariants before k name invs st)).
Proof.
  induction invs as [| inv invs IH]; intros st; simpl.
  - exists []. split; [apply tracks_refl | constructor].
  - destruct (verifyCheck inv (st_world st)) as [[err | r] w'];
      [exists []; split; [tracks_chain | apply it_threw] |].
    destruct (success r); simpl.
    + match goal with
      | |- context [check_invariants _ _ _ _ ?s] =>
          destruct (IH s) as (t & Ht & Hg)
      end.
      eexists. split.
      * eapply tracks_trans; [| exact Ht]. tracks_chain.
      * simpl. apply it_pass. exact Hg.
    + destruct before; simpl; eexists; (split; [tracks_chain |]);
        simpl; apply it_fail.
Qed.

Lemma check_conditions_sound ph label cs : forall st : State W,
  exists t,
    tracks st (flow_state (check_conditions ph label cs st)) t
    /\ conditions_trace ph t (exit_of (check_conditions ph label cs st)).
Proof.
  induction cs as [| c cs IH]; intros st; simpl.
  - exists []. split; [apply tracks_refl | constructor].
  - destruct (verifyCheck c (st_world st)) as [[err | r] w'];
      [exists []; split; [tracks_chain | apply ct_threw] |].
    destruct (success r) eqn:Hok; simpl.
    + match goal with
      | |- context [check_conditions _ _ _ ?s] =>
          destruct (IH s) as (t & Ht & Hg)
      end.
      eexists. split.
      * eapply tracks_trans; [| exact Ht]. tracks_chain.
      * simpl. apply ct_pass. exact Hg.
    + destruct (critical c) as [[|] |] eqn:Hc; simpl.
      * eexists. split; [tracks_chain |]. simpl. apply ct_fail. discriminate.
      * match goal with
        | |- context [check_conditions _ _ _ ?s] =>
            destruct (IH s) as (t & Ht & Hg)
        end.
        eexists. split.
        -- eapply tracks_trans; [| exact Ht]. tracks_chain.
        -- simpl. apply ct_tolerated. exact Hg.
      * eexists. split; [tracks_chain |]. simpl. apply ct_fail. discriminate.
Qed.

Lemma attempt_sound k d (st st' : State W) outcome :
  attempt k d st = (outcome, st') ->
  exists t,
    tracks st st' t /\ attempt_trace k t (verdict outcome)
    /\ (crashes outcome = true -> t = [ObsAction k false]).
Proof.
  unfold attempt.
  destruct (def_action d) as [act |].
  - destruct (act (st_world st)) as [[v | err] w1].
    + destruct (verifyStep d _) as [[err | r] w2]; intros [= <- <-];
        (eexists; split; [tracks_chain |]); simpl;
        (split; [apply at_action | discriminate]).
    + intros [= <- <-]. eexists. split; [tracks_chain |]. simpl.
      split; [apply at_threw | reflexivity].
  - destruct (verifyStep d _) as [[err | r] w2]; intros [= <- <-];
      (eexists; split; [tracks_chain |]); simpl;
      (split; [apply at_verify | discriminate]).
Qed.

Lemma settle_attempt_sound I k name outcome (st : State W) :
  let F := settle_attempt I k name outcome st in
  if match verdict outcome with Some true => true | _ => false end
  then tracks st (flow_state F) [ObsStatus k completed] /\ exit_of F = ExitNext
  else tracks st (flow_state F) [ObsStatus k failed]
       /\ exit_of F = if crashes outcome then ExitReject
                      else if enabled (o_stopOnFailure (options I))
                           then ExitReturn
                           else ExitNext.
Proof.
  destruct outcome as [err | r]; simpl.
  - destruct (read_message err) as [type_error | m];
      [| destruct (enabled (o_stopOnFailure (options I)))]; simpl;
      (split; [| reflexivity]);
      change [ObsStatus k failed] with ([] ++ [ObsStatus k failed])%list;
      tracks_chain.
  - destruct (success r); simpl.
    + split; [| reflexivity].
      change [ObsStatus k completed] with ([] ++ [ObsStatus k completed])%list.
      tracks_chain.
    + destruct (enabled (o_stopOnFailure (options I))); simpl;
        (split; [| reflexivity]);
        change [ObsStatus k failed] with ([] ++ [ObsStatus k failed])%list;
        tracks_chain.
Qed.

Lemma invariants_phase_sound I before k name (st : State W) :
  exists t,
    tracks st (flow_state (invariants_phase I before k name st)) t
    /\ invariants_trace before k t
         (exit_of (invariants_phase I before k name st)).
Proof.
  unfold invariants_phase. destruct (invariants (contract I)) as [invs |].
  - apply check_invariants_sound.
  - exists []. split; [apply tracks_refl | constructor].
Qed.

Ltac regroup H := repeat rewrite <- app_assoc in H; simpl in H.

Lemma run_step_sound I k (st : State W) :
  exists t,
    tracks st (flow_state (run_step I k st)) t
    /\ step_trace (enabled (o_stopOnFailure (options I))) k t
         (exit_of (run_step I k st)).
Proof.
  unfold run_step.
  destruct (JsMap.get k (st_steps st)) as [s |];
    [| exists []; split; [apply tracks_refl | constructor]].
  destruct (has_unmet_dependencies s (st_steps st)).
  { eexists. split; [tracks_chain |]. simpl. apply st_skipped. }
  destruct (invariants_phase_sound I true k (step_name s) st)
    as (t0 & Ht0 & Hg0).
  destruct (invariants_phase I true k (step_name s) st)
    as [st1 | r st1 | err st1]; simpl in *;
    [| exists t0; split; [exact Ht0 | apply st_invariant; exact Hg0]
     | exists t0; split; [exact Ht0 | apply st_before_threw; exact Hg0] ].
  match goal with
  | |- context [attempt k ?d ?s0] =>
      destruct (attempt k d s0) as [outcome st2] eqn:Ea;
      assert (Hrun : tracks st s0 (t0 ++ [ObsStatus k running]))
        by tracks_chain
  end.
  destruct (attempt_sound _ _ _ _ _ Ea) as (ta & Hta & Hga & Hcrash).
  pose proof (tracks_trans _ _ _ _ _ Hrun Hta) as Hup.
  pose proof (settle_attempt_sound I k (step_name s) outcome st2) as Hs.
  simpl in Hs.
  assert (Hcases :
    verdict outcome = Some true \/ verdict outcome <> Some true)
    by (destruct (verdict outcome) as [[|] |];
        [left; reflexivity | right; discriminate | right; discriminate]).
  destruct Hcases as [Hv | Hv].
  - rewrite Hv in Hs, Hga. destruct Hs as [Hts He].
    destruct (settle_attempt I k (step_name s) outcome st2)
      as [st3 | r st3 | err st3]; simpl in *; try discriminate.
    destruct (invariants_phase_sound I false k (step_name s) st3)
      as (t1 & Ht1 & Hg1).
    pose proof (tracks_trans _ _ _ _ _ (tracks_trans _ _ _ _ _ Hup Hts) Ht1)
      as Hall.
    regroup Hall. eexists. split; [exact Hall |].
    apply st_completed; assumption.
  - assert (Hfail : match verdict outcome with
                    | Some true => true
                    | _ => false
                    end = false)
      by (destruct (verdict outcome) as [[|] |]; congruence).
    rewrite Hfail in Hs. destruct Hs as [Hts He].
    pose proof (tracks_trans _ _ _ _ _ Hup Hts) as Hdown.
    destruct (crashes outcome) eqn:Hcr.
    { rewrite (Hcrash eq_refl) in Hdown.
      destruct (settle_attempt I k (step_name s) outcome st2)
        as [st3 | r st3 | err st3]; simpl in *; try discriminate.
      regroup Hdown. eexists. split; [exact Hdown |].
      apply st_crashed. assumption. }
    destruct (enabled (o_stopOnFailure (options I))) eqn:Hstop;
      destruct (settle_attempt I k (step_name s) outcome st2)
        as [st3 | r st3 | err st3]; simpl in *; try discriminate.
    + regroup Hdown. eexists. split; [exact Hdown |].
      eapply st_failed_stop; eauto.
    + destruct (invariants_phase_sound I false k (step_name s) st3)
        as (t1 & Ht1 & Hg1).
      pose proof (tracks_trans _ _ _ _ _ Hdown Ht1) as Hall.
      regroup Hall. eexists. split; [exact Hall |].
      eapply st_failed_on; eauto.
Qed.

Lemma run_steps_sound I ids : forall st : State W,
  exists t,
    tracks st (flow_state (run_steps I ids st)) t
    /\ steps_trace (enabled (o_stopOnFailure (options I))) ids t
         (exit_of (run_steps I ids st)).
Proof.
  induction ids as [| k ids IH]; intros st; simpl.
  - exists []. split; [apply tracks_refl | constructor].
  - destruct (run_step_sound I k st) as (t & Ht & Hg).
    destruct (run_step I k st) as [st1 | r st1 | err st1]; simpl in *.
    + destruct (IH st1) as (t' & Ht' & Hg').
      exists (t ++ t')%list. split.
      * eapply tracks_trans; eassumption.
      * eapply sts_next; eassumption.
    + exists t. split; [exact Ht |]. apply sts_halt; [discriminate | exact Hg].
    + exists t. split; [exact Ht |]. apply sts_halt; [discriminate | exact Hg].
Qed.

(** *** Every [return] is a failure *)

Lemma check_conditions_returns ph label cs : forall st : State W,
  returns_failure (check_conditions ph label cs st).
Proof.
  induction cs as [| c cs IH]; intros st; simpl; [exact I |].
  destruct (verifyCheck c (st_world st)) as [[err | r] w']; [exact I |].
  destruct (negb (success r) && _); [| apply IH].
  simpl. split; [reflexivity |]. eexists. eexists. reflexivity.
Qed.

Lemma check_invariants_returns before k name invs : forall st : State W,
  returns_failure (check_invariants before k name invs st).
Proof.
  induction invs as [| c cs IH]; intros st; simpl; [exact I |].
  destruct (verifyCheck c (st_world st)) as [[err | r] w']; [exact I |].
  destruct (negb (success r)); [| apply IH].
  simpl. split; [destruct before; reflexivity |].
  eexists. eexists. reflexivity.
Qed.

Lemma invariants_phase_returns I before k name (st : State W) :
  returns_failure (invariants_phase I before k name st).
Proof.
  unfold invariants_phase. destruct (invariants (contract I)).
  - apply check_invariants_returns.
  - exact Logic.I.
Qed.

Lemma settle_attempt_returns I k name outcome (st : State W) :
  returns_failure (settle_attempt I k name outcome st).
Proof.
  destruct outcome as [err | r]; simpl.
  - destruct (read_message err) as [type_error | m]; [exact Logic.I |].
    destruct (enabled (o_stopOnFailure (options I))); simpl; [| exact Logic.I].
    split; [reflexivity |]. eexists. eexists. reflexivity.
  - destruct (success r); [exact Logic.I |].
    destruct (enabled (o_stopOnFailure (options I))); simpl; [| exact Logic.I].
    split; [reflexivity |]. eexists. eexists. reflexivity.
Qed.

Lemma and_then_returns (f : Flow W) (k : State W -> Flow W) :
  returns_failure f -> (forall st, returns_failure (k st)) ->
  returns_failure (and_then f k).
Proof. destruct f; simpl; auto. Qed.

Lemma run_step_returns I k (st : State W) : returns_failure (run_step I k st).
Proof.
  unfold run_step. destruct (JsMap.get k (st_steps st)); [| exact Logic.I].
  destruct (has_unmet_dependencies _ _); [exact Logic.I |].
  apply and_then_returns; [apply invariants_phase_returns |].
  intros st1. destruct (attempt _ _ _) as [outcome st2].
  apply and_then_returns;
    [apply settle_attempt_returns | intros; apply invariants_phase_returns].
Qed.

Lemma run_steps_returns I ids : forall st : State W,
  returns_failure (run_steps I ids st).
Proof.
  induction ids as [| k ids IH]; intros st; simpl; [exact Logic.I |].
  apply and_then_returns; [apply run_step_returns | exact IH].
Qed.

Lemma preconditions_phase_sound I (st : State W) :
  exists t,
    tracks st (flow_state (preconditions_phase I st)) t
    /\ conditions_trace PhasePre t (exit_of (preconditions_phase I st)).
Proof.
  unfold preconditions_phase. destruct (preconditions (contract I)).
  - match goal with
    | |- context [check_conditions ?p ?l ?c ?s] =>
        destruct (check_conditions_sound p l c s) as (t & Ht & Hg)
    end.
    exists t. split; [| exact Hg].
    destruct Ht as [Ht Hs]. split; assumption.
  - exists []. split; [apply tracks_refl | constructor].
Qed.

Lemma postconditions_phase_sound I (st : State W) :
  exists t,
    tracks st (flow_state (postconditions_phase I st)) t
    /\ conditions_trace PhasePost t (exit_of (postconditions_phase I st)).
Proof.
  unfold postconditions_phase. destruct (postconditions (contract I)).
  - match goal with
    | |- context [check_conditions ?p ?l ?c ?s] =>
        destruct (check_conditions_sound p l c s) as (t & Ht & Hg)
    end.
    exists t. split; [| exact Hg].
    destruct Ht as [Ht Hs]. split; assumption.
  - exists []. split; [apply tracks_refl | constructor].
Qed.

Lemma steps_phase_sound I (st : State W) :
  exists t,
    tracks st (flow_state (steps_phase I st)) t
    /\ steps_trace (enabled (o_stopOnFailure (options I))) (stepOrder I) t
         (exit_of (steps_phase I st)).
Proof.
  unfold steps_phase.
  match goal with
  | |- context [run_steps I ?ids ?s] =>
      destruct (run_steps_sound I ids s) as (t & Ht & Hg)
  end.
  exists t. split; [| exact Hg]. destruct Ht as [Ht Hs]. split; assumption.
Qed.

Lemma preconditions_phase_returns I (st : State W) :
  returns_failure (preconditions_phase I st).
Proof.
  unfold preconditions_phase. destruct (preconditions (contract I));
    [apply check_conditions_returns | exact Logic.I].
Qed.

Lemma postconditions_phase_returns I (st : State W) :
  returns_failure (postconditions_phase I st).
Proof.
  unfold postconditions_phase. destruct (postconditions (contract I));
    [apply check_conditions_returns | exact Logic.I].
Qed.

(** The whole of [execute]: its ghost record starts empty and has the
    shape of a run; the promise resolves with [success = true] exactly
    when no phase returned. *)
Lemma execute_sound I (w : W) :
  exists t,
    tracks (initial_state I w) (final_state (execute I w)) t
    /\ st_trace (final_state (execute I w)) = t
    /\ run_trace (enabled (o_stopOnFailure (options I))) (stepOrder I) t
         (completion_exit (execute I w)).
Proof.
  unfold execute.
  destruct (preconditions_phase_sound I (initial_state I w))
    as (tp & Htp & Hgp).
  pose proof (preconditions_phase_returns I (initial_state I w)) as Hrp.
  destruct (preconditions_phase I (initial_state I w))
    as [st1 | r st1 | err st1]; simpl in *.
  - destruct (steps_phase_sound I st1) as (ts & Hts & Hgs).
    pose proof (run_steps_returns I (stepOrder I)
                  (emit (EvPhase "execution") st1)) as Hrs.
    fold (steps_phase I st1) in Hrs.
    destruct (steps_phase I st1) as [st2 | r st2 | err st2]; simpl in *.
    + destruct (postconditions_phase_sound I st2) as (tq & Htq & Hgq).
      pose proof (postconditions_phase_returns I st2) as Hrq.
      pose proof (tracks_trans _ _ _ _ _ (tracks_trans _ _ _ _ _ Htp Hts) Htq)
        as Hall.
      rewrite <- app_assoc in Hall.
      destruct (postconditions_phase I st2) as [st3 | r st3 | err st3];
        simpl in *.
      * exists (tp ++ ts ++ tq)%list. split; [tracks_chain |].
        split; [destruct Hall as [-> _]; reflexivity |].
        apply rt_post; assumption.
      * destruct Hrq as (_ & l & m & ->). simpl.
        exists (tp ++ ts ++ tq)%list. split; [exact Hall |].
        split; [destruct Hall as [-> _]; reflexivity |].
        apply rt_post; assumption.
      * exists (tp ++ ts ++ tq)%list. split; [exact Hall |].
        split; [destruct Hall as [-> _]; reflexivity |].
        apply rt_post; assumption.
    + destruct Hrs as (_ & l & m & ->). simpl.
      pose proof (tracks_trans _ _ _ _ _ Htp Hts) as Hall.
      exists (tp ++ ts)%list. split; [exact Hall |].
      split; [destruct Hall as [-> _]; reflexivity |].
      apply rt_steps; [discriminate | assumption | assumption].
    + pose proof (tracks_trans _ _ _ _ _ Htp Hts) as Hall.
      exists (tp ++ ts)%list. split; [exact Hall |].
      split; [destruct Hall as [-> _]; reflexivity |].
      apply rt_steps; [discriminate | assumption | assumption].
  - destruct Hrp as (_ & l & m & ->). simpl.
    exists tp. split; [exact Htp |].
    split; [destruct Htp as [-> _]; reflexivity |].
    apply rt_pre; [discriminate | assumption].
  - exists tp. split; [exact Htp |].
    split; [destruct Htp as [-> _]; reflexivity |].
    apply rt_pre; [discriminate | assumption].
Qed.

(** ** What the shape of the ghost record implies *)

Lemma invariants_trace_about before k t e :
  invariants_trace before k t e -> Forall (about k) t.
Proof.
  induction 1.
  - constructor.
  - constructor; [destruct before; reflexivity | assumption].
  - destruct before; repeat constructor.
  - constructor.
Qed.

Lemma attempt_trace_about k t v : attempt_trace k t v -> Forall (about k) t.
Proof. destruct 1; repeat constructor. Qed.

Lemma step_trace_about stop k t e :
  step_trace stop k t e -> Forall (about k) t.
Proof.
  destruct 1;
    repeat match goal with
      | H : invariants_trace _ _ _ _ |- _ =>
          apply invariants_trace_about in H
      | H : attempt_trace _ _ _ |- _ => apply attempt_trace_about in H
      end;
    repeat first [ assumption
                 | apply Forall_app; split
                 | apply Forall_cons; [reflexivity |]
                 | apply Forall_nil ].
Qed.

Lemma steps_trace_about stop ids t e :
  steps_trace stop ids t e ->
  Forall (fun o => exists k, In k ids /\ about k o) t.
Proof.
  induction 1.
  - constructor.
  - apply Forall_app. split.
    + eapply Forall_impl; [| eapply step_trace_about; eassumption].
      intros o Ho. exists k. split; [left; reflexivity | exact Ho].
    + eapply Forall_impl; [| exact IHsteps_trace].
      intros o (k' & Hin & Ho). exists k'. split; [right |]; assumption.
  - eapply Forall_impl; [| eapply step_trace_about; eassumption].
    intros o Ho. exists k. split; [left; reflexivity | exact Ho].
Qed.

Lemma conditions_trace_plain ph t e :
  conditions_trace ph t e -> Forall (fun o => exists c ok, o = ObsCheck ph c ok) t.
Proof. induction 1; repeat constructor; eauto. Qed.

(** Observations about other steps write nothing to step [k]. *)
Lemma writes_nil k t :
  Forall (fun o => forall s, o <> ObsStatus k s) t -> writes k t = [].
Proof.
  induction 1 as [| o t Ho _ IH]; [reflexivity |].
  unfold writes in *. simpl. rewrite IH, app_nil_r.
  destruct o as [| | | k' s]; try reflexivity. simpl.
  destruct (String.eqb_spec k' k) as [-> | _]; [| reflexivity].
  exfalso. exact (Ho s eq_refl).
Qed.

Lemma writes_other k k' t :
  k <> k' -> Forall (about k') t -> writes k t = [].
Proof.
  intros Hne H. apply writes_nil. eapply Forall_impl; [| exact H].
  intros o Ho s ->. apply Hne. injection Ho. auto.
Qed.

Lemma writes_elsewhere k ids t :
  ~ In k ids -> Forall (fun o => exists k', In k' ids /\ about k' o) t ->
  writes k t = [].
Proof.
  intros Hnot H. apply writes_nil. eapply Forall_impl; [| exact H].
  intros o (k' & Hin & Ho) s ->. injection Ho as ->. contradiction.
Qed.

Lemma writes_conditions k ph t e :
  conditions_trace ph t e -> writes k t = [].
Proof.
  intros H. apply writes_nil.
  eapply Forall_impl; [| eapply conditions_trace_plain; exact H].
  intros o (c & ok & ->) s. discriminate.
Qed.

(** *** Fatal observations and the way a run ends *)

Lemma invariants_trace_next before k t :
  invariants_trace before k t ExitNext -> Forall nonfatal t.
Proof.
  intros H. remember ExitNext as e eqn:He.
  induction H; [constructor | | discriminate | discriminate].
  constructor; [destruct before; reflexivity | auto].
Qed.

Lemma invariants_trace_return before k t :
  invariants_trace before k t ExitReturn -> Exists (fun o => fatal o = true) t.
Proof.
  intros H. remember ExitReturn as e eqn:He.
  induction H; [discriminate | | | discriminate].
  - apply Exists_cons_tl. auto.
  - apply Exists_cons_hd. destruct before; reflexivity.
Qed.

Lemma conditions_trace_next ph t :
  ph = PhasePre \/ ph = PhasePost ->
  conditions_trace ph t ExitNext -> Forall nonfatal t.
Proof.
  intros Hph H. remember ExitNext as e eqn:He.
  induction H; [constructor | | | discriminate | discriminate];
    (constructor; [destruct Hph as [-> | ->]; try reflexivity | auto]).
  - destruct crit as [[|] |]; reflexivity.
  - destruct crit as [[|] |]; reflexivity.
Qed.

Lemma conditions_trace_return ph t :
  conditions_trace ph t ExitReturn -> Exists (fun o => fatal o = true) t.
Proof.
  intros H. remember ExitReturn as e eqn:He.
  induction H; [discriminate | | | | discriminate].
  - apply Exists_cons_tl. auto.
  - apply Exists_cons_tl. auto.
  - apply Exists_cons_hd.
    destruct ph; destruct crit as [[|] |]; try reflexivity; congruence.
Qed.

Lemma attempt_trace_passed k t :
  attempt_trace k t (Some true) -> Forall nonfatal t.
Proof. inversion 1; repeat constructor. Qed.

Lemma attempt_trace_failed k t v :
  attempt_trace k t v -> v <> Some true -> Exists (fun o => fatal o = true) t.
Proof.
  destruct 1; intros Hv.
  - apply Exists_cons_hd. destruct v as [[|] |]; [congruence | |]; reflexivity.
  - apply Exists_cons_tl, Exists_cons_hd.
    destruct v as [[|] |]; [congruence | |]; reflexivity.
  - apply Exists_cons_hd. reflexivity.
Qed.

Lemma step_trace_next k t :
  step_trace true k t ExitNext -> Forall nonfatal t.
Proof.
  inversion 1; subst; try discriminate.
  - repeat constructor.
  - apply Forall_app. split; [eapply invariants_trace_next; eassumption |].
    constructor; [reflexivity |]. apply Forall_app.
    split; [eapply attempt_trace_passed; eassumption |].
    constructor; [reflexivity |]. eapply invariants_trace_next; eassumption.
Qed.

Lemma step_trace_return stop k t :
  step_trace stop k t ExitReturn -> Exists (fun o => fatal o = true) t.
Proof.
  inversion 1; subst.
  - eapply invariants_trace_return; eassumption.
  - apply Exists_app. right. apply Exists_cons_tl. apply Exists_app. right.
    apply Exists_cons_tl. eapply invariants_trace_return; eassumption.
  - apply Exists_app. right. apply Exists_cons_tl. apply Exists_app. left.
    eapply attempt_trace_failed; eassumption.
  - apply Exists_app. right. apply Exists_cons_tl. apply Exists_app. left.
    eapply attempt_trace_failed; eassumption.
Qed.

Lemma steps_trace_next ids t :
  steps_trace true ids t ExitNext -> Forall nonfatal t.
Proof.
  intros H. remember ExitNext as e eqn:He. remember true as stop eqn:Hs.
  induction H; subst; [constructor | | congruence].
  apply Forall_app. split; [apply (step_trace_next k); assumption | auto].
Qed.

Lemma steps_trace_return stop ids t :
  steps_trace stop ids t ExitReturn -> Exists (fun o => fatal o = true) t.
Proof.
  intros H. remember ExitReturn as e eqn:He.
  induction H; subst; [discriminate | |].
  - apply Exists_app. right. auto.
  - eapply step_trace_return; eassumption.
Qed.

Lemma run_trace_next ids t :
  run_trace true ids t ExitNext -> Forall nonfatal t.
Proof.
  inversion 1; subst; try congruence.
  repeat (apply Forall_app; split).
  - eapply conditions_trace_next; [left; reflexivity | eassumption].
  - apply steps_trace_next with (ids := ids). assumption.
  - eapply conditions_trace_next; [right; reflexivity | eassumption].
Qed.

Lemma run_trace_return stop ids t :
  run_trace stop ids t ExitReturn -> Exists (fun o => fatal o = true) t.
Proof.
  inversion 1; subst.
  - eapply conditions_trace_return; eassumption.
  - apply Exists_app. right. eapply steps_trace_return; eassumption.
  - apply Exists_app. right. apply Exists_app. right.
    eapply conditions_trace_return; eassumption.
Qed.

Lemma fatal_not_all (t : list Obs) :
  Exists (fun o => fatal o = true) t -> ~ Forall nonfatal t.
Proof.
  intros Hex Hall. apply Exists_exists in Hex as (o & Hin & Ho).
  rewrite Forall_forall in Hall. specialize (Hall o Hin).
  unfold nonfatal in Hall. congruence.
Qed.

(** *** Status histories *)

Lemma writes_invariants_next before k t :
  invariants_trace before k t ExitNext -> writes k t = [].
Proof.
  intros H. apply writes_nil. remember ExitNext as e eqn:He.
  induction H; [constructor | | discriminate | discriminate].
  constructor; [discriminate | auto].
Qed.

Lemma writes_invariants_after k t e :
  invariants_trace false k t e -> writes k t = [].
Proof.
  intros H. apply writes_nil. remember false as b eqn:Hb.
  induction H; subst; repeat constructor; try discriminate. auto.
Qed.

Lemma writes_invariants_before_return k t :
  invariants_trace true k t ExitReturn -> writes k t = [failed].
Proof.
  intros H. remember ExitReturn as e eqn:He. remember true as b eqn:Hb.
  induction H; subst; [discriminate | | | discriminate].
  - apply IHinvariants_trace; reflexivity.
  - unfold writes. simpl. rewrite String.eqb_refl. reflexivity.
Qed.

Lemma writes_invariants_reject before k t :
  invariants_trace before k t ExitReject -> writes k t = [].
Proof.
  intros H. apply writes_nil. remember ExitReject as e eqn:He.
  induction H; [discriminate | | discriminate | constructor].
  constructor; [discriminate | auto].
Qed.

Lemma writes_attempt k t v : attempt_trace k t v -> writes k t = [].
Proof. destruct 1; reflexivity. Qed.

Lemma writes_status k s t :
  writes k (ObsStatus k s :: t) = s :: writes k t.
Proof. unfold writes. simpl. rewrite String.eqb_refl. reflexivity. Qed.

Lemma step_trace_history stop k t e :
  step_trace stop k t e -> turn_history (writes k t).
Proof.
  unfold turn_history. destruct 1.
  - left. reflexivity.
  - right; left. rewrite writes_status. reflexivity.
  - right; right; left. apply writes_invariants_before_return. assumption.
  - right; right; right; left.
    rewrite writes_app, writes_status, writes_app, writes_status.
    rewrite (writes_invariants_next _ _ _ H), (writes_attempt _ _ _ H0),
      (writes_invariants_after _ _ _ H1). reflexivity.
  - right; right; right; right.
    rewrite writes_app, writes_status, writes_app, writes_status.
    rewrite (writes_invariants_next _ _ _ H1), (writes_attempt _ _ _ H2).
    reflexivity.
  - right; right; right; right.
    rewrite writes_app, writes_status, writes_app, writes_status.
    rewrite (writes_invariants_next _ _ _ H1), (writes_attempt _ _ _ H2),
      (writes_invariants_after _ _ _ H3). reflexivity.
  - left. eapply writes_invariants_reject; eassumption.
  - right; right; right; right.
    rewrite writes_app, writes_status.
    rewrite (writes_invariants_next _ _ _ H). unfold writes. simpl.
    rewrite String.eqb_refl. reflexivity.
Qed.

Lemma steps_trace_history stop ids t e :
  steps_trace stop ids t e -> NoDup ids ->
  forall k, turn_history (writes k t).
Proof.
  induction 1 as [| k0 ids t t' e Hstep Hrest IH | k0 ids t e Hne Hstep];
    intros Hnd k.
  - left. reflexivity.
  - inversion Hnd as [| ? ? Hnotin Hnd']; subst. rewrite writes_app.
    destruct (String.eqb_spec k k0) as [-> | Hk].
    + rewrite (writes_elsewhere k0 ids t' Hnotin
                 (steps_trace_about _ _ _ _ Hrest)), app_nil_r.
      eapply step_trace_history; eassumption.
    + rewrite (writes_other k k0 t Hk (step_trace_about _ _ _ _ Hstep)).
      apply IH. assumption.
  - destruct (String.eqb_spec k k0) as [-> | Hk].
    + eapply step_trace_history; eassumption.
    + rewrite (writes_other k k0 t Hk (step_trace_about _ _ _ _ Hstep)).
      left. reflexivity.
Qed.

Lemma run_trace_history stop ids t e :
  run_trace stop ids t e -> NoDup ids ->
  forall k, turn_history (writes k t).
Proof.
  destruct 1 as [t e Hne Hp | tp ts e Hne Hp Hs | tp ts tq e Hp Hs Hq];
    intros Hnd k; rewrite ?writes_app;
    rewrite ?(writes_conditions k _ _ _ Hp), ?(writes_conditions k _ _ _ Hq),
      ?app_nil_r; simpl.
  - left. reflexivity.
  - eapply steps_trace_history; eassumption.
  - eapply steps_trace_history; eassumption.
Qed.

Lemma turn_history_advancing (h : list StepStatus) :
  turn_history h -> advancing (pending :: h).
Proof.
  intros [-> | [-> | [-> | [-> | ->]]]]; simpl; repeat split; lia.
Qed.

Lemma turn_history_forward (h : list StepStatus) :
  turn_history h -> advancing h.
Proof.
  intros [-> | [-> | [-> | [-> | ->]]]]; simpl; repeat split; lia.
Qed.

(** C9.  In one pass of [execute] over steps with distinct identities, the
    statuses assigned to a step only move forward in the order pending,
    running, terminal: a step is assigned nothing, or [skipped], or
    [failed], or [running] and then [completed] or [failed]; counted from
    the initial status [pending] the history still only advances; and the
    status found in the step at the end is the last one assigned. *)
Theorem C9_status_only_advances (I : Intent W) (w : W) :
  NoDup (stepOrder I) ->
  forall (k : string) (s0 : StepStatus),
    status_of k (steps I) = Some s0 ->
    let h := writes k (st_trace (final_state (execute I w))) in
    turn_history h
    /\ advancing h
    /\ (s0 = pending -> advancing (s0 :: h))
    /\ status_of k (st_steps (final_state (execute I w)))
       = Some (List.last h s0).
Proof.
  intros Hnd k s0 Hk h. subst h.
  destruct (execute_sound I w) as (t & [_ Hstat] & Ht & Hrun).
  rewrite Ht.
  pose proof (run_trace_history _ _ _ _ Hrun Hnd k) as Hh.
  split; [exact Hh |].
  split; [apply turn_history_forward; exact Hh |].
  split; [intros ->; apply turn_history_advancing; exact Hh |].
  rewrite Hstat. change (st_steps (initial_state I w)) with (steps I).
  rewrite Hk. reflexivity.
Qed.

(** *** Halting at a failed step *)

Lemma in_about_unique k k' o t :
  Forall (about k') t -> In o t -> about k o -> k = k'.
Proof.
  intros H Hin Ho. rewrite Forall_forall in H. specialize (H o Hin).
  unfold about in *. congruence.
Qed.

Lemma invariants_trace_no_verify before k t e k' v :
  invariants_trace before k t e -> ~ In (ObsVerify k' v) t.
Proof.
  induction 1 as [| crit t e H IH | crit |]; intros Hin.
  - destruct Hin.
  - destruct Hin as [[=] | Hin]. exact (IH Hin).
  - destruct before; simpl in Hin; intuition discriminate.
  - destruct Hin.
Qed.

(** A turn that ends in an exception has not seen its verification
    fail, when failures stop the run. *)
Lemma step_trace_reject k t :
  step_trace true k t ExitReject -> ~ In (ObsVerify k (Some false)) t.
Proof.
  inversion 1 as [| | | t0 ta t1 e H0 Ha H1 | | t0 ta v t1 e Hs | t' H0
                  | t0 H0]; subst; intros Hin.
  - destruct Hin.
  - apply in_app_or in Hin. destruct Hin as [Hin | Hin];
      [exact (invariants_trace_no_verify _ _ _ _ _ _ H0 Hin) |].
    destruct Hin as [[=] | Hin].
    apply in_app_or in Hin. destruct Hin as [Hin | Hin].
    + inversion Ha; subst; simpl in Hin; intuition discriminate.
    + destruct Hin as [[=] | Hin].
      exact (invariants_trace_no_verify _ _ _ _ _ _ H1 Hin).
  - discriminate.
  - exact (invariants_trace_no_verify _ _ _ _ _ _ H0 Hin).
  - apply in_app_or in Hin. destruct Hin as [Hin | Hin];
      [exact (invariants_trace_no_verify _ _ _ _ _ _ H0 Hin) |].
    simpl in Hin. intuition discriminate.
Qed.

Lemma steps_trace_halts ids t e :
  steps_trace true ids t e ->
  forall pre k post,
    ids = (pre ++ k :: post)%list -> NoDup ids ->
    In (ObsVerify k (Some false)) t ->
    e = ExitReturn
    /\ Forall (fun o => exists k', In k' (pre ++ [k]) /\ about k' o) t.
Proof.
  intros H. remember true as stop eqn:Hs.
  induction H as [| k0 ids t t' e Hstep Hrest IH | k0 ids t e Hne Hstep];
    intros pre k post Hids Hnd Hin; subst stop.
  - destruct pre; discriminate.
  - inversion Hnd as [| ? ? Hnotin Hnd']; subst.
    apply in_app_or in Hin.
    destruct pre as [| p pre]; simpl in Hids; injection Hids as -> ->.
    + exfalso. destruct Hin as [Hin | Hin].
      * pose proof (step_trace_next _ _ Hstep) as Hok.
        rewrite Forall_forall in Hok. specialize (Hok _ Hin). discriminate.
      * pose proof (steps_trace_about _ _ _ _ Hrest) as Hab.
        rewrite Forall_forall in Hab.
        destruct (Hab _ Hin) as (k' & Hk' & Ho).
        injection Ho as ->. contradiction.
    + destruct Hin as [Hin | Hin].
      * exfalso.
        assert (k = p)
          by (eapply in_about_unique;
              [eapply step_trace_about; eassumption | exact Hin | reflexivity]).
        subst. apply Hnotin. apply in_or_app. right. left. reflexivity.
      * destruct (IH pre k post eq_refl Hnd' Hin) as [He Hall].
        split; [exact He |]. apply Forall_app. split.
        -- eapply Forall_impl; [| eapply step_trace_about; eassumption].
           intros o Ho. exists p. split; [left; reflexivity | exact Ho].
        -- eapply Forall_impl; [| exact Hall].
           intros o (k' & Hk' & Ho). exists k'. split; [right |]; assumption.
  - inversion Hnd as [| ? ? Hnotin Hnd']; subst.
    assert (Hk : k = k0)
      by (eapply in_about_unique;
          [eapply step_trace_about; eassumption | exact Hin | reflexivity]).
    destruct pre as [| p pre]; simpl in Hids; injection Hids as Hhead Htail.
    + split.
      * destruct e; [congruence | reflexivity |].
        exfalso. apply step_trace_reject in Hstep. apply Hstep.
        rewrite <- Hk. exact Hin.
      * eapply Forall_impl; [| eapply step_trace_about; eassumption].
        intros o Ho. exists k0. split; [left; congruence | exact Ho].
    + exfalso. apply Hnotin. rewrite Htail. apply in_or_app.
      right. left. exact Hk.
Qed.

Lemma NoDup_app_disjoint {A} (l l' : list A) (x : A) :
  NoDup (l ++ l') -> In x l -> In x l' -> False.
Proof.
  induction l as [| a l IH]; simpl; intros Hnd Hl Hl'; [contradiction |].
  inversion Hnd as [| ? ? Hnotin Hnd']; subst.
  destruct Hl as [-> | Hl]; [| auto].
  apply Hnotin. apply in_or_app. right. exact Hl'.
Qed.

Lemma in_conditions_trace ph t e o :
  conditions_trace ph t e -> In o t -> exists c ok, o = ObsCheck ph c ok.
Proof.
  intros H Hin. apply conditions_trace_plain in H.
  rewrite Forall_forall in H. auto.
Qed.

(** C3.  With [stopOnFailure] set and distinct step identities, once the
    verification of a step has failed the run is over: [execute] resolves
    with [success = false], and every step declared after the failing one
    has been assigned no status at all, so that on an Intent whose steps
    were all [pending] it is still [pending] (not [skipped], whatever its
    dependencies). *)
Theorem C3_first_failure_halts (I : Intent W) (w : W)
  (pre post : list string) (k : string) :
  enabled (o_stopOnFailure (options I)) = true ->
  NoDup (stepOrder I) ->
  fresh I ->
  stepOrder I = (pre ++ k :: post)%list ->
  In (ObsVerify k (Some false)) (st_trace (final_state (execute I w))) ->
  (exists r st, execute I w = Resolved r st /\ res_success r = false)
  /\ forall k',
      In k' post ->
      writes k' (st_trace (final_state (execute I w))) = []
      /\ forall s,
          status_of k' (st_steps (final_state (execute I w))) = Some s ->
          s = pending.
Proof.
  intros Hstop Hnd Hfresh Hids Hin.
  destruct (execute_sound I w) as (t & [_ Hstat] & Ht & Hrun).
  rewrite Ht in *. clear Ht. rewrite Hstop in Hrun.
  assert (Hhalt : completion_exit (execute I w) = ExitReturn
                  /\ forall k', In k' post -> writes k' t = []).
  { inversion Hrun as [t' e Hne Hp | tp ts e Hne Hp Hs | tp ts tq e Hp Hs Hq];
      subst.
    - exfalso. destruct (in_conditions_trace _ _ _ _ Hp Hin) as (c & ok & [=]).
    - apply in_app_or in Hin. destruct Hin as [Hin | Hin];
        [exfalso; destruct (in_conditions_trace _ _ _ _ Hp Hin)
           as (c & ok & [=]) |].
      destruct (steps_trace_halts _ _ _ Hs pre k post Hids Hnd Hin)
        as [He Hall].
      split; [congruence |]. intros k' Hk'.
      rewrite writes_app, (writes_conditions k' _ _ _ Hp). simpl.
      apply (writes_elsewhere k' (pre ++ [k])); [| exact Hall].
      intros Hmem. rewrite Hids in Hnd.
      replace (pre ++ k :: post)%list with ((pre ++ [k]) ++ post)%list in Hnd
        by (rewrite <- app_assoc; reflexivity).
      exact (NoDup_app_disjoint _ _ _ Hnd Hmem Hk').
    - exfalso.
      apply in_app_or in Hin. destruct Hin as [Hin | Hin];
        [destruct (in_conditions_trace _ _ _ _ Hp Hin) as (c & ok & [=]) |].
      apply in_app_or in Hin. destruct Hin as [Hin | Hin];
        [| destruct (in_conditions_trace _ _ _ _ Hq Hin) as (c & ok & [=])].
      destruct (steps_trace_halts _ _ _ Hs pre k post Hids Hnd Hin)
        as [He _].
      discriminate. }
  destruct Hhalt as [Hexit Hnone]. split.
  - destruct (execute I w) as [r st | err st]; simpl in Hexit;
      [| discriminate].
    exists r, st. split; [reflexivity |].
    destruct (res_success r); [discriminate | reflexivity].
  - intros k' Hk'. split; [apply Hnone; exact Hk' |].
    intros s Hs. rewrite Hstat, (Hnone k' Hk') in Hs.
    change (st_steps (initial_state I w)) with (steps I) in Hs.
    destruct (status_of k' (steps I)) as [s0 |] eqn:H0; [| discriminate].
    simpl in Hs. injection Hs as <-. eapply Hfresh; eassumption.
Qed.

(** *** Skipped steps *)

Lemma unmet_dependency (s : Step W) (m : JsMap.t (Step W)) deps d :
  step_dependencies s = Some deps ->
  In d deps ->
  status_of d m <> Some completed ->
  has_unmet_dependencies s m = true.
Proof.
  intros Hdeps Hin Hst. unfold has_unmet_dependencies. rewrite Hdeps.
  assert (Hmem : In d (unmetDeps deps m)).
  { apply filter_In. split; [exact Hin |].
    unfold status_of in Hst. destruct (JsMap.get d m) as [dep |];
      [| reflexivity].
    simpl in Hst. destruct (step_status dep); try reflexivity. congruence. }
  destruct (unmetDeps deps m); [destruct Hmem | reflexivity].
Qed.

Lemma in_writes k s t : In (ObsStatus k s) t -> In s (writes k t).
Proof.
  intros Hin. unfold writes. apply in_flat_map.
  exists (ObsStatus k s). split; [exact Hin |].
  simpl. rewrite String.eqb_refl. left. reflexivity.
Qed.

Lemma step_trace_skipped stop k t e :
  step_trace stop k t e ->
  In (ObsStatus k skipped) t -> t = [ObsStatus k skipped].
Proof.
  intros H Hin. apply in_writes in Hin. revert Hin.
  destruct H; try reflexivity;
    rewrite ?writes_app, ?writes_status, ?writes_app, ?writes_status;
    repeat match goal with
      | H : invariants_trace true _ _ ExitNext |- _ =>
          rewrite (writes_invariants_next _ _ _ H); clear H
      | H : invariants_trace true _ _ ExitReturn |- _ =>
          rewrite (writes_invariants_before_return _ _ H); clear H
      | H : invariants_trace true _ _ ExitReject |- _ =>
          rewrite (writes_invariants_reject _ _ _ H); clear H
      | H : invariants_trace false _ _ _ |- _ =>
          rewrite (writes_invariants_after _ _ _ H); clear H
      | H : attempt_trace _ _ _ |- _ =>
          rewrite (writes_attempt _ _ _ H); clear H
      end;
    unfold writes; simpl; rewrite ?String.eqb_refl; simpl;
    intuition discriminate.
Qed.

Lemma steps_trace_skipped stop ids t e :
  steps_trace stop ids t e -> NoDup ids ->
  forall k o,
    In (ObsStatus k skipped) t -> In o t -> about k o ->
    o = ObsStatus k skipped.
Proof.
  induction 1 as [| k0 ids t t' e Hstep Hrest IH | k0 ids t e Hne Hstep];
    intros Hnd k o Hsk Ho Hab.
  - destruct Hsk.
  - inversion Hnd as [| ? ? Hnotin Hnd']; subst.
    pose proof (step_trace_about _ _ _ _ Hstep) as Hab0.
    pose proof (steps_trace_about _ _ _ _ Hrest) as Hab'.
    rewrite Forall_forall in Hab'.
    apply in_app_or in Hsk. apply in_app_or in Ho.
    destruct Hsk as [Hsk | Hsk].
    + assert (k = k0)
        by (eapply in_about_unique; [exact Hab0 | exact Hsk | reflexivity]).
      subst k. destruct Ho as [Ho | Ho].
      * rewrite (step_trace_skipped _ _ _ _ Hstep Hsk) in Ho.
        destruct Ho as [<- | []]. reflexivity.
      * exfalso. destruct (Hab' _ Ho) as (k' & Hk' & Hk'o).
        unfold about in *. assert (k' = k0) by congruence. subst.
        contradiction.
    + destruct Ho as [Ho | Ho]; [| eapply IH; eassumption].
      exfalso. destruct (Hab' _ Hsk) as (k' & Hk' & Hk'o).
      injection Hk'o as <-.
      assert (k = k0)
        by (eapply in_about_unique; [exact Hab0 | exact Ho | exact Hab]).
      subst. contradiction.
  - pose proof (step_trace_about _ _ _ _ Hstep) as Hab0.
    assert (k = k0)
      by (eapply in_about_unique; [exact Hab0 | exact Hsk | reflexivity]).
    subst k. rewrite (step_trace_skipped _ _ _ _ Hstep Hsk) in Ho.
    destruct Ho as [<- | []]. reflexivity.
Qed.

(** C5.  A step reached while one of its declared dependencies is missing
    from the step collection, or present with a status other than
    [completed], is marked [skipped] and the loop goes on: the world and
    the verification log are as before, the only thing done is the
    assignment of the status, and in the whole run (step identities being
    distinct) a step that was marked [skipped] has had neither its action
    nor its verification called, nor an invariant checked on its
    account. *)
Theorem C5_unmet_dependency_skips :
  (forall (I : Intent W) (k : string) (st : State W) (s : Step W)
          (deps : list string) (d : string),
      JsMap.get k (st_steps st) = Some s ->
      step_dependencies s = Some deps ->
      In d deps ->
      status_of d (st_steps st) <> Some completed ->
      exists st',
        run_step I k st = Next st'
        /\ status_of k (st_steps st') = Some skipped
        /\ st_world st' = st_world st
        /\ st_log st' = st_log st
        /\ st_trace st' = (st_trace st ++ [ObsStatus k skipped])%list
        /\ st_events st'
           = (st_events st
                ++ [EvStepSkipped (step_name s) "unmet dependencies"])%list)
  /\ (forall (I : Intent W) (w : W) (k : string) (o : Obs),
         NoDup (stepOrder I) ->
         In (ObsStatus k skipped) (st_trace (final_state (execute I w))) ->
         In o (st_trace (final_state (execute I w))) ->
         about k o ->
         o = ObsStatus k skipped).
Proof.
  split.
  - intros I k st s deps d Hget Hdeps Hin Hst.
    unfold run_step. rewrite Hget.
    rewrite (unmet_dependency s _ deps d Hdeps Hin Hst).
    eexists. split; [reflexivity |]. repeat split.
    simpl. rewrite status_of_assign. unfold status_of. rewrite Hget.
    simpl. rewrite String.eqb_refl. reflexivity.
  - intros I w k o Hnd Hsk Ho Hab.
    destruct (execute_sound I w) as (t & _ & Ht & Hrun).
    rewrite Ht in *. clear Ht.
    assert (Hplain : forall ph tp e x,
               conditions_trace ph tp e -> In x tp ->
               ph = PhasePre \/ ph = PhasePost -> obs_step x = None).
    { intros ph tp e x Hc Hx Hph.
      destruct (in_conditions_trace _ _ _ _ Hc Hx) as (c & ok & ->).
      destruct Hph as [-> | ->]; reflexivity. }
    assert (Hsteps : forall ts e,
               steps_trace (enabled (o_stopOnFailure (options I))) (stepOrder I) ts e ->
               In (ObsStatus k skipped) ts -> In o ts ->
               o = ObsStatus k skipped).
    { intros ts e Hs H1 H2. eapply steps_trace_skipped; eassumption. }
    unfold about in Hab.
    inversion Hrun as [t' e Hne Hp | tp ts e Hne Hp Hs | tp ts tq e Hp Hs Hq];
      subst;
      repeat match goal with
        | H : In _ (_ ++ _) |- _ => apply in_app_or in H; destruct H
        end;
      try (eapply Hsteps; eassumption);
      exfalso;
      match goal with
      | Hc : conditions_trace ?ph ?tp _, Hx : In ?x ?tp |- _ =>
          let E := fresh in
          assert (E : obs_step x = None)
            by (eapply Hplain; [exact Hc | exact Hx | auto]);
          (discriminate E || congruence)
      end.
Qed.

(** *** Thrown errors *)










(** *** Invariants *)

Lemma clean_app t t' : clean t -> clean t' -> clean (t ++ t').
Proof. intros H H'. apply Forall_app. split; assumption. Qed.

Lemma ends_at_invariant_after t t' :
  clean t -> ends_at_invariant t' -> ends_at_invariant (t ++ t').
Proof.
  intros Hc (t0 & o & tail & -> & Hc0 & Ho & Htail).
  exists (t ++ t0)%list, o, tail.
  split; [apply app_assoc |]. split; [apply clean_app; assumption |].
  split; assumption.
Qed.

Lemma clean_no_failure t :
  clean t -> ~ Exists (fun o => invariant_failure o = true) t.
Proof.
  intros Hc Hex. apply Exists_exists in Hex as (o & Hin & Ho).
  unfold clean in Hc. rewrite Forall_forall in Hc.
  specialize (Hc o Hin). congruence.
Qed.

Lemma invariants_trace_ends before k t e :
  invariants_trace before k t e ->
  (e <> ExitReturn /\ clean t) \/ (e = ExitReturn /\ ends_at_invariant t).
Proof.
  induction 1 as [| crit t e H IH | crit |].
  - left. split; [discriminate | constructor].
  - assert (Hc : clean [ObsCheck (inv_phase before k) crit true])
      by (repeat constructor; destruct before; reflexivity).
    destruct IH as [[Hne IH] | [-> IH]]; [left | right];
      (split; [assumption || reflexivity |]).
    + apply (clean_app _ _ Hc IH).
    + apply (ends_at_invariant_after _ _ Hc IH).
  - right. split; [reflexivity |].
    exists [], (ObsCheck (inv_phase before k) crit false),
      (if before then [ObsStatus k failed] else []).
    split; [reflexivity |]. split; [constructor |].
    split; [destruct before; reflexivity |].
    destruct before; [right; exists k; reflexivity | left; reflexivity].
  - left. split; [discriminate | constructor].
Qed.

Lemma invariants_trace_clean before k t e :
  invariants_trace before k t e -> e <> ExitReturn -> clean t.
Proof.
  intros H Hne.
  destruct (invariants_trace_ends _ _ _ _ H) as [[_ C] | [E _]];
    [exact C | contradiction].
Qed.

Lemma conditions_trace_clean ph t e :
  ph = PhasePre \/ ph = PhasePost -> conditions_trace ph t e -> clean t.
Proof.
  intros Hph H. eapply Forall_impl; [| eapply conditions_trace_plain; exact H].
  intros o (c & ok & ->). destruct Hph as [-> | ->]; reflexivity.
Qed.

Lemma attempt_trace_clean k t v : attempt_trace k t v -> clean t.
Proof. destruct 1; repeat constructor. Qed.

Lemma step_trace_ends stop k t e :
  step_trace stop k t e ->
  clean t \/ (e = ExitReturn /\ ends_at_invariant t).
Proof.
  assert (Hone : forall s, clean [ObsStatus k s]) by (repeat constructor).
  assert (Hnext : ExitNext <> ExitReturn) by discriminate.
  assert (Hreject : ExitReject <> ExitReturn) by discriminate.
  destruct 1 as [| | t H | t0 ta t1 e H0 Ha H1 | t0 ta v Hs Hv H0 Ha
                 | t0 ta v t1 e Hs Hv H0 Ha H1 | t H | t0 H0].
  - left. constructor.
  - left. apply Hone.
  - destruct (invariants_trace_ends _ _ _ _ H) as [[? _] | [_ ?]];
      [congruence | right; split; [reflexivity | assumption]].
  - pose proof (invariants_trace_clean _ _ _ _ H0 Hnext) as C0.
    assert (Hpre : clean (t0 ++ ObsStatus k running :: ta
                            ++ [ObsStatus k completed]))
      by (apply clean_app; [exact C0 |];
          apply (clean_app [_]); [apply Hone |];
          apply clean_app; [eapply attempt_trace_clean; eassumption
                           | apply Hone]).
    replace (t0 ++ ObsStatus k running :: ta ++ ObsStatus k completed :: t1)%list
      with ((t0 ++ ObsStatus k running :: ta ++ [ObsStatus k completed])
              ++ t1)%list
      by (rewrite <- !app_assoc; simpl; rewrite <- !app_assoc; reflexivity).
    destruct (invariants_trace_ends _ _ _ _ H1) as [[_ C1] | [-> E1]].
    + left. apply clean_app; assumption.
    + right. split; [reflexivity |].
      apply ends_at_invariant_after; assumption.
  - left.
    pose proof (invariants_trace_clean _ _ _ _ H0 Hnext) as C0.
    apply clean_app; [exact C0 |]. apply (clean_app [_]); [apply Hone |].
    apply clean_app; [eapply attempt_trace_clean; eassumption | apply Hone].
  - pose proof (invariants_trace_clean _ _ _ _ H0 Hnext) as C0.
    assert (Hpre : clean (t0 ++ ObsStatus k running :: ta
                            ++ [ObsStatus k failed]))
      by (apply clean_app; [exact C0 |];
          apply (clean_app [_]); [apply Hone |];
          apply clean_app; [eapply attempt_trace_clean; eassumption
                           | apply Hone]).
    replace (t0 ++ ObsStatus k running :: ta ++ ObsStatus k failed :: t1)%list
      with ((t0 ++ ObsStatus k running :: ta ++ [ObsStatus k failed])
              ++ t1)%list
      by (rewrite <- !app_assoc; simpl; rewrite <- !app_assoc; reflexivity).
    destruct (invariants_trace_ends _ _ _ _ H1) as [[_ C1] | [-> E1]].
    + left. apply clean_app; assumption.
    + right. split; [reflexivity |].
      apply ends_at_invariant_after; assumption.
  - left. exact (invariants_trace_clean _ _ _ _ H Hreject).
  - left. apply clean_app;
      [exact (invariants_trace_clean _ _ _ _ H0 Hnext) | repeat constructor].
Qed.

Lemma steps_trace_ends stop ids t e :
  steps_trace stop ids t e ->
  clean t \/ (e = ExitReturn /\ ends_at_invariant t).
Proof.
  induction 1 as [| k0 ids t t' e Hstep Hrest IH | k0 ids t e Hne Hstep].
  - left. constructor.
  - destruct (step_trace_ends _ _ _ _ Hstep) as [C | [? _]]; [| discriminate].
    destruct IH as [C' | [-> E']].
    + left. apply clean_app; assumption.
    + right. split; [reflexivity |].
      apply ends_at_invariant_after; assumption.
  - eapply step_trace_ends; eassumption.
Qed.

Lemma run_trace_ends stop ids t e :
  run_trace stop ids t e ->
  clean t \/ (e = ExitReturn /\ ends_at_invariant t).
Proof.
  destruct 1 as [t e Hne Hp | tp ts e Hne Hp Hs | tp ts tq e Hp Hs Hq].
  - left. eapply conditions_trace_clean; [left; reflexivity | eassumption].
  - pose proof (conditions_trace_clean _ _ _ (or_introl eq_refl) Hp) as Cp.
    destruct (steps_trace_ends _ _ _ _ Hs) as [C | [-> E]].
    + left. apply clean_app; assumption.
    + right. split; [reflexivity |].
      apply ends_at_invariant_after; assumption.
  - left.
    pose proof (conditions_trace_clean _ _ _ (or_introl eq_refl) Hp) as Cp.
    pose proof (conditions_trace_clean _ _ _ (or_intror eq_refl) Hq) as Cq.
    destruct (steps_trace_ends _ _ _ _ Hs) as [C | [? _]]; [| discriminate].
    apply clean_app; [exact Cp |]. apply clean_app; assumption.
Qed.

(** C10.  A failed invariant check ends the run whatever its [critical]
    member says: [execute] resolves with [success = false] and the failed
    check is the last thing evaluated (only the assignment of [failed] to
    the step may follow); the loop over the invariants returns at the first
    failed check without reading [critical], whereas the loop over pre- and
    postconditions goes on past a failed check marked [critical: false];
    and [invariant], given a function, stores a check with no [critical]
    member. *)
Theorem C10_failed_invariant_aborts :
  (forall (I : Intent W) (w : W),
      Exists (fun o => invariant_failure o = true)
        (st_trace (final_state (execute I w))) ->
      (exists r st, execute I w = Resolved r st /\ res_success r = false)
      /\ ends_at_invariant (st_trace (final_state (execute I w))))
  /\ (forall (before : bool) (k name : string) (inv : VerificationCheck W)
             (rest : list (VerificationCheck W)) (st : State W)
             (r : VerificationResult) (w' : W),
         verifyCheck inv (st_world st) = (inr r, w') ->
         success r = false ->
         exists res st',
           check_invariants before k name (inv :: rest) st = Return res st'
           /\ res_success res = false
           /\ res_failureReason res = Some (message r)
           /\ res_failedStep res
              = Some ((if before then "invariant before "
                       else "invariant after ") ++ name))
  /\ (forall (ph : Phase) (label : string) (c : VerificationCheck W)
             (rest : list (VerificationCheck W)) (st : State W)
             (r : VerificationResult) (w' : W),
         verifyCheck c (st_world st) = (inr r, w') ->
         success r = false ->
         critical c = Some false ->
         check_conditions ph label (c :: rest) st
         = check_conditions ph label rest
             (push_log r (note (ObsCheck ph (Some false) false)
                            (with_world w' st))))
  /\ (forall (fn : VerificationFunction W) (e : Js.value) (I : Intent W),
         invariants (contract (invariant (ArgFunction fn) e I))
         = Some (or_default (invariants (contract I)) []
                   ++ [mkCheck None (CheckFunction fn) e None])%list).
Proof.
  split; [| split; [| split]].
  - intros I w Hex.
    destruct (execute_sound I w) as (t & _ & Ht & Hrun).
    rewrite Ht in *.
    destruct (run_trace_ends _ _ _ _ Hrun) as [C | [He E]];
      [exfalso; eapply clean_no_failure; eassumption |].
    split; [| exact E].
    destruct (execute I w) as [r st | err st]; simpl in He; [| discriminate].
    exists r, st. split; [reflexivity |].
    destruct (res_success r); [discriminate | reflexivity].
  - intros before k name inv rest st r w' Hv Hr. simpl.
    rewrite Hv, Hr. simpl. eexists. eexists. repeat split.
  - intros ph label c rest st r w' Hv Hr Hc. simpl.
    rewrite Hv, Hr, Hc. reflexivity.
  - intros fn e I. reflexivity.
Qed.

(** ** Intents as the builder makes them *)

Lemma get_set {V} (k k' : string) (v : V) (m : JsMap.t V) :
  JsMap.get k (JsMap.set k' v m)
  = if String.eqb k k' then Some v else JsMap.get k m.
Proof.
  induction m as [| [k0 v0] m IH]; simpl.
  - reflexivity.
  - destruct (String.eqb_spec k' k0) as [-> | Hne]; simpl.
    + destruct (String.eqb k k0); reflexivity.
    + rewrite IH. destruct (String.eqb_spec k k0) as [-> | Hne']; simpl.
      * destruct (String.eqb_spec k0 k'); [congruence | reflexivity].
      * reflexivity.
Qed.

Lemma fresh_new_Intent rnd goal opts : fresh (new_Intent (W := W) rnd goal opts).
Proof. intros k s. discriminate. Qed.

Lemma fresh_step rnd name d (I : Intent W) :
  fresh I -> fresh (step rnd name d I).
Proof.
  intros H k s. unfold status_of, step. simpl. rewrite get_set.
  destruct (String.eqb k rnd); [intros [= <-]; reflexivity | apply H].
Qed.

Lemma fresh_requires chk e (I : Intent W) : fresh I -> fresh (requires chk e I).
Proof. intros H. exact H. Qed.

Lemma fresh_ensures chk e (I : Intent W) : fresh I -> fresh (ensures chk e I).
Proof. intros H. exact H. Qed.

Lemma fresh_invariant chk e (I : Intent W) :
  fresh I -> fresh (invariant chk e I).
Proof. intros H. exact H. Qed.

(** [stopOnFailure] is on unless the caller turns it off. *)
Lemma stopOnFailure_default rnd goal :
  o_stopOnFailure (options (new_Intent (W := W) rnd goal no_options))
  = Some true.
Proof. reflexivity. Qed.

(** ** Everything [execute] does to its state *)

Lemma reaches_trans (a b c : State W) :
  reaches a b -> reaches b c -> reaches a c.
Proof.
  intros Hab Hbc. induction Hbc; [assumption |].
  eapply reaches_step; eauto.
Qed.

Lemma reaches_emit e (a b : State W) :
  inner_event e -> reaches a b -> reaches a (emit e b).
Proof. intros He H. eapply reaches_step; [exact H | constructor; exact He]. Qed.

Lemma reaches_note o (a b : State W) : reaches a b -> reaches a (note o b).
Proof. intros H. eapply reaches_step; [exact H | constructor]. Qed.

Lemma reaches_push_log r (a b : State W) :
  reaches a b -> reaches a (push_log r b).
Proof. intros H. eapply reaches_step; [exact H | constructor]. Qed.

Lemma reaches_with_world w (a b : State W) :
  reaches a b -> reaches a (with_world w b).
Proof. intros H. eapply reaches_step; [exact H | constructor]. Qed.

Lemma reaches_with_status (a b : State W) :
  reaches a b -> reaches a (with_status intent_failed b).
Proof. intros H. eapply reaches_step; [exact H | constructor]. Qed.

Lemma reaches_mutate k f (a b : State W) :
  (forall x, skeleton (f x) = skeleton x) ->
  reaches a b -> reaches a (mutate k f b).
Proof. intros Hf H. eapply reaches_step; [exact H | constructor; exact Hf]. Qed.

Lemma reaches_set_step_status k s (a b : State W) :
  reaches a b -> reaches a (set_step_status k s b).
Proof.
  intros H. unfold set_step_status. apply reaches_note.
  apply reaches_mutate; [intros; reflexivity | exact H].
Qed.

Ltac reaches_chain :=
  repeat first
    [ eassumption
    | apply reaches_refl
    | apply reaches_emit; [exact Logic.I |]
    | apply reaches_push_log
    | apply reaches_with_world
    | apply reaches_with_status
    | apply reaches_set_step_status
    | apply reaches_mutate; [intros; reflexivity |]
    | apply reaches_note ].

Lemma check_conditions_reaches ph label cs : forall st : State W,
  reaches st (flow_state (check_conditions ph label cs st)).
Proof.
  induction cs as [| c cs IH]; intros st; simpl; [apply reaches_refl |].
  destruct (verifyCheck c (st_world st)) as [[err | r] w'];
    [simpl; reaches_chain |].
  destruct (negb (success r) && _); simpl.
  - reaches_chain.
  - eapply reaches_trans; [| apply IH]. reaches_chain.
Qed.

Lemma check_invariants_reaches before k name invs : forall st : State W,
  reaches st (flow_state (check_invariants before k name invs st)).
Proof.
  induction invs as [| c cs IH]; intros st; simpl; [apply reaches_refl |].
  destruct (verifyCheck c (st_world st)) as [[err | r] w'];
    [simpl; reaches_chain |].
  destruct (negb (success r)); simpl.
  - destruct before; reaches_chain.
  - eapply reaches_trans; [| apply IH]. reaches_chain.
Qed.

Lemma invariants_phase_reaches I before k name (st : State W) :
  reaches st (flow_state (invariants_phase I before k name st)).
Proof.
  unfold invariants_phase. destruct (invariants (contract I));
    [apply check_invariants_reaches | apply reaches_refl].
Qed.

Lemma attempt_reaches k d (st : State W) :
  reaches st (snd (attempt k d st)).
Proof.
  unfold attempt. destruct (def_action d) as [act |].
  - destruct (act (st_world st)) as [[v | err] w1]; simpl.
    + destruct (verifyStep d _) as [[err | r] w2]; simpl; reaches_chain.
    + reaches_chain.
  - destruct (verifyStep d _) as [[err | r] w2]; simpl; reaches_chain.
Qed.

Lemma settle_attempt_reaches I k name outcome (st : State W) :
  reaches st (flow_state (settle_attempt I k name outcome st)).
Proof.
  destruct outcome as [err | r]; simpl.
  - destruct (read_message err) as [type_error | m];
      [| destruct (enabled (o_stopOnFailure (options I)))]; simpl;
      reaches_chain.
  - destruct (success r); simpl; [reaches_chain |].
    destruct (enabled (o_stopOnFailure (options I))); simpl; reaches_chain.
Qed.

Lemma and_then_state (f : Flow W) (k : State W -> Flow W) :
  flow_state (and_then f k)
  = match f with
    | Next st => flow_state (k st)
    | other => flow_state other
    end.
Proof. destruct f; reflexivity. Qed.

Lemma run_step_reaches I k (st : State W) :
  reaches st (flow_state (run_step I k st)).
Proof.
  unfold run_step. destruct (JsMap.get k (st_steps st)) as [s |];
    [| apply reaches_refl].
  destruct (has_unmet_dependencies s (st_steps st)); [simpl; reaches_chain |].
  rewrite and_then_state.
  pose proof (invariants_phase_reaches I true k (step_name s) st) as H0.
  destruct (invariants_phase I true k (step_name s) st)
    as [st1 | r st1 | err st1]; simpl in H0 |- *; try exact H0.
  match goal with
  | |- context [attempt k ?d ?s0] =>
      pose proof (attempt_reaches k d s0) as Ha;
      destruct (attempt k d s0) as [outcome st2];
      assert (H1 : reaches st s0) by reaches_chain
  end.
  simpl in Ha. rewrite and_then_state.
  pose proof (settle_attempt_reaches I k (step_name s) outcome st2) as Hs.
  pose proof (reaches_trans _ _ _ (reaches_trans _ _ _ H1 Ha) Hs) as Hall.
  destruct (settle_attempt I k (step_name s) outcome st2)
    as [st3 | r st3 | err st3]; simpl in Hall |- *; try exact Hall.
  eapply reaches_trans; [exact Hall | apply invariants_phase_reaches].
Qed.

Lemma run_steps_reaches I ids : forall st : State W,
  reaches st (flow_state (run_steps I ids st)).
Proof.
  induction ids as [| k ids IH]; intros st; simpl; [apply reaches_refl |].
  rewrite and_then_state.
  pose proof (run_step_reaches I k st) as H.
  destruct (run_step I k st) as [st1 | r st1 | err st1]; simpl in H |- *;
    try exact H.
  eapply reaches_trans; [exact H | apply IH].
Qed.

Lemma reaches_invariant (P : State W -> Prop) :
  (forall a b, update a b -> P a -> P b) ->
  forall a b, reaches a b -> P a -> P b.
Proof. intros Hstep a b H Ha. induction H; eauto. Qed.

Lemma preconditions_phase_reaches I (st : State W) :
  reaches st (flow_state (preconditions_phase I st)).
Proof.
  unfold preconditions_phase. destruct (preconditions (contract I));
    [| apply reaches_refl].
  eapply reaches_trans; [| apply check_conditions_reaches]. reaches_chain.
Qed.

Lemma steps_phase_reaches I (st : State W) :
  reaches st (flow_state (steps_phase I st)).
Proof.
  unfold steps_phase. eapply reaches_trans; [| apply run_steps_reaches].
  reaches_chain.
Qed.

Lemma postconditions_phase_reaches I (st : State W) :
  reaches st (flow_state (postconditions_phase I st)).
Proof.
  unfold postconditions_phase. destruct (postconditions (contract I));
    [| apply reaches_refl].
  eapply reaches_trans; [| apply check_conditions_reaches]. reaches_chain.
Qed.

Lemma last_inner_reaches I (w : W) :
  reaches (initial_state I w) (last_inner_state I w).
Proof.
  unfold last_inner_state. rewrite and_then_state.
  pose proof (preconditions_phase_reaches I (initial_state I w)) as Hpre.
  destruct (preconditions_phase I (initial_state I w))
    as [st1 | r st1 | err st1]; simpl in Hpre |- *; try exact Hpre.
  rewrite and_then_state.
  pose proof (reaches_trans _ _ _ Hpre (steps_phase_reaches I st1)) as Hsteps.
  destruct (steps_phase I st1) as [st2 | r st2 | err st2];
    simpl in Hsteps |- *; try exact Hsteps.
  eapply reaches_trans; [exact Hsteps | apply postconditions_phase_reaches].
Qed.

(** *** What [execute] leaves alone *)

Lemma outline_adjust (f : Step W -> Step W) (k : string) (m : JsMap.t (Step W)) :
  (forall x, skeleton (f x) = skeleton x) ->
  outline (JsMap.adjust f k m) = outline m.
Proof.
  intros Hf. induction m as [| [k0 v] m IH]; [reflexivity |]. simpl.
  destruct (String.eqb k k0); simpl; [rewrite Hf | rewrite IH]; reflexivity.
Qed.

Lemma reaches_outline (a b : State W) :
  reaches a b -> outline (st_steps b) = outline (st_steps a).
Proof.
  intros H. induction H as [| b c _ IH Hu]; [reflexivity |].
  rewrite <- IH. destruct Hu; try reflexivity.
  simpl. apply outline_adjust. assumption.
Qed.

Lemma outline_get (k : string) (m m' : JsMap.t (Step W)) (s : Step W) :
  outline m = outline m' ->
  JsMap.get k m = Some s ->
  exists s', JsMap.get k m' = Some s' /\ skeleton s' = skeleton s.
Proof.
  revert m'. induction m as [| [k0 v] m IH]; intros m' Hout Hget;
    [discriminate |].
  destruct m' as [| [k1 v1] m']; [discriminate |].
  simpl in Hout.
  assert (Hk : k0 = k1) by (injection Hout; auto).
  assert (Hsk : skeleton v1 = skeleton v)
    by (unfold skeleton; injection Hout; intros; congruence).
  assert (Hrest : outline m = outline m') by (injection Hout; auto).
  subst k1. simpl in *.
  destruct (String.eqb k k0).
  - injection Hget as <-. exists v1. split; [reflexivity | exact Hsk].
  - apply IH; assumption.
Qed.

Lemma reaches_dependencies (a b : State W) (k : string) (s : Step W) :
  reaches a b ->
  JsMap.get k (st_steps a) = Some s ->
  exists s', JsMap.get k (st_steps b) = Some s'
             /\ step_dependencies s' = step_dependencies s.
Proof.
  intros H Hget.
  destruct (outline_get k _ (st_steps b) s
              (eq_sym (reaches_outline _ _ H)) Hget) as (s' & Hs' & Hsk).
  exists s'. split; [exact Hs' |].
  unfold skeleton in Hsk. congruence.
Qed.


(** ** Success, and what it stands for *)

Lemma success_iff_nonfatal (I : Intent W) (w : W)
  (r : IntentExecutionResult W) (st : State W) :
  enabled (o_stopOnFailure (options I)) = true ->
  execute I w = Resolved r st ->
  (res_success r = true <-> Forall nonfatal (st_trace st)).
Proof.
  intros Hstop Hexec.
  destruct (execute_sound I w) as (t & _ & Ht & Hrun).
  rewrite Hexec in Ht, Hrun. simpl in Ht, Hrun. rewrite Hstop in Hrun.
  rewrite Ht. destruct (res_success r).
  - split; [intros _ | reflexivity].
    eapply run_trace_next; eassumption.
  - split; [discriminate |]. intros Hall. exfalso.
    eapply fatal_not_all; [| exact Hall].
    eapply run_trace_return; eassumption.
Qed.

(** The test made on the dependencies of a step, said without the code. *)
Lemma unmetDeps_nil (deps : list string) (m : JsMap.t (Step W)) :
  unmetDeps deps m = []
  <-> forall d, In d deps -> status_of d m = Some completed.
Proof.
  unfold unmetDeps, status_of. induction deps as [| d deps IH]; simpl.
  - split; [intros _ d [] | reflexivity].
  - destruct (JsMap.get d m) as [dep |] eqn:Hget.
    + destruct (step_status dep) eqn:Hs; simpl;
        try (split; [discriminate |];
             intros H; specialize (H d (or_introl eq_refl));
             rewrite Hget in H; simpl in H; congruence).
      rewrite IH. split.
      * intros H d' [<- | Hin]; [rewrite Hget; simpl; congruence | auto].
      * intros H d' Hin. apply H. right. exact Hin.
    + split; [discriminate |].
      intros H. specialize (H d (or_introl eq_refl)).
      rewrite Hget in H. discriminate H.
Qed.

Lemma has_unmet_dependencies_false (s : Step W) (m : JsMap.t (Step W)) :
  has_unmet_dependencies s m = false
  <-> forall deps d,
        step_dependencies s = Some deps -> In d deps ->
        status_of d m = Some completed.
Proof.
  unfold has_unmet_dependencies.
  destruct (step_dependencies s) as [deps |].
  - rewrite Nat.ltb_ge. split.
    + intros Hlen deps' d [= <-]. apply unmetDeps_nil.
      destruct (unmetDeps deps m); [reflexivity | simpl in Hlen; lia].
    + intros H.
      rewrite (proj2 (unmetDeps_nil deps m) (fun d => H deps d eq_refl)).
      simpl. lia.
  - split; [intros _ deps d [=] | reflexivity].
Qed.

(** A call of [attempt] that ends with a result has recorded the call of
    the action, if the step has one, and the call of [verifyStep]. *)
Lemma attempt_ran k (d : StepDefinition W) (st st' : State W)
  (r : VerificationResult) :
  attempt k d st = (inr r, st') ->
  exists ta,
    st_trace st' = (st_trace st ++ ta)%list
    /\ (def_action d <> None -> In (ObsAction k true) ta)
    /\ In (ObsVerify k (Some (success r))) ta
    /\ Forall (about k) ta.
Proof.
  unfold attempt. destruct (def_action d) as [act |].
  - destruct (act (st_world st)) as [[v | err] w1]; [| discriminate].
    destruct (verifyStep d _) as [[err | r'] w2]; intros [= <- <-].
    exists [ObsAction k true; ObsVerify k (Some (success r'))].
    split; [simpl; rewrite <- app_assoc; reflexivity |].
    split; [intros _; left; reflexivity |].
    split; [right; left; reflexivity | repeat constructor].
  - destruct (verifyStep d _) as [[err | r'] w2]; intros [= <- <-].
    exists [ObsVerify k (Some (success r'))].
    split; [reflexivity |].
    split; [intros H; contradiction H; reflexivity |].
    split; [left; reflexivity | repeat constructor].
Qed.

(** One turn of the loop that lets the run go on, when failures stop it. *)
Lemma run_step_turn I k (st st1 : State W) :
  enabled (o_stopOnFailure (options I)) = true ->
  run_step I k st = Next st1 ->
  exists s turn,
    JsMap.get k (st_steps st) = Some s
    /\ st_trace st1 = (st_trace st ++ turn)%list
    /\ ((has_unmet_dependencies s (st_steps st) = true
         /\ turn = [ObsStatus k skipped])
        \/ (has_unmet_dependencies s (st_steps st) = false
            /\ In (ObsStatus k running) turn
            /\ (def_action (step_definition s) <> None ->
                In (ObsAction k true) turn)
            /\ In (ObsVerify k (Some true)) turn
            /\ In (ObsStatus k completed) turn
            /\ Forall (about k) turn)).
Proof.
  intros Hstop Hrun. unfold run_step in Hrun.
  destruct (JsMap.get k (st_steps st)) as [s |] eqn:Hget; [| discriminate].
  exists s.
  destruct (has_unmet_dependencies s (st_steps st)) eqn:Hunmet.
  { injection Hrun as <-. exists [ObsStatus k skipped].
    split; [reflexivity |]. split; [reflexivity |]. left. auto. }
  destruct (invariants_phase_sound I true k (step_name s) st)
    as (t0 & [Ht0 _] & Hg0).
  destruct (invariants_phase I true k (step_name s) st)
    as [sa | ra sa | ea sa]; cbn [and_then] in Hrun; try discriminate.
  cbn [flow_state exit_of] in Ht0, Hg0.
  match type of Hrun with
  | context [attempt k ?d ?s0] =>
      destruct (attempt k d s0) as [outcome st2] eqn:Ea;
      assert (Hs0 : st_trace s0 = (st_trace sa ++ [ObsStatus k running])%list)
        by reflexivity
  end.
  pose proof (settle_attempt_sound I k (step_name s) outcome st2) as Hs.
  cbv zeta in Hs.
  destruct outcome as [error | r].
  { exfalso. cbn [verdict] in Hs. destruct Hs as [_ He].
    rewrite Hstop in He.
    destruct (settle_attempt I k (step_name s) (inl error) st2);
      cbn [and_then exit_of] in *; try discriminate.
    destruct (crashes (inl error)); discriminate. }
  cbn [verdict] in Hs.
  destruct (success r) eqn:Hr.
  - destruct Hs as [[Hts _] He].
    destruct (attempt_ran _ _ _ _ _ Ea) as (ta & Hta & Hact & Hver & Hab).
    rewrite Hr in Hver.
    destruct (settle_attempt I k (step_name s) (inr r) st2)
      as [st3 | r3 st3 | e3 st3]; cbn [flow_state exit_of] in *;
      try discriminate.
    cbn [and_then] in Hrun.
    destruct (invariants_phase_sound I false k (step_name s) st3)
      as (t1 & [Ht1 _] & Hg1).
    rewrite Hrun in Ht1, Hg1. cbn [flow_state exit_of] in Ht1, Hg1.
    exists (t0 ++ ObsStatus k running :: ta ++ ObsStatus k completed :: t1)%list.
    split; [reflexivity |]. split.
    { rewrite Ht1, Hts, Hta, Hs0, Ht0. repeat rewrite <- app_assoc. simpl.
      repeat rewrite <- app_assoc. reflexivity. }
    right. split; [reflexivity |].
    split; [apply in_or_app; right; left; reflexivity |].
    split.
    { intros Ha. apply in_or_app. right. right. apply in_or_app. left.
      apply Hact. exact Ha. }
    split.
    { apply in_or_app. right. right. apply in_or_app. left. exact Hver. }
    split.
    { apply in_or_app. right. right. apply in_or_app. right. left.
      reflexivity. }
    apply Forall_app. split; [eapply invariants_trace_about; eassumption |].
    constructor; [reflexivity |]. apply Forall_app. split; [exact Hab |].
    constructor; [reflexivity |]. eapply invariants_trace_about; eassumption.
  - exfalso. destruct Hs as [_ He]. rewrite Hstop in He.
    destruct (settle_attempt I k (step_name s) (inr r) st2);
      cbn [and_then exit_of crashes] in *; discriminate.
Qed.

(** The steps of a run that the step phase did not stop have all had
    their turn. *)
Lemma run_steps_accounted I (st0 : State W) ids :
  st_steps st0 = steps I ->
  enabled (o_stopOnFailure (options I)) = true ->
  forall (st st' : State W) (tb : list Obs),
    reaches st0 st -> tracks st0 st tb ->
    run_steps I ids st = Next st' ->
    exists ts,
      tracks st0 st' (tb ++ ts)
      /\ forall pre k post,
           ids = (pre ++ k :: post)%list ->
           exists t1 turn t2,
             (tb ++ ts)%list = (t1 ++ turn ++ t2)%list
             /\ turn_of I k t1 turn.
Proof.
  intros Hbase Hstop.
  induction ids as [| k0 ids IH]; intros st st' tb Hreach Htb Hrun.
  - injection Hrun as <-. exists []. rewrite app_nil_r.
    split; [exact Htb |]. intros [| p pre] k post [=].
  - cbn [run_steps] in Hrun.
    destruct (run_step I k0 st) as [st1 | r1 st1 | e1 st1] eqn:Hstep;
      cbn [and_then] in Hrun; try discriminate.
    destruct (run_step_turn I k0 st st1 Hstop Hstep)
      as (s & turn & Hget & Htrace & Hcases).
    destruct (run_step_sound I k0 st) as (t & Ht & _).
    rewrite Hstep in Ht. cbn [flow_state] in Ht.
    assert (t = turn).
    { destruct Ht as [Ht _]. rewrite Htrace in Ht.
      apply app_inv_head in Ht. congruence. }
    subst t.
    pose proof (run_step_reaches I k0 st) as Hr1.
    rewrite Hstep in Hr1. cbn [flow_state] in Hr1.
    destruct (IH st1 st' (tb ++ turn)%list
                (reaches_trans _ _ _ Hreach Hr1)
                (tracks_trans _ _ _ _ _ Htb Ht) Hrun)
      as (ts & Hts & Hpos).
    exists (turn ++ ts)%list. rewrite app_assoc.
    split; [exact Hts |].
    intros pre k post Hids.
    destruct pre as [| p pre]; simpl in Hids; injection Hids as <- ->;
      [| apply (Hpos pre k post eq_refl)].
    exists tb, turn, ts. split; [rewrite <- app_assoc; reflexivity |].
    destruct (outline_get k0 _ (st_steps st0) s (reaches_outline _ _ Hreach)
                Hget) as (s0 & Hget0 & Hsk).
    rewrite Hbase in Hget0.
    assert (Hdeps : step_dependencies s0 = step_dependencies s)
      by (unfold skeleton in Hsk; congruence).
    assert (Hdef : step_definition s0 = step_definition s)
      by (unfold skeleton in Hsk; congruence).
    assert (Hmet : has_unmet_dependencies s (st_steps st) = false
                   <-> dependencies_met s0 (steps I) tb).
    { rewrite has_unmet_dependencies_false. unfold dependencies_met.
      rewrite Hdeps. unfold status_after. rewrite <- Hbase.
      destruct Htb as [_ Hst].
      split; intros H deps d Hd Hin; [rewrite <- Hst | rewrite Hst]; eauto. }
    exists s0. split; [exact Hget0 |].
    destruct Hcases as [[Hun ->] | (Hun & H1 & H2 & H3 & H4 & H5)].
    + left. split; [| reflexivity]. intros Hm. apply Hmet in Hm. congruence.
    + right. rewrite Hdef. split; [apply Hmet; exact Hun |]. auto.
Qed.

(** C1, amended.  Run with [stopOnFailure] set, [execute] resolves with
    [success = true] exactly when nothing fatal was observed and every
    step has had its turn: every precondition and postcondition evaluated
    passed or was marked [critical: false]; every invariant check made
    passed; and every step of [stepOrder] whose dependencies were all
    [completed] when its turn came was set [running], had its action (if
    any) called without an error and its verification called with a
    passing verdict, and was set [completed], while a step with a
    dependency missing or not [completed] then was marked [skipped] and
    nothing more. *)
Theorem C1_success_iff_nothing_fatal (I : Intent W) (w : W)
  (r : IntentExecutionResult W) (st : State W) :
  enabled (o_stopOnFailure (options I)) = true ->
  execute I w = Resolved r st ->
  (res_success r = true
   <-> Forall nonfatal (st_trace st)
       /\ every_step_accounted I (st_trace st)).
Proof.
  intros Hstop Hexec.
  pose proof (success_iff_nonfatal I w r st Hstop Hexec) as Hiff.
  split; [| intros [Hall _]; apply Hiff; exact Hall].
  intros Hok. split; [apply Hiff; exact Hok |].
  unfold execute in Hexec.
  destruct (preconditions_phase_sound I (initial_state I w))
    as (tp & Htp & _).
  pose proof (preconditions_phase_reaches I (initial_state I w)) as Hrp.
  pose proof (preconditions_phase_returns I (initial_state I w)) as Hfp.
  destruct (preconditions_phase I (initial_state I w))
    as [st1 | r1 st1 | e1 st1]; cbn [and_then finish flow_state] in *;
    [| injection Hexec as <- <-; destruct Hfp as (_ & l & m & ->);
       discriminate Hok
     | discriminate Hexec].
  pose proof (run_steps_returns I (stepOrder I)
                (emit (EvPhase "execution") st1)) as Hfs.
  fold (steps_phase I st1) in Hfs.
  destruct (steps_phase I st1) as [st2 | r2 st2 | e2 st2] eqn:Hsteps;
    cbn [and_then finish] in *;
    [| injection Hexec as <- <-; destruct Hfs as (_ & l & m & ->);
       discriminate Hok
     | discriminate Hexec].
  unfold steps_phase in Hsteps.
  destruct (run_steps_accounted I (initial_state I w) (stepOrder I)
              eq_refl Hstop (emit (EvPhase "execution") st1) st2 tp)
    as (ts & Hts & Hpos);
    [apply reaches_emit; [exact Logic.I | exact Hrp]
    | apply tracks_emit; exact Htp
    | exact Hsteps |].
  destruct (postconditions_phase_sound I st2) as (tq & Htq & _).
  pose proof (postconditions_phase_returns I st2) as Hfq.
  destruct (postconditions_phase I st2) as [st3 | r3 st3 | e3 st3];
    cbn [finish flow_state] in *;
    [| injection Hexec as <- <-; destruct Hfq as (_ & l & m & ->);
       discriminate Hok
     | discriminate Hexec].
  injection Hexec as _ <-.
  pose proof (tracks_trans _ _ _ _ _ Hts Htq) as [Hall _].
  cbn [st_trace initial_state emit with_status app] in Hall |- *.
  intros pre k post Hids.
  destruct (Hpos pre k post Hids) as (t1 & turn & t2 & Hsplit & Hturn).
  exists t1, turn, (t2 ++ tq)%list. split; [| exact Hturn].
  rewrite Hall, Hsplit. rewrite <- !app_assoc. reflexivity.
Qed.
End Properties.

(** ** The model on concrete inputs *)

Example parseInt_examples :
  Js.parseInt "5" = Js.Fin 5
  /\ Js.parseInt "  -0x1f z" = Js.Fin (-31)
  /\ Js.parseInt "12.5" = Js.Fin 12
  /\ Js.parseInt "abc" = Js.NaN
  /\ Js.parseInt "9007199254740993" = Js.Fin 9007199254740992.
Proof. repeat split; vm_compute; reflexivity. Qed.

Example string_examples :
  Js.trim (" a b " ++ String "010" "") = "a b"
  /\ Js.endsWith "/ab/" "/" = true
  /\ Js.slice_1_m1 "/ab/" = "ab"
  /\ Js.slice_1_m1 "/" = ""
  /\ Js.includes "hello" "ll" = true
  /\ Js.includes "hello" "" = true
  /\ Js.includes "" "a" = false.
Proof. repeat split. Qed.

Example checkExpectation_examples :
  checkExpectation (host := demo_host) "yes" "true" = inr true
  /\ checkExpectation (host := demo_host) "no" "exit 0" = inr true
  /\ checkExpectation (host := demo_host) "abc" "contains:bc" = inr true
  /\ checkExpectation (host := demo_host) "abc" "/b/" = inr true
  /\ checkExpectation (host := demo_host) "7" "=7" = inr true
  /\ checkExpectation (host := demo_host) "x" "<7" = inr false.
Proof. repeat split. Qed.

(** Scenario A of the specification: one step, a command that succeeds, no
    expectation. *)
Example scenario_A :
  exists r st,
    execute (step "a1" "only" (command_step "true" Js.Undefined)
               (new_Intent "id" "goal" no_options)) []
    = Resolved r st
    /\ res_success r = true
    /\ List.map step_status (res_steps r) = [completed].
Proof. eexists. eexists. repeat split. Qed.

(** Scenario B: one step, a command that exits non-zero. *)
Example scenario_B :
  exists r st,
    execute (step "a1" "only" (command_step "false" Js.Undefined)
               (new_Intent "id" "goal" no_options)) []
    = Resolved r st
    /\ res_success r = false
    /\ res_failedStep r = Some "only".
Proof. eexists. eexists. repeat split. Qed.

(** [new Intent(goal, {stopOnFailure: undefined})]: the member given as
    [undefined] takes the place of the default, and the test made on it in
    [execute] fails, so the run goes on after a failed step as with
    [stopOnFailure: false]. *)
Example stopOnFailure_undefined :
  let I := step "a1" "first" (command_step "false" Js.Undefined)
             (new_Intent "id" "goal"
                (mkOptions Absent (Given None) Absent Absent Absent)) in
  o_stopOnFailure (options I) = None
  /\ enabled (o_stopOnFailure (options I)) = false
  /\ exists r st,
       execute I [] = Resolved r st
       /\ List.map step_status (res_steps r) = [failed]
       /\ res_success r = true.
Proof.
  split; [reflexivity |]. split; [reflexivity |].
  eexists. eexists. repeat split.
Qed.

(** ** The properties on concrete inputs *)

Lemma C8_numeric_comparator_witness :
  checkExpectation (host := demo_host) "12" "<40" = inr true.
Proof.
  destruct (C8_numeric_comparator (host := demo_host)) as [H _].
  rewrite (H "<"%char "40" "12"); [reflexivity | | discriminate | reflexivity].
  right; left; reflexivity.
Defined.

Lemma C4_command_failure_witness :
  exists st1,
    preconditions_phase bugfix_intent (initial_state bugfix_intent []) = Next st1
    /\ st_world st1 = ["false"]
    /\ execute bugfix_intent []
       = finish (and_then (steps_phase bugfix_intent st1)
                   (postconditions_phase bugfix_intent)).
Proof.
  assert (Hexec :
    execSync (fst (exec_request (inr (mkCommand "false" None None))))
      (snd (exec_request (inr (mkCommand "false" None None)))) []
    = (ExecThrows "Command failed: false", ["false"]))
    by (vm_compute; reflexivity).
  destruct (C4_command_failure (inr (mkCommand "false" None None))
              (Js.Str "fails") [] ["false"] "Command failed: false"
              Hexec) as (_ & _ & H).
  destruct (H bugfix_intent (mkCommand "false" None None) None (Some true)
              eq_refl eq_refl) as (st1 & H1 & _ & H3 & H4).
  exists st1. repeat split; assumption.
Defined.

(** C7.  A predicate that returns the truthy value 1, checked with no
    expected value, is reported as a failure: the default [true] is
    compared with [===]. *)
Theorem C7_truthy_result_rejected :
  Js.truthy (Js.Num (Js.Fin 1)) = true
  /\ (forall w : DemoWorld,
         FunctionVerifier_verify returns_one Js.Undefined w
         = (inr (createResult false "Function verification failed"
                   (Js.Num (Js.Fin 1)) (Js.Bool true)), w))
  /\ (exists r st, execute one_intent [] = Resolved r st
                   /\ res_success r = false
                   /\ res_failedStep r = Some "first").
Proof.
  split; [reflexivity |]. split; [reflexivity |].
  eexists. eexists. repeat split.
Qed.

(** C2.  With [stopOnFailure: false], a run whose only step fails its
    verification resolves with [success = true] and status [completed]. *)
Theorem C2_failed_step_reported_as_success :
  o_stopOnFailure (options lenient_intent) = Some false
  /\ exists r st,
       execute lenient_intent [] = Resolved r st
       /\ List.map step_status (res_steps r) = [failed]
       /\ res_success r = true
       /\ res_status r = intent_completed.
Proof.
  split; [reflexivity |]. eexists. eexists. repeat split.
Qed.

Lemma C1_success_iff_nothing_fatal_witness :
  exists r st,
    execute bugfix_intent [] = Resolved r st
    /\ (res_success r = true
        <-> Forall nonfatal (st_trace st)
            /\ every_step_accounted bugfix_intent (st_trace st)).
Proof.
  destruct (execute bugfix_intent []) as [r st | err st] eqn:E;
    [| vm_compute in E; discriminate].
  exists r, st. split; [reflexivity |].
  apply (C1_success_iff_nothing_fatal bugfix_intent [] r st);
    [reflexivity | exact E].
Defined.

(** C1 as worded fails: on [tolerant_intent] a precondition marked
    [critical: false] was evaluated and failed, and [execute] still
    resolved with [success = true]. *)
Lemma C1_counterexample : ~ success_iff_all_passed tolerant_intent [].
Proof.
  intros H.
  assert (E : exists r st,
             execute tolerant_intent [] = Resolved r st
             /\ res_success r = true
             /\ st_trace st = [ObsCheck PhasePre (Some false) false])
    by (eexists; eexists; repeat split).
  destruct E as (r & st & E & Hok & Htr).
  destruct (H r st E) as [Hall _]. specialize (Hall Hok).
  rewrite Htr in Hall. inversion Hall as [| ? ? Hhead _].
  discriminate Hhead.
Qed.

Lemma C3_first_failure_halts_witness :
  status_of "b2" (st_steps (final_state (execute chained_intent [])))
  = Some pending
  /\ writes "b2" (st_trace (final_state (execute chained_intent []))) = [].
Proof.
  assert (Hnd : NoDup (stepOrder chained_intent)).
  { repeat constructor; simpl; intuition discriminate. }
  assert (Hfresh : fresh chained_intent).
  { repeat apply fresh_step. apply fresh_new_Intent. }
  assert (Hin : In (ObsVerify "a1" (Some false))
                  (st_trace (final_state (execute chained_intent [])))).
  { vm_compute. right. left. reflexivity. }
  destruct (C3_first_failure_halts chained_intent [] [] ["b2"] "a1"
              eq_refl Hnd Hfresh eq_refl Hin) as [_ H].
  destruct (H "b2" (or_introl eq_refl)) as [Hw Hs].
  split; [| exact Hw].
  destruct (status_of "b2" (st_steps (final_state (execute chained_intent []))))
    as [s |] eqn:E; [| vm_compute in E; discriminate].
  rewrite (Hs s eq_refl). reflexivity.
Defined.

Lemma C5_unmet_dependency_skips_witness :
  exists st',
    run_step chained_intent "b2" (initial_state chained_intent []) = Next st'
    /\ status_of "b2" (st_steps st') = Some skipped
    /\ st_world st' = [].
Proof.
  destruct (C5_unmet_dependency_skips (host := demo_host)) as [H _].
  assert (Hget : exists s,
             JsMap.get "b2" (st_steps (initial_state chained_intent []))
             = Some s /\ step_dependencies s = Some ["a1"])
    by (eexists; split; reflexivity).
  destruct Hget as (s & Hget & Hdeps).
  assert (Hst : status_of "a1" (st_steps (initial_state chained_intent []))
                <> Some completed)
    by (vm_compute; discriminate).
  destruct (H chained_intent "b2" (initial_state chained_intent []) s
              ["a1"] "a1" Hget Hdeps (or_introl eq_refl) Hst)
    as (st' & Hrun & Hsk & Hw & _).
  exists st'. repeat split; assumption.
Defined.


(** The action of [null_intent] throws [null]: the step is marked
    [failed], the [catch] clause throws on [error.message], and [execute]
    rejects. *)
Example null_action_rejects :
  exists st,
    execute null_intent []
    = Rejected "Cannot read properties of null (reading 'message')" st
    /\ List.map step_status (JsMap.values (st_steps st)) = [failed]
    /\ List.map step_result (JsMap.values (st_steps st)) = [None]
    /\ st_events st = [EvStart "goal" 1; EvPhase "execution";
                       EvStepStart "first"].
Proof. eexists. repeat split. Qed.


Lemma C9_status_only_advances_witness :
  advancing
    (pending
       :: writes "a1" (st_trace (final_state (execute chained_intent [])))).
Proof.
  assert (Hnd : NoDup (stepOrder chained_intent)).
  { repeat constructor; simpl; intuition discriminate. }
  destruct (C9_status_only_advances chained_intent [] Hnd "a1" pending
              eq_refl) as (_ & _ & H & _).
  exact (H eq_refl).
Defined.

Lemma C10_failed_invariant_aborts_witness :
  exists r st,
    execute guarded_intent [] = Resolved r st /\ res_success r = false.
Proof.
  destruct (C10_failed_invariant_aborts (host := demo_host)) as [H _].
  refine (proj1 (H guarded_intent [] _)).
  vm_compute. apply Exists_cons_hd. reflexivity.
Defined.

(** * Further properties *)

Section MatcherProperties.
Context {W : Type} {host : Host W}.

(** ** The expectation matcher on its own *)

Lemma prefix_empty (p : string) : String.prefix p "" = true <-> p = "".
Proof. destruct p; simpl; split; congruence. Qed.

Lemma includes_empty_hay (needle : string) :
  Js.includes "" needle = true <-> needle = "".
Proof.
  destruct needle; simpl; split; congruence.
Qed.

Lemma prefix_slice_empty (p e : string) :
  String.prefix p e = true -> Js.slice_from (String.length p) e = "" -> e = p.
Proof.
  revert e. induction p as [| c p IH]; intros e Hp Hs; simpl in *.
  - exact Hs.
  - destruct e as [| c' e]; simpl in *; [discriminate |].
    destruct (ascii_dec c c') as [<- | _]; [| discriminate].
    f_equal. apply IH; assumption.
Qed.

Lemma checkExpectation_silent (e : string) :
  regex_shaped e = false ->
  (checkExpectation "" e = inr true
   <-> e = "false" \/ e = "exit 0" \/ e = "success" \/ e = "contains:"
       \/ e = "").
Proof.
  unfold regex_shaped. intros Hre. unfold checkExpectation. rewrite Hre.
  destruct (is_comparator e) eqn:Hc.
  { split; [discriminate |].
    intros [-> | [-> | [-> | [-> | ->]]]]; discriminate Hc. }
  destruct (String.eqb_spec e "true") as [-> | Ht].
  { split; [discriminate |].
    intros [H | [H | [H | [H | H]]]]; discriminate H. }
  destruct (String.eqb_spec e "false") as [-> | Hf]; cbn [orb].
  { split; [auto | reflexivity]. }
  destruct (String.eqb_spec e "exit 0") as [-> | Hx]; cbn [orb].
  { split; [auto | reflexivity]. }
  destruct (String.eqb_spec e "success") as [-> | Hs]; cbn [orb].
  { split; [auto | reflexivity]. }
  destruct (Js.startsWith e "contains:") eqn:Hp; cbn [Js.includes].
  - destruct (String.prefix (Js.slice_from 9 e) "") eqn:Hrest.
    + apply prefix_empty in Hrest.
      pose proof (prefix_slice_empty "contains:" e Hp Hrest) as ->.
      split; [auto | reflexivity].
    + split; [discriminate |].
      intros [-> | [-> | [-> | [-> | ->]]]]; try congruence;
        first [discriminate Hrest | discriminate Hp].
  - destruct (String.prefix e "") eqn:He.
    + apply prefix_empty in He. subst. split; [auto | reflexivity].
    + split; [discriminate |].
      intros [-> | [-> | [-> | [-> | ->]]]]; try congruence;
        first [discriminate He | discriminate Hp].
Qed.

(** X1.  On empty output only five expectations match, apart from those
    read as a regular expression: "false", "exit 0", "success",
    "contains:" and the empty text. *)
Theorem X1_silent_output (e : string) :
  regex_shaped e = false ->
  (checkExpectation "" e = inr true
   <-> e = "false" \/ e = "exit 0" \/ e = "success" \/ e = "contains:"
       \/ e = "").
Proof. exact (checkExpectation_silent e). Qed.


(** *** The numeric rule *)

Lemma is_digit_cases (c : ascii) :
  Js.is_digit c = true ->
  exists d, 0 <= d <= 9 /\ Js.digit_value c = Some d
            /\ Js.is_space c = false
            /\ c <> "-"%char /\ c <> "+"%char
            /\ c <> "x"%char /\ c <> "X"%char.
Proof.
  destruct c as [[] [] [] [] [] [] [] []]; simpl; try discriminate; intros _;
    eexists; (split; [| split; [reflexivity |]]);
    try lia; repeat split; discriminate.
Qed.

Lemma read_digits_some (s : string) : forall acc,
  List.forallb Js.is_digit (list_ascii_of_string s) = true ->
  (s <> "" \/ acc <> None) ->
  exists z, Js.read_digits 10 s acc = Some z.
Proof.
  induction s as [| c s IH]; intros acc Hd Hne; simpl in *.
  - destruct Hne as [Hne | Hne]; [congruence |].
    destruct acc as [a |]; [exists a; reflexivity | congruence].
  - apply Bool.andb_true_iff in Hd as [Hc Hd].
    destruct (is_digit_cases c Hc) as (d & Hrange & Hv & _).
    rewrite Hv. destruct (Z.ltb_spec d 10) as [_ | Hbad]; [| lia].
    apply IH; [exact Hd | right; discriminate].
Qed.

(** [parseInt] of a run of digits is a number, never [NaN]. *)
Lemma parseInt_digits (digits : string) :
  digits <> "" ->
  List.forallb Js.is_digit (list_ascii_of_string digits) = true ->
  exists z, Js.parseInt digits = Js.number_of_Z z.
Proof.
  intros Hne Hd. destruct digits as [| c rest]; [congruence |].
  pose proof Hd as Hall. simpl in Hd.
  apply Bool.andb_true_iff in Hd as [Hc Hrest].
  destruct (is_digit_cases c Hc) as (d & _ & _ & Hsp & Hm & Hp & Hx & HX).
  unfold Js.parseInt. cbn [Js.trimStart]. rewrite Hsp.
  assert (Hsign :
    match String c rest with
    | String "-" s' => (true, s')
    | String "+" s' => (false, s')
    | _ => (false, String c rest)
    end = (false, String c rest)).
  { destruct c as [[] [] [] [] [] [] [] []]; try reflexivity; congruence. }
  rewrite Hsign.
  assert (Hradix :
    match String c rest with
    | String "0" (String "x" s') => (16, s')
    | String "0" (String "X" s') => (16, s')
    | _ => (10, String c rest)
    end = (10, String c rest)).
  { destruct rest as [| c' rest']; [destruct c as [[] [] [] [] [] [] [] []];
                                    reflexivity |].
    simpl in Hrest. apply Bool.andb_true_iff in Hrest as [Hc' _].
    destruct (is_digit_cases c' Hc') as (d' & _ & _ & _ & _ & _ & Hx' & HX').
    destruct c as [[] [] [] [] [] [] [] []]; try reflexivity;
      destruct c' as [[] [] [] [] [] [] [] []]; try reflexivity; congruence. }
  rewrite Hradix.
  destruct (read_digits_some (String c rest) None Hall) as (z & Hz);
    [left; discriminate |].
  rewrite Hz. exists z. reflexivity.
Qed.

Lemma number_of_Z_not_NaN (z : Z) : Js.number_of_Z z <> Js.NaN.
Proof.
  unfold Js.number_of_Z. destruct (_ <? _); [discriminate |].
  cbv zeta. destruct (_ <=? _); discriminate.
Qed.

Lemma number_trichotomy (a b : Js.number) :
  a <> Js.NaN -> b <> Js.NaN ->
  (Js.num_gt a b = true /\ Js.num_lt a b = false /\ Js.num_eq a b = false)
  \/ (Js.num_gt a b = false /\ Js.num_lt a b = true /\ Js.num_eq a b = false)
  \/ (Js.num_gt a b = false /\ Js.num_lt a b = false /\ Js.num_eq a b = true).
Proof.
  intros Ha Hb. unfold Js.num_gt.
  destruct a as [| [|] | x], b as [| [|] | y]; try congruence; simpl; auto.
  destruct (Z.ltb_spec y x), (Z.ltb_spec x y), (Z.eqb_spec x y);
    try lia; auto.
Qed.

Lemma checkExpectation_comparator (operator : ascii) (digits output : string) :
  (operator = ">" \/ operator = "<" \/ operator = "=")%char ->
  digits <> "" ->
  List.forallb Js.is_digit (list_ascii_of_string digits) = true ->
  checkExpectation output (String operator digits)
  = inr (negb (Js.isNaN (Js.parseInt output))
         && compare_with operator (Js.parseInt output) (Js.parseInt digits)).
Proof.
  intros Hop Hne Hdig.
  pose proof (comparator_shape operator digits Hop Hne Hdig) as Hcmp.
  unfold checkExpectation. rewrite Hcmp.
  assert (Hslash : Js.startsWith (String operator digits) "/" = false)
    by (destruct Hop as [-> | [-> | ->]]; reflexivity).
  rewrite Hslash. cbn [andb Js.slice_from String.get].
  destruct (Js.isNaN (Js.parseInt output)); [reflexivity |].
  destruct Hop as [-> | [-> | ->]]; reflexivity.
Qed.

(** X2.  For an output that [parseInt] can read, exactly one of the three
    comparators against the same digits matches. *)
Theorem X2_comparators_exclusive (digits output : string) :
  digits <> "" ->
  List.forallb Js.is_digit (list_ascii_of_string digits) = true ->
  Js.parseInt output <> Js.NaN ->
  let g := matched (checkExpectation output (String ">" digits)) in
  let l := matched (checkExpectation output (String "<" digits)) in
  let e := matched (checkExpectation output (String "=" digits)) in
  (g = true /\ l = false /\ e = false)
  \/ (g = false /\ l = true /\ e = false)
  \/ (g = false /\ l = false /\ e = true).
Proof.
  intros Hne Hdig Hout g l e. subst g l e.
  rewrite !checkExpectation_comparator by auto.
  destruct (parseInt_digits digits Hne Hdig) as (z & Hz).
  assert (Hb : Js.parseInt digits <> Js.NaN)
    by (rewrite Hz; apply number_of_Z_not_NaN).
  destruct (Js.parseInt output) as [| s | x] eqn:Ho; [congruence | |];
    cbn [Js.isNaN negb andb matched];
    unfold compare_with; cbn [Ascii.eqb Bool.eqb];
    match goal with
    | |- context [Js.num_gt ?a ?b] =>
        destruct (number_trichotomy a b ltac:(discriminate) Hb)
          as [(-> & -> & ->) | [(-> & -> & ->) | (-> & -> & ->)]]
    end; auto.
Qed.

(** ** The command backend, case by case *)

Lemma CommandVerifier_verify_returns cmd expected (w w' : W) stdout :
  execSync (fst (exec_request cmd)) (snd (exec_request cmd)) w
  = (ExecReturns stdout, w') ->
  CommandVerifier_verify cmd expected w
  = (if is_undefined expected then
       createResult true "Command executed successfully"
         (Js.Str (Js.trim stdout)) Js.Undefined
     else
       match checkExpectation_any (Js.trim stdout) expected with
       | inr matches =>
           createResult matches
             (if matches then "Output matches expectation"
              else "Output does not match")
             (Js.Str (Js.trim stdout)) expected
       | inl err => command_failed err expected
       end, w').
Proof.
  unfold CommandVerifier_verify. destruct (exec_request cmd) as [text opts].
  simpl. intros ->. destruct (is_undefined expected); [reflexivity |].
  destruct (checkExpectation_any _ _); reflexivity.
Qed.

(** X3.  An expectation that is a number, a boolean, [null], or an object
    without the methods of a text makes the check fail, whatever the
    command does.  A [String] object does have those methods: the check
    goes through the matcher with its text, where the words "true",
    "false", "exit 0" and "success" are texts to find like any other, and
    when the command exits non-zero the check fails, the words "fails"
    and "error" included. *)
Theorem X3_non_text_expectation_fails
  (cmd : string + VerificationCommand) (expected : Js.value) (w : W) :
  (not_textual expected = true ->
   success (fst (CommandVerifier_verify cmd expected w)) = false)
  /\ forall address e,
       expected = Js.StrObj address e ->
       (success (fst (CommandVerifier_verify cmd expected w)) = true
        <-> exists stdout w',
              execSync (fst (exec_request cmd)) (snd (exec_request cmd)) w
              = (ExecReturns stdout, w')
              /\ checkExpectation_object (Js.trim stdout) e = inr true)
       /\ (regex_shaped e = false -> is_comparator e = false ->
           Js.startsWith e "contains:" = false ->
           forall stdout,
             checkExpectation_object stdout e = inr (Js.includes stdout e)).
Proof.
  split.
  - intros Hnt.
    destruct (execSync (fst (exec_request cmd)) (snd (exec_request cmd)) w)
      as [[stdout | err] w'] eqn:He.
    + rewrite (CommandVerifier_verify_returns _ _ _ _ _ He).
      destruct expected; try discriminate; reflexivity.
    + rewrite (CommandVerifier_verify_throws _ _ _ _ _ He).
      destruct expected; try discriminate; reflexivity.
  - intros address e ->. split.
    + destruct (execSync (fst (exec_request cmd)) (snd (exec_request cmd)) w)
        as [[stdout | err] w'] eqn:He.
      * rewrite (CommandVerifier_verify_returns _ _ _ _ _ He).
        cbn [is_undefined checkExpectation_any fst].
        destruct (checkExpectation_object (Js.trim stdout) e)
          as [msg | [|]] eqn:Hm; cbn [success createResult].
        -- split; [| intros (s1 & w1 & [= <- <-] & H); congruence].
           unfold command_failed. cbn [Js.strict_eq orb success createResult].
           discriminate.
        -- split; [intros _; exists stdout, w'; auto | reflexivity].
        -- split; [discriminate |].
           intros (s1 & w1 & [= <- <-] & H). congruence.
      * rewrite (CommandVerifier_verify_throws _ _ _ _ _ He).
        cbn [fst]. unfold command_failed.
        cbn [Js.strict_eq orb success createResult].
        split; [discriminate | intros (s1 & w1 & [=] & _)].
    + intros Hre Hcmp Hcontains stdout. unfold checkExpectation_object.
      unfold regex_shaped in Hre. rewrite Hre, Hcmp, Hcontains. reflexivity.
Qed.

(** X4.  An expectation written [/pattern/]: the check succeeds exactly when
    the command exits zero, the pattern compiles and its test accepts the
    trimmed output; a pattern that does not compile is reported as a failure
    of the command, with the message of the syntax error. *)
Theorem X4_regex_expectation
  (cmd : string + VerificationCommand) (e : string) (w : W) :
  regex_shaped e = true ->
  let r := fst (CommandVerifier_verify cmd (Js.Str e) w) in
  (success r = true
   <-> exists stdout w' test,
         execSync (fst (exec_request cmd)) (snd (exec_request cmd)) w
         = (ExecReturns stdout, w')
         /\ RegExp_new (Js.slice_1_m1 e) = inr test
         /\ test (Js.trim stdout) = true)
  /\ (forall stdout w' err,
         execSync (fst (exec_request cmd)) (snd (exec_request cmd)) w
         = (ExecReturns stdout, w') ->
         RegExp_new (Js.slice_1_m1 e) = inl err ->
         r = createResult false ("Command failed: " ++ err)
               (Js.Str err) (Js.Str e)).
Proof.
  intros Hre. unfold regex_shaped in Hre. cbv zeta.
  assert (Hnot : forall err,
             success (command_failed err (Js.Str e)) = false).
  { intros err. destruct (success (command_failed err (Js.Str e))) eqn:Hs;
      [| reflexivity].
    apply command_failed_success in Hs.
    destruct Hs as [[= ->] | [= ->]]; discriminate Hre. }
  assert (Hfailed : forall err,
             command_failed err (Js.Str e)
             = createResult false ("Command failed: " ++ err)
                 (Js.Str err) (Js.Str e)).
  { intros err. specialize (Hnot err). unfold command_failed in *.
    destruct (_ || _); [discriminate Hnot | reflexivity]. }
  destruct (execSync (fst (exec_request cmd)) (snd (exec_request cmd)) w)
    as [[stdout | err] w'] eqn:He.
  - rewrite (CommandVerifier_verify_returns _ _ _ _ _ He).
    cbn [is_undefined checkExpectation_any fst]. unfold checkExpectation.
    rewrite Hre. destruct (RegExp_new (Js.slice_1_m1 e)) as [err | test].
    + split.
      * rewrite Hnot. split; [discriminate |].
        intros (s & w1 & t & _ & [=] & _).
      * intros s w1 err' _ [= <-]. apply Hfailed.
    + split.
      * cbn [success createResult]. split.
        -- intros Ht. exists stdout, w', test. auto.
        -- intros (s & w1 & t & [= <- <-] & [= <-] & Ht). exact Ht.
      * intros s w1 err _ [=].
  - rewrite (CommandVerifier_verify_throws _ _ _ _ _ He). cbn [fst].
    split.
    + rewrite Hnot. split; [discriminate |].
      intros (s & w1 & t & [=] & _).
    + intros s w1 err' [=].
Qed.

(** X5.  The words "fails" and "error" mean failure only when the command
    exits non-zero; on a command that exits zero they are matched as plain
    text against the output. *)
Theorem X5_failure_words
  (cmd : string + VerificationCommand) (word : string) (w : W) :
  word = "fails" \/ word = "error" ->
  (success (fst (CommandVerifier_verify cmd (Js.Str word) w)) = true
   <-> (exists err w',
           execSync (fst (exec_request cmd)) (snd (exec_request cmd)) w
           = (ExecThrows err, w'))
       \/ (exists stdout w',
              execSync (fst (exec_request cmd)) (snd (exec_request cmd)) w
              = (ExecReturns stdout, w')
              /\ Js.includes (Js.trim stdout) word = true)).
Proof.
  intros Hword.
  destruct (execSync (fst (exec_request cmd)) (snd (exec_request cmd)) w)
    as [[stdout | err] w'] eqn:He.
  - rewrite (CommandVerifier_verify_returns _ _ _ _ _ He).
    cbn [is_undefined checkExpectation_any fst].
    assert (Hm : checkExpectation (Js.trim stdout) word
                 = inr (Js.includes (Js.trim stdout) word))
      by (destruct Hword as [-> | ->]; reflexivity).
    rewrite Hm. cbn [success createResult]. split.
    + intros Hin. right. exists stdout, w'. auto.
    + intros [(e & w1 & [=]) | (s & w1 & [= <- <-] & Hin)]. exact Hin.
  - rewrite (CommandVerifier_verify_throws _ _ _ _ _ He). cbn [fst].
    split.
    + intros _. left. exists err, w'. reflexivity.
    + intros _. apply command_failed_success.
      destruct Hword as [-> | ->]; auto.
Qed.

(** X6.  With no expectation, or with "exit 0" or "success", the check
    succeeds exactly when the command exits zero, whatever it prints. *)
Theorem X6_exit_status_only
  (cmd : string + VerificationCommand) (expected : Js.value) (w : W) :
  expected = Js.Undefined \/ expected = Js.Str "exit 0"
  \/ expected = Js.Str "success" ->
  (success (fst (CommandVerifier_verify cmd expected w)) = true
   <-> exists stdout w',
         execSync (fst (exec_request cmd)) (snd (exec_request cmd)) w
         = (ExecReturns stdout, w')).
Proof.
  intros Hexp.
  destruct (execSync (fst (exec_request cmd)) (snd (exec_request cmd)) w)
    as [[stdout | err] w'] eqn:He.
  - rewrite (CommandVerifier_verify_returns _ _ _ _ _ He).
    split; [intros _; exists stdout, w'; reflexivity | intros _].
    destruct Hexp as [-> | [-> | ->]]; reflexivity.
  - rewrite (CommandVerifier_verify_throws _ _ _ _ _ He). cbn [fst].
    split; [| intros (s & w1 & [=])].
    intros Hs. apply command_failed_success in Hs.
    destruct Hexp as [-> | [-> | ->]]; destruct Hs as [[=] | [=]].
Qed.

(** ** The predicate backend, exactly *)

(** X7.  The check of a predicate succeeds exactly when the predicate
    returns (does not throw) a value strictly equal to the expectation,
    [true] standing in for an omitted one; the check itself throws
    exactly when the predicate throws [null] or [undefined]; the world is
    left as the predicate left it. *)
Theorem X7_predicate_strict_equality
  (fn : VerificationFunction W) (expected : Js.value) (w : W) :
  ((exists r,
       fst (FunctionVerifier_verify fn expected w) = inr r
       /\ success r = true)
   <-> exists v w',
         fn w = (Returns v, w')
         /\ Js.strict_eq v
              (if is_undefined expected then Js.Bool true else expected)
            = true)
  /\ ((exists type_error,
          fst (FunctionVerifier_verify fn expected w) = inl type_error)
      <-> exists w',
            fn w = (Throws ThrownNull, w')
            \/ fn w = (Throws ThrownUndefined, w'))
  /\ snd (FunctionVerifier_verify fn expected w) = snd (fn w).
Proof.
  unfold FunctionVerifier_verify.
  destruct (fn w) as [[v | error] w'] eqn:Hfn.
  - cbn [fst snd]. split; [| split; [| reflexivity]].
    + assert (Hsame :
        (if is_undefined
              (if is_undefined expected then Js.Bool true else expected)
         then Js.truthy v
         else Js.strict_eq v
                (if is_undefined expected then Js.Bool true else expected))
        = Js.strict_eq v
            (if is_undefined expected then Js.Bool true else expected))
        by (destruct expected; reflexivity).
      rewrite Hsame. split.
      * intros (r & [= <-] & H). exists v, w'. auto.
      * intros (v' & w1 & [= <- <-] & H). eexists. split; [reflexivity |].
        exact H.
    + split; [intros (e & [=]) | intros (w1 & [[=] | [=]])].
  - destruct error as [msg | | |]; cbn [read_message fst snd];
      (split; [| split; [| reflexivity]]).
    + split; [intros (r & [= <-] & H); discriminate H |].
      intros (v & w1 & [=] & _).
    + split; [intros (e & [=]) | intros (w1 & [[=] | [=]])].
    + split; [intros (r & [= <-] & H); discriminate H |].
      intros (v & w1 & [=] & _).
    + split; [intros (e & [=]) | intros (w1 & [[=] | [=]])].
    + split; [intros (r & [=] & _) | intros (v & w1 & [=] & _)].
    + split; [intros _; exists w'; left; reflexivity |].
      intros _. eexists. reflexivity.
    + split; [intros (r & [=] & _) | intros (v & w1 & [=] & _)].
    + split; [intros _; exists w'; right; reflexivity |].
      intros _. eexists. reflexivity.
Qed.

End MatcherProperties.

Section EngineProperties.
Context {W : Type} {host : Host W}.

(** How the promise settles, from the flow of the phases. *)
Lemma execute_cases I (w : W) :
  let flow := and_then (preconditions_phase I (initial_state I w))
                (fun st => and_then (steps_phase I st)
                             (postconditions_phase I)) in
  returns_failure flow
  /\ execute I w = finish flow.
Proof.
  split; [| reflexivity].
  apply and_then_returns; [apply preconditions_phase_returns |].
  intros st. apply and_then_returns;
    [apply run_steps_returns | apply postconditions_phase_returns].
Qed.

(** ** The result record *)

Lemma check_conditions_reason ph label cs : forall st : State W,
  reason_given (check_conditions ph label cs st).
Proof.
  induction cs as [| c cs IH]; intros st; simpl; [exact Logic.I |].
  destruct (verifyCheck c (st_world st)) as [[err | r] w']; [exact Logic.I |].
  destruct (negb (success r) && _); [| apply IH].
  simpl. left. eexists. reflexivity.
Qed.

Lemma check_invariants_reason before k name invs : forall st : State W,
  reason_given (check_invariants before k name invs st).
Proof.
  induction invs as [| c cs IH]; intros st; simpl; [exact Logic.I |].
  destruct (verifyCheck c (st_world st)) as [[err | r] w']; [exact Logic.I |].
  destruct (negb (success r)); [| apply IH].
  simpl. left. eexists. reflexivity.
Qed.

Lemma invariants_phase_reason I before k name (st : State W) :
  reason_given (invariants_phase I before k name st).
Proof.
  unfold invariants_phase. destruct (invariants (contract I));
    [apply check_invariants_reason | exact Logic.I].
Qed.

(** What [attempt] caught is an [Error] of [verifyStep], unless it is
    what the action threw. *)
Lemma attempt_thrown k (d : StepDefinition W) (st st' : State W) error :
  attempt k d st = (inl error, st') ->
  (exists m, error = ErrorObject m)
  \/ st_trace st' = (st_trace st ++ [ObsAction k false])%list.
Proof.
  unfold attempt. destruct (def_action d) as [act |].
  - destruct (act (st_world st)) as [[v | err] w1].
    + destruct (verifyStep d _) as [[err | r] w2]; intros [= <- <-].
      left. eexists. reflexivity.
    + intros [= <- <-]. right. reflexivity.
  - destruct (verifyStep d _) as [[err | r] w2]; intros [= <- <-].
    left. eexists. reflexivity.
Qed.

Lemma settle_attempt_reason I k name outcome (st : State W) :
  (forall error,
      outcome = inl error ->
      (exists m, error = ErrorObject m)
      \/ exists t, st_trace st = (t ++ [ObsAction k false])%list) ->
  reason_given (settle_attempt I k name outcome st).
Proof.
  intros Hthrown. destruct outcome as [error | r]; simpl.
  - destruct (Hthrown error eq_refl) as [[m ->] | [t Ht]]; simpl.
    + destruct (enabled (o_stopOnFailure (options I))); simpl;
        [left; eexists; reflexivity | exact Logic.I].
    + destruct (read_message error) as [type_error | [m |]];
        [exact Logic.I | |];
        (destruct (enabled (o_stopOnFailure (options I))); simpl;
         [| exact Logic.I]).
      * left. eexists. reflexivity.
      * right. split; [reflexivity |]. exists k, t.
        rewrite Ht, <- app_assoc. reflexivity.
  - destruct (success r); [exact Logic.I |].
    destruct (enabled (o_stopOnFailure (options I))); simpl;
      [left; eexists; reflexivity | exact Logic.I].
Qed.

Lemma and_then_reason (f : Flow W) (k : State W -> Flow W) :
  reason_given f -> (forall st, reason_given (k st)) ->
  reason_given (and_then f k).
Proof. destruct f; simpl; auto. Qed.

Lemma run_step_reason I k (st : State W) : reason_given (run_step I k st).
Proof.
  unfold run_step. destruct (JsMap.get k (st_steps st)); [| exact Logic.I].
  destruct (has_unmet_dependencies _ _); [exact Logic.I |].
  apply and_then_reason; [apply invariants_phase_reason |].
  intros st1. destruct (attempt _ _ _) as [outcome st2] eqn:Ea.
  apply and_then_reason; [| intros; apply invariants_phase_reason].
  apply settle_attempt_reason. intros error ->.
  destruct (attempt_thrown _ _ _ _ _ Ea) as [H | H]; [left; exact H |].
  right. eexists. exact H.
Qed.

Lemma run_steps_reason I ids : forall st : State W,
  reason_given (run_steps I ids st).
Proof.
  induction ids as [| k ids IH]; intros st; simpl; [exact Logic.I |].
  apply and_then_reason; [apply run_step_reason | exact IH].
Qed.

Lemma execute_reason I (w : W) :
  reason_given
    (and_then (preconditions_phase I (initial_state I w))
       (fun st => and_then (steps_phase I st) (postconditions_phase I))).
Proof.
  apply and_then_reason.
  - unfold preconditions_phase. destruct (preconditions (contract I));
      [apply check_conditions_reason | exact Logic.I].
  - intros st. apply and_then_reason; [apply run_steps_reason |].
    intros st'. unfold postconditions_phase.
    destruct (postconditions (contract I));
      [apply check_conditions_reason | exact Logic.I].
Qed.

(** X8.  The result agrees with the Intent it describes: it carries the
    steps and the log of the final state and the final status, which is
    [completed] exactly on success and [failed] otherwise; a failed step
    label is present exactly on failure; a failure reason is never
    present on success, and on failure it is present unless the run was
    stopped by a step whose action threw a value that has no message. *)
Theorem X8_result_is_consistent (I : Intent W) (w : W)
  (r : IntentExecutionResult W) (st : State W) :
  execute I w = Resolved r st ->
  res_steps r = JsMap.values (st_steps st)
  /\ res_verificationLog r = st_log st
  /\ res_status r = st_status st
  /\ (res_success r = true
      /\ res_status r = intent_completed
      /\ res_failedStep r = None /\ res_failureReason r = None
      \/ res_success r = false
         /\ res_status r = intent_failed
         /\ (exists label, res_failedStep r = Some label)
         /\ ((exists reason, res_failureReason r = Some reason)
             \/ res_failureReason r = None
                /\ exists k t,
                     st_trace st
                     = (t ++ [ObsAction k false; ObsStatus k failed])%list)).
Proof.
  destruct (execute_cases I w) as [Hret ->]. cbv zeta in Hret.
  pose proof (execute_reason I w) as Hreason.
  destruct (and_then _ _) as [st1 | r1 st1 | err st1]; simpl;
    [intros [= <- <-]; simpl | intros [= <- <-]; simpl | discriminate].
  - repeat split. left. repeat split.
  - simpl in Hreason. destruct Hret as (Hs & label & reason & ->). simpl.
    repeat split; [symmetry; exact Hs |].
    right. repeat split; [eauto | exact Hreason].
Qed.

(** ** Intents made by the builder *)

Lemma covered_Built (I : Intent W) : Built I -> covered I.
Proof.
  induction 1 as [| | | | rnd name d I HB IH]; try exact IHBuilt.
  - intros k [].
  - intros k Hin. unfold step in *. simpl in *. rewrite get_set.
    apply in_app_or in Hin.
    destruct (String.eqb_spec k rnd) as [-> | Hne]; [discriminate |].
    destruct Hin as [Hin | [<- | []]]; [apply IH; exact Hin | congruence].
Qed.

Lemma update_keeps_keys (a b : State W) (k : string) :
  update a b ->
  JsMap.get k (st_steps a) <> None -> JsMap.get k (st_steps b) <> None.
Proof.
  destruct 1; simpl; auto. rewrite get_adjust.
  destruct (String.eqb k k0); [| auto].
  destruct (JsMap.get k (st_steps st)); simpl; congruence.
Qed.

Lemma reaches_keeps_keys (a b : State W) (k : string) :
  reaches a b ->
  JsMap.get k (st_steps a) <> None -> JsMap.get k (st_steps b) <> None.
Proof.
  intros H. apply (reaches_invariant
                     (fun st => JsMap.get k (st_steps st) <> None));
    [| exact H].
  intros x y Hu. apply update_keeps_keys. exact Hu.
Qed.

Lemma verifyCheck_returns (c : VerificationCheck W) (w : W) :
  sound_check c -> exists r w', verifyCheck c w = (inr r, w').
Proof.
  unfold sound_check, verifyCheck. destruct (check c) as [fn | cmd | | b].
  - intros Hfn. unfold FunctionVerifier_verify.
    destruct (Hfn w) as [Hnull Hundef].
    destruct (fn w) as [[v | error] w']; [eexists; eexists; reflexivity |].
    destruct error; simpl in *; try congruence;
      eexists; eexists; reflexivity.
  - intros _. destruct (CommandVerifier_verify _ _ _) as [r w'].
    eexists. eexists. reflexivity.
  - intros _. eexists. eexists. reflexivity.
  - intros [].
Qed.

Lemma check_conditions_no_reject ph label cs : forall st : State W,
  Forall sound_check cs ->
  exit_of (check_conditions ph label cs st) <> ExitReject.
Proof.
  induction cs as [| c cs IH]; intros st Hall; simpl; [discriminate |].
  inversion Hall as [| ? ? Hc Hcs]; subst.
  destruct (verifyCheck_returns c (st_world st) Hc) as (r & w' & ->).
  destruct (negb (success r) && _); [discriminate | apply IH; exact Hcs].
Qed.

Lemma check_invariants_no_reject before k name invs : forall st : State W,
  Forall sound_check invs ->
  exit_of (check_invariants before k name invs st) <> ExitReject.
Proof.
  induction invs as [| c cs IH]; intros st Hall; simpl; [discriminate |].
  inversion Hall as [| ? ? Hc Hcs]; subst.
  destruct (verifyCheck_returns c (st_world st) Hc) as (r & w' & ->).
  destruct (negb (success r)); [discriminate | apply IH; exact Hcs].
Qed.

Lemma invariants_phase_no_reject I before k name (st : State W) :
  Forall sound_check (or_default (invariants (contract I)) []) ->
  exit_of (invariants_phase I before k name st) <> ExitReject.
Proof.
  unfold invariants_phase. destruct (invariants (contract I));
    [apply check_invariants_no_reject | discriminate].
Qed.

Lemma attempt_no_crash k (d : StepDefinition W) (st : State W) :
  (forall act, def_action d = Some act -> never_throws_nullish act) ->
  crashes (fst (attempt k d st)) = false.
Proof.
  intros Htame. unfold attempt. destruct (def_action d) as [act |].
  - destruct (Htame act eq_refl (st_world st)) as [Hnull Hundef].
    destruct (act (st_world st)) as [[v | error] w1]; simpl in *.
    + destruct (verifyStep d _) as [[err | r] w2]; reflexivity.
    + destruct error; simpl; congruence.
  - destruct (verifyStep d _) as [[err | r] w2]; reflexivity.
Qed.

Lemma settle_attempt_no_reject I k name outcome (st : State W) :
  crashes outcome = false ->
  exit_of (settle_attempt I k name outcome st) <> ExitReject.
Proof.
  destruct outcome as [error | r]; simpl.
  - destruct (read_message error); [discriminate |]. intros _.
    destruct (enabled (o_stopOnFailure (options I))); discriminate.
  - intros _. destruct (success r); [discriminate |].
    destruct (enabled (o_stopOnFailure (options I))); discriminate.
Qed.

Lemma and_then_exit (f : Flow W) (k : State W -> Flow W) :
  exit_of (and_then f k)
  = match f with
    | Next st => exit_of (k st)
    | other => exit_of other
    end.
Proof. destruct f; reflexivity. Qed.

Lemma run_step_no_reject I k (st : State W) :
  Forall sound_check (or_default (invariants (contract I)) []) ->
  tame_steps (st_steps st) ->
  JsMap.get k (st_steps st) <> None ->
  exit_of (run_step I k st) <> ExitReject.
Proof.
  intros Hinv Htame Hk. unfold run_step.
  destruct (JsMap.get k (st_steps st)) as [s |] eqn:Hget; [| congruence].
  destruct (has_unmet_dependencies s (st_steps st)); [discriminate |].
  rewrite and_then_exit.
  pose proof (invariants_phase_no_reject I true k (step_name s) st Hinv) as H0.
  destruct (invariants_phase I true k (step_name s) st)
    as [st1 | r st1 | err st1]; try exact H0.
  match goal with
  | |- context [attempt k ?d ?s0] =>
      pose proof (attempt_no_crash k d s0
                    (fun act => Htame k s act Hget)) as Ha;
      destruct (attempt k d s0) as [outcome st2]
  end.
  simpl in Ha. rewrite and_then_exit.
  pose proof (settle_attempt_no_reject I k (step_name s) outcome st2 Ha) as Hs.
  destruct (settle_attempt I k (step_name s) outcome st2)
    as [st3 | r st3 | err st3]; try exact Hs.
  apply invariants_phase_no_reject. exact Hinv.
Qed.

Lemma reaches_tame_steps (a b : State W) :
  reaches a b -> tame_steps (st_steps a) -> tame_steps (st_steps b).
Proof.
  intros H Ha k s act Hget Hact.
  destruct (outline_get k _ (st_steps a) s (reaches_outline _ _ H) Hget)
    as (s' & Hget' & Hsk).
  apply (Ha k s' act Hget'). unfold skeleton in Hsk. congruence.
Qed.

Lemma run_steps_no_reject I ids : forall st : State W,
  Forall sound_check (or_default (invariants (contract I)) []) ->
  tame_steps (st_steps st) ->
  (forall k, In k ids -> JsMap.get k (st_steps st) <> None) ->
  exit_of (run_steps I ids st) <> ExitReject.
Proof.
  induction ids as [| k ids IH]; intros st Hinv Htame Hkeys; simpl;
    [discriminate |].
  rewrite and_then_exit.
  pose proof (run_step_no_reject I k st Hinv Htame
                (Hkeys k (or_introl eq_refl))) as H.
  pose proof (run_step_reaches I k st) as Hr.
  destruct (run_step I k st) as [st1 | r st1 | err st1]; try exact H.
  apply IH; [exact Hinv | exact (reaches_tame_steps _ _ Hr Htame) |].
  intros k' Hk'. eapply reaches_keeps_keys; [exact Hr |].
  apply Hkeys. right. exact Hk'.
Qed.

Lemma preconditions_phase_no_reject I (st : State W) :
  Forall sound_check (or_default (preconditions (contract I)) []) ->
  exit_of (preconditions_phase I st) <> ExitReject.
Proof.
  unfold preconditions_phase. destruct (preconditions (contract I));
    [apply check_conditions_no_reject | discriminate].
Qed.

Lemma postconditions_phase_no_reject I (st : State W) :
  Forall sound_check (or_default (postconditions (contract I)) []) ->
  exit_of (postconditions_phase I st) <> ExitReject.
Proof.
  unfold postconditions_phase. destruct (postconditions (contract I));
    [apply check_conditions_no_reject | discriminate].
Qed.

Lemma covered_resolves (I : Intent W) (w : W) :
  covered I -> tame I -> exists r st, execute I w = Resolved r st.
Proof.
  intros Hcov (Hpre & Hpost & Hinv & Hsteps). unfold execute.
  pose proof (preconditions_phase_no_reject I (initial_state I w) Hpre)
    as Hp.
  pose proof (preconditions_phase_reaches I (initial_state I w)) as Hreach.
  destruct (preconditions_phase I (initial_state I w))
    as [st1 | r st1 | err st1]; simpl in *; [| eauto | congruence].
  assert (Hs : exit_of (steps_phase I st1) <> ExitReject).
  { unfold steps_phase. apply run_steps_no_reject; [exact Hinv | |].
    - change (tame_steps (st_steps st1)).
      exact (reaches_tame_steps _ _ Hreach Hsteps).
    - intros k Hk. change (JsMap.get k (st_steps st1) <> None).
      eapply reaches_keeps_keys; [exact Hreach |]. apply Hcov. exact Hk. }
  destruct (steps_phase I st1) as [st2 | r st2 | err st2]; simpl in *;
    [| eauto | congruence].
  pose proof (postconditions_phase_no_reject I st2 Hpost) as Hq.
  destruct (postconditions_phase I st2) as [st3 | r st3 | err st3];
    simpl in *; [eauto | eauto | congruence].
Qed.


(** ** What [execute] leaves alone *)

Lemma final_state_steps I (w : W) :
  st_steps (final_state (execute I w)) = st_steps (last_inner_state I w).
Proof.
  unfold execute, last_inner_state. destruct (and_then _ _); reflexivity.
Qed.

Lemma resolved_skeleton (I : Intent W) (w : W)
  (r : IntentExecutionResult W) (st : State W) :
  execute I w = Resolved r st ->
  List.map skeleton (res_steps r) = List.map skeleton (JsMap.values (steps I)).
Proof.
  intros He.
  assert (Hout : outline (st_steps (final_state (execute I w)))
                 = outline (steps I)).
  { rewrite final_state_steps.
    exact (reaches_outline _ _ (last_inner_reaches I w)). }
  rewrite He in Hout. simpl in Hout.
  destruct (execute_cases I w) as [Hret Hfin]. cbv zeta in Hret.
  rewrite Hfin in He.
  assert (Hsteps : res_steps r = JsMap.values (st_steps st)).
  { destruct (and_then _ _) as [st1 | r1 st1 | err st1]; simpl in He;
      [injection He as <- <-; reflexivity
      | injection He as <- <-; destruct Hret as (_ & l & m & ->); reflexivity
      | discriminate He]. }
  rewrite Hsteps. unfold JsMap.values. rewrite !map_map.
  apply (f_equal (List.map snd)) in Hout. unfold outline in Hout.
  rewrite !map_map in Hout. exact Hout.
Qed.

(** X10.  [execute] neither adds, removes nor reorders steps, and leaves
    the identity, name, description, dependencies and definition of every
    step as they were; so do the steps listed in the result. *)
Theorem X10_steps_keep_their_outline (I : Intent W) (w : W) :
  outline (st_steps (final_state (execute I w))) = outline (steps I)
  /\ forall r st,
       execute I w = Resolved r st ->
       List.map skeleton (res_steps r)
       = List.map skeleton (JsMap.values (steps I)).
Proof.
  split; [| exact (resolved_skeleton I w)].
  rewrite final_state_steps.
  exact (reaches_outline _ _ (last_inner_reaches I w)).
Qed.

(** ** The event stream *)

Lemma reaches_events (a b : State W) :
  reaches a b ->
  exists mid, st_events b = (st_events a ++ mid)%list /\ Forall inner_event mid.
Proof.
  intros H. induction H as [| b c _ (mid & Hmid & Hall) Hu].
  - exists []. split; [symmetry; apply app_nil_r | constructor].
  - destruct Hu; try (exists mid; split; assumption).
    exists (mid ++ [e])%list. split.
    + simpl. rewrite Hmid. symmetry. apply app_assoc.
    + apply Forall_app. split; [exact Hall | repeat constructor; assumption].
Qed.

(** X11.  The events of a run: [start] with the goal and the length of
    [stepOrder] comes first; [complete] is emitted exactly when the run
    succeeds and is then the last event; nothing in between is a [start] or a
    [complete]. *)
Theorem X11_event_stream (I : Intent W) (w : W)
  (r : IntentExecutionResult W) (st : State W) :
  execute I w = Resolved r st ->
  exists mid,
    Forall inner_event mid
    /\ st_events st
       = (EvStart (goal I) (List.length (stepOrder I)) :: mid
            ++ (if res_success r
                then [EvComplete (JsMap.size (steps I))]
                else []))%list.
Proof.
  intros He.
  destruct (reaches_events _ _ (last_inner_reaches I w)) as (mid & Hmid & Hall).
  pose proof (reaches_outline _ _ (last_inner_reaches I w)) as Hout.
  destruct (execute_cases I w) as [Hret Hfin]. cbv zeta in Hret.
  rewrite Hfin in He. unfold last_inner_state in *.
  exists mid. split; [exact Hall |].
  destruct (and_then _ _) as [st1 | r1 st1 | err st1]; simpl in *;
    [injection He as <- <- | injection He as <- <- | discriminate He].
  - simpl. rewrite Hmid. simpl. do 2 f_equal. unfold JsMap.size.
    apply (f_equal (@List.length _)) in Hout. unfold outline in Hout.
    rewrite !length_map in Hout. rewrite Hout. reflexivity.
  - destruct Hret as (_ & l & m & ->). simpl. rewrite Hmid, app_nil_r.
    reflexivity.
Qed.

(** ** The verification log *)

Lemma log_of_snoc (t : list Obs) (o : Obs) :
  log_of (t ++ [o]) = (log_of t ++ logged o)%list.
Proof. unfold log_of. rewrite flat_map_app. simpl. rewrite app_nil_r. reflexivity. Qed.

Ltac log_step :=
  unfold log_agrees in *; simpl;
  rewrite ?map_app, ?log_of_snoc; simpl; rewrite ?app_nil_r;
  try congruence.

Lemma check_conditions_log ph label cs : forall st : State W,
  ph = PhasePre \/ ph = PhasePost ->
  log_agrees st -> log_agrees (flow_state (check_conditions ph label cs st)).
Proof.
  induction cs as [| c cs IH]; intros st Hph Hst; simpl; [exact Hst |].
  destruct (verifyCheck c (st_world st)) as [[err | r] w']; [exact Hst |].
  assert (Hnext : log_agrees
                    (push_log r (note (ObsCheck ph (critical c) (success r))
                                   (with_world w' st))))
    by (destruct Hph as [-> | ->]; log_step).
  destruct (negb (success r) && _); simpl; [exact Hnext |].
  apply IH; assumption.
Qed.

Lemma check_invariants_log before k name invs : forall st : State W,
  log_agrees st ->
  log_agrees (flow_state (check_invariants before k name invs st)).
Proof.
  induction invs as [| c cs IH]; intros st Hst; simpl; [exact Hst |].
  destruct (verifyCheck c (st_world st)) as [[err | r] w']; [exact Hst |].
  destruct (negb (success r)); simpl.
  - destruct before; log_step.
  - apply IH. destruct before; log_step.
Qed.

Lemma invariants_phase_log I before k name (st : State W) :
  log_agrees st -> log_agrees (flow_state (invariants_phase I before k name st)).
Proof.
  unfold invariants_phase. destruct (invariants (contract I));
    [apply check_invariants_log | auto].
Qed.

Lemma attempt_log k d (st : State W) :
  log_agrees st ->
  (List.map success (st_log (snd (attempt k d st)))
     ++ match fst (attempt k d st) with
        | inr r => [success r]
        | inl _ => []
        end)%list
  = log_of (st_trace (snd (attempt k d st))).
Proof.
  intros Hst. unfold attempt. destruct (def_action d) as [act |].
  - destruct (act (st_world st)) as [[v | err] w1]; simpl.
    + destruct (verifyStep d _) as [[err | r] w2]; log_step.
    + log_step.
  - destruct (verifyStep d _) as [[err | r] w2]; log_step.
Qed.

Lemma settle_attempt_log I k name outcome (st : State W) :
  (List.map success (st_log st)
     ++ match outcome with inr r => [success r] | inl _ => [] end)%list
  = log_of (st_trace st) ->
  log_agrees (flow_state (settle_attempt I k name outcome st)).
Proof.
  intros Hst. destruct outcome as [err | r]; simpl.
  - rewrite app_nil_r in Hst.
    destruct (read_message err) as [type_error | m];
      [| destruct (enabled (o_stopOnFailure (options I)))]; log_step.
  - destruct (success r) eqn:Hr; simpl.
    + log_step.
    + destruct (enabled (o_stopOnFailure (options I))); log_step.
Qed.

Lemma run_step_log I k (st : State W) :
  log_agrees st -> log_agrees (flow_state (run_step I k st)).
Proof.
  intros Hst. unfold run_step.
  destruct (JsMap.get k (st_steps st)) as [s |]; [| exact Hst].
  destruct (has_unmet_dependencies s (st_steps st)); [log_step |].
  rewrite and_then_state.
  pose proof (invariants_phase_log I true k (step_name s) st Hst) as H0.
  destruct (invariants_phase I true k (step_name s) st)
    as [st1 | r st1 | err st1]; simpl in H0 |- *; try exact H0.
  match goal with
  | |- context [attempt k ?d ?s0] =>
      assert (H1 : log_agrees s0) by log_step;
      pose proof (attempt_log k d s0 H1) as Ha;
      destruct (attempt k d s0) as [outcome st2]
  end.
  simpl in Ha. rewrite and_then_state.
  pose proof (settle_attempt_log I k (step_name s) outcome st2 Ha) as Hs.
  destruct (settle_attempt I k (step_name s) outcome st2)
    as [st3 | r st3 | err st3]; simpl in Hs |- *; try exact Hs.
  apply invariants_phase_log. exact Hs.
Qed.

Lemma run_steps_log I ids : forall st : State W,
  log_agrees st -> log_agrees (flow_state (run_steps I ids st)).
Proof.
  induction ids as [| k ids IH]; intros st Hst; simpl; [exact Hst |].
  rewrite and_then_state.
  pose proof (run_step_log I k st Hst) as H.
  destruct (run_step I k st) as [st1 | r st1 | err st1]; simpl in H |- *;
    try exact H.
  apply IH. exact H.
Qed.

(** X12.  The verification log of the result lists, in order, the verdict of
    every precondition and postcondition that was evaluated and of every step
    verification that returned, and nothing else: the evaluations of
    invariants and the errors thrown by steps leave no entry. *)
Theorem X12_log_matches_evaluations (I : Intent W) (w : W)
  (r : IntentExecutionResult W) (st : State W) :
  execute I w = Resolved r st ->
  List.map success (res_verificationLog r) = log_of (st_trace st).
Proof.
  intros He.
  assert (Hinner : log_agrees (last_inner_state I w)).
  { unfold last_inner_state. rewrite and_then_state.
    assert (H0 : log_agrees (initial_state I w)) by reflexivity.
    assert (Hpre : log_agrees
                     (flow_state (preconditions_phase I (initial_state I w)))).
    { unfold preconditions_phase. destruct (preconditions (contract I));
        [| exact H0].
      apply check_conditions_log; [left; reflexivity | exact H0]. }
    destruct (preconditions_phase I (initial_state I w))
      as [st1 | r1 st1 | err st1]; simpl in Hpre |- *; try exact Hpre.
    rewrite and_then_state.
    assert (Hsteps : log_agrees (flow_state (steps_phase I st1)))
      by (unfold steps_phase; apply run_steps_log; exact Hpre).
    destruct (steps_phase I st1) as [st2 | r2 st2 | err st2];
      simpl in Hsteps |- *; try exact Hsteps.
    unfold postconditions_phase. destruct (postconditions (contract I));
      [| exact Hsteps].
    apply check_conditions_log; [right; reflexivity | exact Hsteps]. }
  destruct (execute_cases I w) as [Hret Hfin]. cbv zeta in Hret.
  rewrite Hfin in He. unfold last_inner_state in Hinner.
  destruct (and_then _ _) as [st1 | r1 st1 | err st1]; simpl in *;
    [injection He as <- <- | injection He as <- <- | discriminate He].
  - exact Hinner.
  - destruct Hret as (_ & l & m & ->). exact Hinner.
Qed.

(** ** A failed precondition *)

Lemma check_conditions_frame ph label cs : forall st : State W,
  st_steps (flow_state (check_conditions ph label cs st)) = st_steps st
  /\ match check_conditions ph label cs st with
     | Next st' => st_events st' = st_events st
     | Return r st' =>
         res_failedStep r = Some label
         /\ exists result,
              res_failureReason r = Some (message result)
              /\ success result = false
              /\ (exists earlier, st_log st' = (earlier ++ [result])%list)
              /\ st_events st'
                 = (st_events st
                      ++ [EvFailed label None (message result)])%list
     | Reject _ st' => st_events st' = st_events st
     end.
Proof.
  induction cs as [| c cs IH]; intros st; simpl; [split; reflexivity |].
  destruct (verifyCheck c (st_world st)) as [[err | r] w'];
    [split; reflexivity |].
  destruct (negb (success r) && _) eqn:Hfail; simpl.
  - split; [reflexivity |]. split; [reflexivity |]. exists r.
    split; [reflexivity |].
    split; [destruct (success r); [discriminate Hfail | reflexivity] |].
    split; [exists (st_log st); reflexivity | reflexivity].
  - match goal with
    | |- context [check_conditions ph label cs ?s] =>
        destruct (IH s) as [Hsteps Hflow]
    end.
    split; [exact Hsteps | exact Hflow].
Qed.

(** A loop over pre- or postconditions that does not return has seen no
    failure but of checks marked [critical: false]. *)
Lemma conditions_trace_tolerant ph t e :
  ph = PhasePre \/ ph = PhasePost ->
  conditions_trace ph t e -> e <> ExitReturn -> Forall nonfatal t.
Proof.
  intros Hph H He.
  induction H; [constructor | | | contradiction He; reflexivity
               | constructor];
    (constructor; [destruct Hph as [-> | ->]; try reflexivity | auto]).
  - destruct crit as [[|] |]; reflexivity.
  - destruct crit as [[|] |]; reflexivity.
Qed.

Lemma steps_phase_adds_no_precondition I (st : State W) :
  exists t,
    st_trace (flow_state (steps_phase I st)) = (st_trace st ++ t)%list
    /\ Forall not_a_precondition t.
Proof.
  destruct (steps_phase_sound I st) as (t & [Ht _] & Hg).
  exists t. split; [exact Ht |].
  eapply Forall_impl; [| eapply steps_trace_about; exact Hg].
  intros o (k & _ & Ho) c ok ->. discriminate Ho.
Qed.

Lemma postconditions_phase_adds_no_precondition I (st : State W) :
  exists t,
    st_trace (flow_state (postconditions_phase I st)) = (st_trace st ++ t)%list
    /\ Forall not_a_precondition t.
Proof.
  destruct (postconditions_phase_sound I st) as (t & [Ht _] & Hg).
  exists t. split; [exact Ht |].
  eapply Forall_impl; [| eapply conditions_trace_plain; exact Hg].
  intros o (c' & ok' & ->) c ok. discriminate.
Qed.

Lemma preconditions_phase_frame I (st : State W) :
  st_steps (flow_state (preconditions_phase I st)) = st_steps st
  /\ match preconditions_phase I st with
     | Next _ => True
     | Return r st' =>
         res_failedStep r = Some "preconditions"
         /\ exists result,
              res_failureReason r = Some (message result)
              /\ success result = false
              /\ (exists earlier, st_log st' = (earlier ++ [result])%list)
              /\ st_events st'
                 = (st_events st
                      ++ [EvPhase "preconditions";
                          EvFailed "preconditions" None
                            (message result)])%list
     | Reject _ _ => True
     end.
Proof.
  unfold preconditions_phase. destruct (preconditions (contract I)) as [pre |];
    [| split; [reflexivity | exact Logic.I]].
  match goal with
  | |- context [check_conditions ?p ?l ?c ?s] =>
      destruct (check_conditions_frame p l c s) as [Hsteps Hflow];
      destruct (check_conditions p l c s) as [st1 | r st1 | err st1]
  end; simpl in *.
  - split; [exact Hsteps | exact Logic.I].
  - split; [exact Hsteps |].
    destruct Hflow as (Hl & result & Hm & Hr & Hlog & He).
    split; [exact Hl |]. exists result. split; [exact Hm |].
    split; [exact Hr |]. split; [exact Hlog |].
    rewrite He, <- app_assoc. reflexivity.
  - split; [exact Hsteps | exact Logic.I].
Qed.

(** X13.  When a precondition that is not marked [critical: false] fails,
    the run is over before the step phase: [execute] resolves as failed at
    "preconditions"; the failure reason is the message of the result of
    that check, which is the last entry of the verification log; the
    steps are exactly as they were; only preconditions have been
    evaluated; and the events are [start], the phase and [failed] with
    that message. *)
Theorem X13_failed_precondition_stops_before_steps
  (I : Intent W) (w : W) (crit : option bool) :
  In (ObsCheck PhasePre crit false) (st_trace (final_state (execute I w))) ->
  crit <> Some false ->
  exists r st result,
    execute I w = Resolved r st
    /\ res_success r = false
    /\ res_failedStep r = Some "preconditions"
    /\ res_failureReason r = Some (message result)
    /\ success result = false
    /\ (exists earlier,
          res_verificationLog r = (earlier ++ [result])%list)
    /\ st_steps st = steps I
    /\ Forall (fun o => exists c ok, o = ObsCheck PhasePre c ok) (st_trace st)
    /\ st_events st
       = [EvStart (goal I) (List.length (stepOrder I));
          EvPhase "preconditions";
          EvFailed "preconditions" None (message result)].
Proof.
  intros Hin Hcrit.
  assert (Hfatal : forall t,
             Forall nonfatal t -> ~ In (ObsCheck PhasePre crit false) t).
  { intros t Hok Hmem. rewrite Forall_forall in Hok. specialize (Hok _ Hmem).
    unfold nonfatal in Hok.
    destruct crit as [[|] |]; simpl in Hok; try discriminate Hok.
    apply Hcrit. reflexivity. }
  unfold execute in *.
  destruct (preconditions_phase_sound I (initial_state I w))
    as (tp & [Htp _] & Hgp).
  destruct (preconditions_phase_frame I (initial_state I w)) as [Hsteps Hflow].
  pose proof (preconditions_phase_returns I (initial_state I w)) as Hret.
  destruct (preconditions_phase I (initial_state I w))
    as [st1 | r st1 | err st1]; simpl in *.
  - exfalso.
    assert (Hok : Forall nonfatal tp)
      by (eapply conditions_trace_tolerant;
          [left; reflexivity | exact Hgp | discriminate]).
    assert (Hrest : exists t,
               st_trace (final_state
                           (finish (and_then (steps_phase I st1)
                                      (postconditions_phase I))))
               = (tp ++ t)%list
               /\ Forall not_a_precondition t).
    { destruct (steps_phase_adds_no_precondition I st1) as (ts & Hts & Hns).
      rewrite Htp in Hts.
      destruct (steps_phase I st1) as [st2 | r2 st2 | err2 st2]; simpl in *;
        try (exists ts; split; assumption).
      destruct (postconditions_phase_adds_no_precondition I st2)
        as (tq & Htq & Hnq).
      rewrite Hts in Htq.
      exists (ts ++ tq)%list. split; [| apply Forall_app; split; assumption].
      rewrite app_assoc.
      destruct (postconditions_phase I st2); simpl in *; exact Htq. }
    destruct Hrest as (t & Ht & Hnone). rewrite Ht in Hin.
    apply in_app_or in Hin. destruct Hin as [Hin | Hin].
    + exact (Hfatal tp Hok Hin).
    + rewrite Forall_forall in Hnone. exact (Hnone _ Hin crit false eq_refl).
  - destruct Hret as (_ & l & m & ->).
    destruct Hflow as (Hl & result & Hm & Hr & Hlog & He).
    exists (failure_result st1 l m), st1, result.
    split; [reflexivity |]. split; [reflexivity |].
    split; [exact Hl |]. split; [exact Hm |]. split; [exact Hr |].
    split; [exact Hlog |]. split; [exact Hsteps |].
    split; [| exact He].
    rewrite Htp. simpl. eapply conditions_trace_plain. exact Hgp.
  - exfalso. rewrite Htp in Hin. simpl in Hin.
    refine (Hfatal tp _ Hin).
    eapply conditions_trace_tolerant;
      [left; reflexivity | exact Hgp | discriminate].
Qed.

(** ** Dependencies that cannot be met *)

Lemma run_steps_never_runs I (k d : string) (deps post : list string) :
  In d deps ->
  forall (pre : list string) (st : State W) (s : Step W),
    NoDup (pre ++ k :: post) ->
    JsMap.get k (st_steps st) = Some s ->
    step_dependencies s = Some deps ->
    ~ In d pre ->
    status_of d (st_steps st) <> Some completed ->
    exists t,
      st_trace (flow_state (run_steps I (pre ++ k :: post) st))
      = (st_trace st ++ t)%list
      /\ forall o, In o t -> about k o -> o = ObsStatus k skipped.
Proof.
  intros Hd. induction pre as [| p pre IH]; intros st s Hnd Hget Hdeps Hpre Hst.
  - simpl. unfold run_step at 1. rewrite Hget.
    rewrite (unmet_dependency s _ deps d Hdeps Hd Hst). simpl.
    match goal with
    | |- context [run_steps I post ?s0] =>
        destruct (run_steps_sound I post s0) as (t & [Ht _] & Hg)
    end.
    exists (ObsStatus k skipped :: t). split.
    + rewrite Ht. simpl. rewrite <- app_assoc. reflexivity.
    + intros o [<- | Hin] Hab; [reflexivity |]. exfalso.
      pose proof (steps_trace_about _ _ _ _ Hg) as Hab'.
      rewrite Forall_forall in Hab'. destruct (Hab' _ Hin) as (k' & Hk' & Ho).
      unfold about in *. assert (k' = k) by congruence. subst k'.
      simpl in Hnd. inversion Hnd. contradiction.
  - simpl in Hnd |- *. inversion Hnd as [| ? ? Hnotin Hnd']; subst.
    assert (Hpk : p <> k)
      by (intros ->; apply Hnotin; apply in_or_app; right; left; reflexivity).
    assert (Hpd : p <> d) by (intros ->; apply Hpre; left; reflexivity).
    destruct (run_step_sound I p st) as (t0 & [Ht0 Hs0] & Hg0).
    pose proof (run_step_reaches I p st) as Hreach.
    pose proof (step_trace_about _ _ _ _ Hg0) as Hab0.
    assert (Hnotk : forall o, In o t0 -> about k o -> o = ObsStatus k skipped).
    { intros o Hin Hab. exfalso. rewrite Forall_forall in Hab0.
      specialize (Hab0 _ Hin). unfold about in *. congruence. }
    rewrite and_then_state.
    destruct (run_step I p st) as [st1 | r st1 | err st1]; simpl in *;
      try (exists t0; split; assumption).
    destruct (reaches_dependencies _ _ k s Hreach Hget) as (s' & Hget' & Hd').
    assert (Hst' : status_of d (st_steps st1) <> Some completed).
    { rewrite Hs0.
      rewrite (writes_other d p t0 (fun E => Hpd (eq_sym E)) Hab0). simpl.
      destruct (status_of d (st_steps st)); simpl; exact Hst. }
    destruct (IH st1 s' Hnd' Hget' (eq_trans Hd' Hdeps)
                (fun H => Hpre (or_intror H)) Hst') as (t1 & Ht1 & Hq1).
    exists (t0 ++ t1)%list. split.
    + rewrite Ht1, Ht0. symmetry. apply app_assoc.
    + intros o Hin Hab. apply in_app_or in Hin.
      destruct Hin as [Hin | Hin]; auto.
Qed.

(** X14.  A step whose declared dependency is the step itself, a step declared
    after it, or no step at all (and is not already [completed]) is never run:
    in the whole of [execute], with distinct step identities, the only thing
    ever done for it is the assignment of [skipped]. *)
Theorem X14_unmeetable_dependency_never_runs
  (I : Intent W) (w : W) (pre post deps : list string) (k d : string)
  (s : Step W) :
  NoDup (stepOrder I) ->
  stepOrder I = (pre ++ k :: post)%list ->
  JsMap.get k (steps I) = Some s ->
  step_dependencies s = Some deps ->
  In d deps ->
  ~ In d pre ->
  status_of d (steps I) <> Some completed ->
  forall o,
    In o (st_trace (final_state (execute I w))) ->
    about k o -> o = ObsStatus k skipped.
Proof.
  intros Hnd Hids Hget Hdeps Hd Hpre Hst o Hin Hab.
  unfold execute in Hin.
  destruct (preconditions_phase_sound I (initial_state I w))
    as (tp & [Htp _] & Hgp).
  destruct (preconditions_phase_frame I (initial_state I w)) as [Hsteps _].
  assert (Hplain : forall ph t e x,
             conditions_trace ph t e -> In x t ->
             ph = PhasePre \/ ph = PhasePost -> ~ about k x).
  { intros ph t e x Hc Hx Hph Hk.
    destruct (in_conditions_trace _ _ _ _ Hc Hx) as (c & ok & ->).
    destruct Hph as [-> | ->]; discriminate Hk. }
  simpl in Htp.
  destruct (preconditions_phase I (initial_state I w))
    as [st1 | r st1 | err st1]; simpl in *;
    try (exfalso; rewrite Htp in Hin;
         exact (Hplain _ _ _ _ Hgp Hin (or_introl eq_refl) Hab)).
  unfold steps_phase in Hin. rewrite Hids in Hin.
  destruct (run_steps_never_runs I k d deps post Hd pre
              (emit (EvPhase "execution") st1) s)
    as (ts & Hts & Hq); try assumption.
  { rewrite <- Hids. exact Hnd. }
  { simpl. rewrite Hsteps. exact Hget. }
  { simpl. rewrite Hsteps. exact Hst. }
  simpl in Hts. rewrite Htp in Hts.
  destruct (run_steps I (pre ++ k :: post) (emit (EvPhase "execution") st1))
    as [st2 | r st2 | err st2]; simpl in *;
    try (rewrite Hts in Hin; apply in_app_or in Hin;
         destruct Hin as [Hin | Hin];
         [exfalso; exact (Hplain _ _ _ _ Hgp Hin (or_introl eq_refl) Hab)
         | exact (Hq _ Hin Hab)]).
  destruct (postconditions_phase_sound I st2) as (tq & [Htq _] & Hgq).
  assert (Hfinal : In o (st_trace (flow_state (postconditions_phase I st2))))
    by (destruct (postconditions_phase I st2); exact Hin).
  rewrite Htq, Hts in Hfinal.
  apply in_app_or in Hfinal. destruct Hfinal as [Hfinal | Hfinal].
  - apply in_app_or in Hfinal. destruct Hfinal as [Hfinal | Hfinal].
    + exfalso. exact (Hplain _ _ _ _ Hgp Hfinal (or_introl eq_refl) Hab).
    + exact (Hq _ Hfinal Hab).
  - exfalso. exact (Hplain _ _ _ _ Hgq Hfinal (or_intror eq_refl) Hab).
Qed.

End EngineProperties.

Section FileProperties.
Context {runtime : Runtime}.

(** ** [FileVerifier] *)

Lemma check_size_spec (stats : Stats) (c : FileChecks) :
  (check_size stats c = None <-> size_within stats c)
  /\ (forall f, check_size stats c = Some f -> f_success f = false).
Proof.
  unfold check_size, size_within.
  destruct (fc_size c) as [[lo hi] |]; simpl.
  - destruct lo as [lo |], hi as [hi |]; simpl;
      repeat match goal with
        | |- context [if ?b then _ else _] => destruct b eqn:?
        end;
      (split;
       [ split;
         [ intros H; try discriminate H; intros b [= <-]; simpl;
           split; intros x [= <-]; assumption
         | intros H; try reflexivity; exfalso;
           destruct (H _ eq_refl) as [Hlo Hhi]; simpl in *;
           first [ specialize (Hlo _ eq_refl); congruence
                 | specialize (Hhi _ eq_refl); congruence ] ]
       | intros f H; try discriminate H; injection H as <-; reflexivity ]).
  - split; [split; [intros _ b [=] | reflexivity] | intros f [=]].
Qed.

Lemma check_modified_spec (stats : Stats) (c : FileChecks) :
  (check_modified stats c = None <-> time_within stats c)
  /\ (forall f, check_modified stats c = Some f -> f_success f = false).
Proof.
  unfold check_modified, time_within.
  destruct (fc_modified c) as [[lo hi] |]; simpl.
  - destruct lo as [lo |], hi as [hi |]; simpl;
      repeat match goal with
        | |- context [if ?b then _ else _] => destruct b eqn:?
        end;
      (split;
       [ split;
         [ intros H; try discriminate H; intros b [= <-]; simpl;
           split; intros x [= <-]; assumption
         | intros H; try reflexivity; exfalso;
           destruct (H _ eq_refl) as [Hlo Hhi]; simpl in *;
           first [ specialize (Hlo _ eq_refl); congruence
                 | specialize (Hhi _ eq_refl); congruence ] ]
       | intros f H; try discriminate H; injection H as <-; reflexivity ]).
  - split; [split; [intros _ b [=] | reflexivity] | intros f [=]].
Qed.

Lemma check_terms_spec (content : string) (terms : list string) :
  forall evidence,
    (forall ev', check_terms content terms evidence = inr ev' <->
       (forall term, In term terms -> Js.includes content term = true)
       /\ ev' = (evidence ++ List.map contains_line terms)%list)
    /\ (forall f, check_terms content terms evidence = inl f ->
                  f_success f = false).
Proof.
  induction terms as [| term rest IH]; intros evidence; simpl.
  - split; [| intros f [=]].
    intros ev'. rewrite app_nil_r. split.
    + intros [= <-]. split; [intros t [] | reflexivity].
    + intros [_ ->]. reflexivity.
  - destruct (Js.includes content term) eqn:Hin; simpl.
    + destruct (IH (evidence ++ [contains_line term])%list) as [Hok Hbad].
      fold (contains_line term).
      split; [| exact Hbad].
      intros ev'. rewrite Hok, <- app_assoc. simpl. split.
      * intros [Hall ->]. split; [| reflexivity].
        intros t [<- | Ht]; auto.
      * intros [Hall ->]. split; [| reflexivity]. auto.
    + split.
      * intros ev'. split; [discriminate |].
        intros [Hall _]. specialize (Hall term (or_introl eq_refl)).
        congruence.
      * intros f [= <-]. reflexivity.
Qed.

Lemma check_content_spec (node : FileNode) (c : FileChecks)
  (evidence : list string) :
  (forall ev',
      check_content node c evidence = inr (inr ev') <->
      content_accepted node c
      /\ ev' = (evidence ++ List.map contains_line (required_terms c))%list)
  /\ (forall f, check_content node c evidence = inr (inl f) ->
                f_success f = false)
  /\ (forall err,
         check_content node c evidence = inl err <->
         reads_content c = true /\ file_read node = inl err).
Proof.
  unfold check_content, content_accepted, required_terms, reads_content.
  destruct (contains_given c) eqn:Hgiven; simpl.
  - destruct (file_read node) as [err | text] eqn:Hread.
    + split; [| split].
      * intros ev'. split; [discriminate |].
        intros [Hacc _]. destruct (Hacc eq_refl) as (t & [=] & _).
      * intros f [=].
      * intros e. split; [intros [= <-]; auto | intros [_ [= <-]]; reflexivity].
    + match goal with
      | |- context [check_terms text ?ts evidence] =>
          destruct (check_terms_spec text ts evidence) as [Hok Hbad];
          destruct (check_terms text ts evidence) as [f | ev1] eqn:Hterms
      end.
      * split; [| split].
        -- intros ev'. split; [discriminate |].
           intros [Hacc ->]. destruct (Hacc eq_refl) as (t & [= <-] & Hall & _).
           assert (Hno : inl f = inr (evidence
                                       ++ List.map contains_line
                                            match fc_contains c with
                                            | Some given => searchTerms given
                                            | None => []
                                            end)%list)
             by (apply Hok; split; [exact Hall | reflexivity]).
           discriminate Hno.
        -- intros f' [= <-]. apply Hbad. reflexivity.
        -- intros e. split; [discriminate | intros [_ [=]]].
      * destruct (proj1 (Hok ev1) eq_refl) as [Hall ->].
        destruct (fc_matches c) as [re |] eqn:Hre.
        -- destruct (re_test re text) eqn:Htest; simpl.
           ++ split; [| split].
              ** intros ev'. split.
                 --- intros [= <-]. split; [| reflexivity].
                     intros _. exists text. split; [reflexivity |].
                     split; [exact Hall |]. intros re' [= <-]. exact Htest.
                 --- intros [_ ->]. reflexivity.
              ** intros f [=].
              ** intros e. split; [discriminate | intros [_ [=]]].
           ++ split; [| split].
              ** intros ev'. split; [discriminate |].
                 intros [Hacc _].
                 destruct (Hacc eq_refl) as (t & [= <-] & _ & Hm).
                 specialize (Hm re eq_refl). congruence.
              ** intros f [= <-]. reflexivity.
              ** intros e. split; [discriminate | intros [_ [=]]].
        -- split; [| split].
           ++ intros ev'. split.
              ** intros [= <-]. split; [| reflexivity].
                 intros _. exists text. split; [reflexivity |].
                 split; [exact Hall |]. intros re' [=].
              ** intros [_ ->]. reflexivity.
           ++ intros f [=].
           ++ intros e. split; [discriminate | intros [_ [=]]].
  - destruct (fc_matches c) as [re |] eqn:Hre; simpl.
    + destruct (file_read node) as [err | text] eqn:Hread.
      * split; [| split].
        -- intros ev'. split; [discriminate |].
           intros [Hacc _]. destruct (Hacc eq_refl) as (t & [=] & _).
        -- intros f [=].
        -- intros e. split; [intros [= <-]; auto | intros [_ [= <-]]; reflexivity].
      * destruct (re_test re text) eqn:Htest; simpl.
        -- split; [| split].
           ++ intros ev'. rewrite app_nil_r. split.
              ** intros [= <-]. split; [| reflexivity].
                 intros _. exists text. split; [reflexivity |].
                 split; [intros t [] |]. intros re' [= <-]. exact Htest.
              ** intros [_ ->]. reflexivity.
           ++ intros f [=].
           ++ intros e. split; [discriminate | intros [_ [=]]].
        -- split; [| split].
           ++ intros ev'. split; [discriminate |].
              intros [Hacc _].
              destruct (Hacc eq_refl) as (t & [= <-] & _ & Hm).
              specialize (Hm re eq_refl). congruence.
           ++ intros f [= <-]. reflexivity.
           ++ intros e. split; [discriminate | intros [_ [=]]].
    + split; [| split].
      * intros ev'. rewrite app_nil_r. split.
        -- intros [= <-]. split; [discriminate | reflexivity].
        -- intros [_ ->]. reflexivity.
      * intros f [=].
      * intros e. split; [discriminate | intros [[=] _]].
Qed.

(** X15.  With [exists: false] the verdict is whether the path is absent, and
    nothing else is looked at: the other members of [checks] make no
    difference and nothing is read. *)
Theorem X15_file_expected_absent (fs : FileSystem) (path : string)
  (c : FileChecks) :
  fc_exists c = Some false ->
  (exists r,
      FileVerifier_verify fs path (Some c) = inr r
      /\ (f_success r = true <-> fs path = None)
      /\ f_evidence r = Some [])
  /\ forall c',
       fc_exists c' = Some false ->
       FileVerifier_verify fs path (Some c')
       = FileVerifier_verify fs path (Some c).
Proof.
  intros Hc. split.
  - unfold FileVerifier_verify. rewrite Hc.
    destruct (fs path); simpl; eexists; (split; [reflexivity |]);
      unfold createFileResult; simpl;
      (split; [split; congruence | reflexivity]).
  - intros c' Hc'. unfold FileVerifier_verify. rewrite Hc, Hc'.
    destruct (fs path); reflexivity.
Qed.

(** X16.  Unless absence is what is expected, a verification passes exactly
    when the path exists, its size and modification time are within the given
    bounds and, where content is asked about, the content can be read,
    contains every term and is accepted by the pattern; the result then
    carries the size and one line per term as evidence. *)
Theorem X16_file_accepted (fs : FileSystem) (path : string)
  (c : FileChecks) (r : FileResult) :
  fc_exists c <> Some false ->
  (FileVerifier_verify fs path (Some c) = inr r /\ f_success r = true
   <-> exists node,
         fs path = Some node
         /\ size_within (file_stats node) c
         /\ time_within (file_stats node) c
         /\ content_accepted node c
         /\ r = mkFileResult true ("File verification passed: " ++ path)
                  DAbsent DAbsent
                  (Some (passing_evidence (file_stats node) c))).
Proof.
  intros Hex. unfold FileVerifier_verify.
  destruct (fs path) as [node |] eqn:Hfs.
  - assert (Hskip :
      forall (k : string + FileResult),
        match fc_exists c with
        | Some wanted =>
            if negb (Bool.eqb true wanted)
            then inr (createFileResult false
                        (if wanted then "File does not exist: " ++ path
                         else "File should not exist: " ++ path)
                        (DBool true) (DBool wanted))
            else if negb wanted
                 then inr (createFileResult true
                             "File does not exist as expected" DAbsent DAbsent)
                 else k
        | None => k
        end = k)
      by (intros k; destruct (fc_exists c) as [[|] |];
          [reflexivity | congruence | reflexivity]).
    rewrite Hskip. clear Hskip.
    destruct (check_size_spec (file_stats node) c) as [Hs Hsf].
    destruct (check_modified_spec (file_stats node) c) as [Hm Hmf].
    match goal with
    | |- context [check_content node c ?ev] =>
        destruct (check_content_spec node c ev) as (Hc & Hcf & _)
    end.
    destruct (check_size (file_stats node) c) as [f |] eqn:Hsize.
    { split.
      - intros [[= <-] Hok]. rewrite (Hsf f eq_refl) in Hok. discriminate.
      - intros (n & [= <-] & Hsw & _). apply Hs in Hsw. discriminate. }
    destruct (check_modified (file_stats node) c) as [f |] eqn:Hmod.
    { split.
      - intros [[= <-] Hok]. rewrite (Hmf f eq_refl) in Hok. discriminate.
      - intros (n & [= <-] & _ & Htw & _). apply Hm in Htw. discriminate. }
    match goal with
    | |- context [check_content node c ?ev] =>
        destruct (check_content node c ev) as [err | [f | ev']] eqn:Hcont
    end.
    + split; [intros [[=] _] |].
      intros (n & [= <-] & _ & _ & Hacc & _).
      assert (Hno : inl err = inr (inr _))
        by (apply Hc; split; [exact Hacc | reflexivity]).
      discriminate Hno.
    + split.
      * intros [[= <-] Hok]. rewrite (Hcf f eq_refl) in Hok. discriminate.
      * intros (n & [= <-] & _ & _ & Hacc & _).
        assert (Hno : inr (inl f) = inr (inr _))
          by (apply Hc; split; [exact Hacc | reflexivity]).
        discriminate Hno.
    + destruct (proj1 (Hc ev') eq_refl) as [Hacc ->]. split.
      * intros [[= <-] _]. exists node. split; [reflexivity |].
        split; [apply Hs; reflexivity |]. split; [apply Hm; reflexivity |].
        split; [exact Hacc | reflexivity].
      * intros (n & [= <-] & _ & _ & _ & ->). split; reflexivity.
  - split; [| intros (n & [=] & _)].
    destruct (fc_exists c) as [[|] |]; simpl; intros [[= <-] Hok];
      try discriminate Hok; congruence.
Qed.

(** X17.  [verify] throws only while reading the content: exactly when the
    path exists, absence is not what is expected, size and time are within
    bounds, a term or a pattern is asked about, and reading the file throws
    (as it does on a directory). With no [contains] and no [matches] it never
    throws. *)
Theorem X17_file_read_error (fs : FileSystem) (path : string)
  (checks : option FileChecks) (err : string) :
  let c := match checks with Some c => c | None => no_checks end in
  FileVerifier_verify fs path checks = inl err
  <-> exists node,
        fs path = Some node
        /\ fc_exists c <> Some false
        /\ size_within (file_stats node) c
        /\ time_within (file_stats node) c
        /\ reads_content c = true
        /\ file_read node = inl err.
Proof.
  intros c. unfold FileVerifier_verify. fold c.
  destruct (fs path) as [node |] eqn:Hfs.
  - destruct (check_size_spec (file_stats node) c) as [Hs _].
    destruct (check_modified_spec (file_stats node) c) as [Hm _].
    match goal with
    | |- context [check_content node c ?ev] =>
        destruct (check_content_spec node c ev) as (_ & _ & Hc);
        set (content := check_content node c ev) in *
    end.
    match goal with
    | |- context [match check_size ?a ?b with Some f => @?k f | None => ?n end] =>
        set (proceed := match check_size a b with
                        | Some f => k f
                        | None => n
                        end)
    end.
    assert (Hmain :
      proceed = inl err
      <-> size_within (file_stats node) c /\ time_within (file_stats node) c
          /\ reads_content c = true /\ file_read node = inl err).
    { subst proceed.
      destruct (check_size (file_stats node) c) as [f |].
      { split; [discriminate |]. intros (Hsw & _). apply Hs in Hsw.
        discriminate. }
      destruct (check_modified (file_stats node) c) as [f |].
      { split; [discriminate |]. intros (_ & Htw & _). apply Hm in Htw.
        discriminate. }
      specialize (Hc err).
      destruct content as [e | [f | ev']].
      - split.
        + intros [= ->]. destruct (proj1 Hc eq_refl) as [Hr Hread].
          split; [apply Hs; reflexivity |]. split; [apply Hm; reflexivity |].
          split; assumption.
        + intros (_ & _ & Hr & Hread).
          injection (proj2 Hc (conj Hr Hread)) as ->. reflexivity.
      - split; [discriminate |]. intros (_ & _ & Hr & Hread).
        discriminate (proj2 Hc (conj Hr Hread)).
      - split; [discriminate |]. intros (_ & _ & Hr & Hread).
        discriminate (proj2 Hc (conj Hr Hread)). }
    destruct (fc_exists c) as [[|] |] eqn:Hex; cbn [Bool.eqb negb].
    + rewrite Hmain. split.
      * intros H. exists node. split; [reflexivity |].
        split; [discriminate | exact H].
      * intros (n & [= <-] & _ & H). exact H.
    + split; [discriminate | intros (n & _ & Hno & _); congruence].
    + rewrite Hmain. split.
      * intros H. exists node. split; [reflexivity |].
        split; [discriminate | exact H].
      * intros (n & [= <-] & _ & H). exact H.
  - split; [| intros (n & [=] & _)].
    destruct (fc_exists c) as [[|] |]; simpl; discriminate.
Qed.

End FileProperties.

Section StateProperties.
Context {runtime : Runtime}.

(** ** [StateVerifier] *)

Lemma same_json_sym (a b : Js.value) (x : bool) :
  same_json a b = inr x -> same_json b a = inr x.
Proof.
  unfold same_json.
  destruct (JSON_stringify a) as [ta | |], (JSON_stringify b) as [tb | |];
    try discriminate; try (intros H; exact H).
  rewrite (String.eqb_sym tb ta). intros H; exact H.
Qed.

Lemma same_json_refl (a : Js.value) (x : bool) :
  same_json a a = inr x -> x = true.
Proof.
  unfold same_json. destruct (JSON_stringify a) as [ta | |];
    try discriminate; intros [= <-]; [apply String.eqb_refl | reflexivity].
Qed.

(** X18.  A key that was never snapshotted: [verify] fails with a fixed
    message whatever is expected, [diff] fails when either key is missing, and
    neither throws. *)
Theorem X18_missing_snapshot (key other : string) (expected : Js.value)
  (snapshots : Snapshots) :
  JsMap.get key snapshots = None ->
  StateVerifier_verify key expected snapshots
  = inr (createResult false ("No snapshot found for key: " ++ key)
           Js.Undefined Js.Undefined)
  /\ diff key other snapshots
     = inr (createResult false "Missing snapshots for comparison"
              Js.Undefined Js.Undefined)
  /\ diff other key snapshots
     = inr (createResult false "Missing snapshots for comparison"
              Js.Undefined Js.Undefined).
Proof.
  intros Hget. unfold StateVerifier_verify, diff. rewrite Hget.
  repeat split. destruct (JsMap.get other snapshots); reflexivity.
Qed.

(** X19.  After a [snapshot] that did not throw, the key is found ([verify]
    with no expectation succeeds and shows the stored copy), every other key
    verifies as before, and the value the snapshot was taken from verifies
    against it provided the copy prints as the value does. *)
Theorem X19_snapshot_then_verify (key : string) (value : Js.value)
  (snapshots after : Snapshots) :
  snapshot key value snapshots = inr after ->
  exists copy,
    deep_copy value = inr copy
    /\ StateVerifier_verify key Js.Undefined after
       = inr (createResult true "Snapshot exists" copy Js.Undefined)
    /\ (forall key' expected,
           key' <> key ->
           StateVerifier_verify key' expected after
           = StateVerifier_verify key' expected snapshots)
    /\ (value <> Js.Undefined ->
        JSON_stringify copy = JSON_stringify value ->
        exists r,
          StateVerifier_verify key value after = inr r /\ success r = true).
Proof.
  unfold snapshot. destruct (deep_copy value) as [err | copy] eqn:Hcopy;
    [discriminate |].
  intros [= <-]. exists copy. split; [reflexivity |].
  unfold StateVerifier_verify. split; [| split].
  - rewrite get_set, String.eqb_refl. reflexivity.
  - intros key' expected Hne. rewrite get_set.
    destruct (String.eqb_spec key' key); [contradiction | reflexivity].
  - intros Hdef Hsame. rewrite get_set, String.eqb_refl.
    assert (Hund : is_undefined value = false)
      by (destruct value; try reflexivity; congruence).
    rewrite Hund. unfold same_json. rewrite Hsame.
    unfold deep_copy in Hcopy.
    destruct (JSON_stringify value) as [text | |]; [| | discriminate].
    + rewrite String.eqb_refl. eexists. split; reflexivity.
    + eexists. split; reflexivity.
Qed.

(** X20.  [diff] does not depend on the order of its keys, as far as the
    verdict goes, and a snapshot never differs from itself. *)
Theorem X20_diff_symmetric (key1 key2 : string) (snapshots : Snapshots)
  (r : VerificationResult) :
  diff key1 key2 snapshots = inr r ->
  (exists r', diff key2 key1 snapshots = inr r' /\ success r' = success r)
  /\ (key1 = key2 -> JsMap.get key1 snapshots <> None -> success r = true).
Proof.
  unfold diff. intros H. split.
  - destruct (JsMap.get key1 snapshots) as [s1 |],
             (JsMap.get key2 snapshots) as [s2 |];
      try (injection H as <-; eexists; split; reflexivity).
    destruct (same_json s1 s2) as [err | same] eqn:Hs; [discriminate |].
    injection H as <-. rewrite (same_json_sym _ _ _ Hs).
    eexists. split; reflexivity.
  - intros <- Hsome.
    destruct (JsMap.get key1 snapshots) as [s1 |]; [| congruence].
    destruct (same_json s1 s1) as [err | same] eqn:Hs; [discriminate |].
    injection H as <-. simpl. exact (same_json_refl _ _ Hs).
Qed.

End StateProperties.

Section HelperProperties.
Context {W : Type} {host : Host W}.

(** ** The convenience exports *)

(** X21.  [ensureTestsPass] runs the test command once before and once
    after: the run succeeds exactly when the command exits zero both times;
    when the first run exits non-zero the command is not run again and the
    failure is reported at "preconditions", when the second does, at
    "postconditions". *)
Theorem X21_ensureTestsPass (rnd : string) (testCommand : option string)
  (w : W) :
  let cmd := or_default testCommand "npm test" in
  let request := mkExecOptions None (Some []) in
  exists r st,
    execute (ensureTestsPass rnd testCommand) w = Resolved r st
    /\ match execSync cmd request w with
       | (ExecThrows _, w1) =>
           res_success r = false
           /\ res_failedStep r = Some "preconditions"
           /\ st_world st = w1
       | (ExecReturns _, w1) =>
           match execSync cmd request w1 with
           | (ExecThrows _, w2) =>
               res_success r = false
               /\ res_failedStep r = Some "postconditions"
               /\ st_world st = w2
           | (ExecReturns _, w2) =>
               res_success r = true /\ st_world st = w2
           end
       end.
Proof.
  intros cmd request.
  unfold execute, ensureTestsPass, preconditions_phase, steps_phase,
    postconditions_phase.
  fold cmd. clearbody cmd.
  cbn [requires ensures with_contract contract preconditions
       postconditions invariants new_Intent or_default app
       stepOrder steps].
  cbn [check_conditions]. unfold verifyCheck. cbn [check expect critical].
  cbn [st_world emit initial_state with_world].
  destruct (execSync cmd request w) as [[out1 | err1] w1] eqn:H1.
  - rewrite (CommandVerifier_verify_returns (inr (mkCommand cmd None None))
               (Js.Str "exit 0") w w1 out1 H1).
    unfold verifyCheck. cbn -[CommandVerifier_verify].
    destruct (execSync cmd request w1) as [[out2 | err2] w2] eqn:H2.
    + rewrite (CommandVerifier_verify_returns (inr (mkCommand cmd None None))
                 (Js.Str "exit 0") w1 w2 out2 H2).
      cbn. eexists. eexists. repeat split.
    + rewrite (CommandVerifier_verify_throws (inr (mkCommand cmd None None))
                 (Js.Str "exit 0") w1 w2 err2 H2).
      cbn. eexists. eexists. repeat split.
  - rewrite (CommandVerifier_verify_throws (inr (mkCommand cmd None None))
               (Js.Str "exit 0") w w1 err1 H1).
    cbn. eexists. eexists. repeat split.
Qed.

(** *** The first step of an Intent without contract *)

Lemma first_step_fails (I : Intent W) (stepId : string) (rest : list string)
  (s : Step W) (w w1 : W) (res : VerificationResult) :
  preconditions (contract I) = None ->
  invariants (contract I) = None ->
  enabled (o_stopOnFailure (options I)) = true ->
  stepOrder I = stepId :: rest ->
  JsMap.get stepId (steps I) = Some s ->
  step_dependencies s = None ->
  def_action (step_definition s) = None ->
  verifyStep (step_definition s) w = (inr res, w1) ->
  success res = false ->
  exists r st,
    execute I w = Resolved r st
    /\ res_success r = false
    /\ res_failedStep r = Some (step_name s)
    /\ res_failureReason r = Some (message res)
    /\ st_world st = w1.
Proof.
  intros Hpre Hinv Hstop Horder Hget Hdeps Hact Hverify Hfail.
  unfold execute, preconditions_phase, steps_phase. rewrite Hpre, Horder.
  cbn [and_then run_steps]. unfold run_step.
  cbn [st_steps emit initial_state]. rewrite Hget.
  unfold has_unmet_dependencies. rewrite Hdeps.
  unfold invariants_phase. rewrite Hinv. cbn [and_then].
  unfold attempt. rewrite Hact.
  change (st_world
            (emit (EvStepStart (step_name s))
               (mutate stepId assign_startTime
                  (set_step_status stepId running
                     (emit (EvPhase "execution") (initial_state I w))))))
    with w.
  rewrite Hverify. unfold settle_attempt. rewrite Hfail, Hstop.
  cbn [and_then finish failure_result res_success res_failedStep
       res_failureReason].
  eexists. eexists. split; [reflexivity |]. repeat split.
Qed.

(** *** [ensureFilesCreated] *)

Lemma files_fold (files : list (string * string)) : forall I : Intent W,
  let J := List.fold_left
             (fun I '(r, file) =>
                step r ("Create " ++ file)
                  (mkDefinition None None None
                     (VerifyString ("test -f " ++ file)) (Js.Str file)) I)
             files I in
  contract J = contract I
  /\ options J = options I
  /\ stepOrder J = (stepOrder I ++ List.map fst files)%list
  /\ forall k, ~ In k (List.map fst files) ->
       JsMap.get k (steps J) = JsMap.get k (steps I).
Proof.
  induction files as [| [r file] files IH]; intros I; cbn [List.fold_left].
  - cbv zeta. rewrite app_nil_r. repeat split.
  - specialize (IH (step r ("Create " ++ file)
                      (mkDefinition None None None
                         (VerifyString ("test -f " ++ file)) (Js.Str file))
                      I)).
    cbv zeta in IH |- *. destruct IH as (Hc & Ho & Hs & Hg).
    rewrite Hc, Ho, Hs. repeat split.
    + cbn [step stepOrder List.map fst]. rewrite <- app_assoc. reflexivity.
    + intros k Hk. rewrite Hg.
      * cbn [step steps]. rewrite get_set.
        destruct (String.eqb_spec k r) as [-> | _]; [| reflexivity].
        exfalso. apply Hk. left. reflexivity.
      * intros Hin. apply Hk. right. exact Hin.
Qed.

(** X22.  [ensureFilesCreated] expects the name of the file in the output of
    [test -f], which prints nothing: for a first file whose name is an
    ordinary text (not of the shape [/.../] and none of the reserved
    words), [execute] fails at its step whether or not the file is there. *)
Theorem X22_ensureFilesCreated_never_passes (rnd r file : string)
  (rest : list (string * string)) (w : W) :
  regex_shaped file = false ->
  ~ In file reserved_file_names ->
  ~ In r (List.map fst rest) ->
  (forall out w1,
     execSync ("test -f " ++ file) (mkExecOptions None None) w
     = (ExecReturns out, w1) -> Js.trim out = "") ->
  exists res st,
    execute (ensureFilesCreated rnd ((r, file) :: rest)) w = Resolved res st
    /\ res_success res = false
    /\ res_failedStep res = Some ("Create " ++ file).
Proof.
  intros Hre Hname Hfresh Hquiet.
  set (d := mkDefinition (W := W) None None None
              (VerifyString ("test -f " ++ file)) (Js.Str file)).
  set (I1 := step r ("Create " ++ file) d
               (new_Intent rnd "Create required files" no_options)).
  set (J := ensureFilesCreated (W := W) rnd ((r, file) :: rest)).
  destruct (files_fold rest I1) as (Hc & Ho & Hs & Hg).
  change (List.fold_left _ rest I1) with J in Hc, Ho, Hs, Hg.
  assert (Hget : JsMap.get r (steps J)
                 = Some (mkStep r ("Create " ++ file) None pending None
                           false false false None d)).
  { rewrite (Hg r Hfresh). unfold I1. cbn [step steps new_Intent JsMap.set
      JsMap.get]. rewrite String.eqb_refl. reflexivity. }
  assert (Hverdict : exists res w1,
             verifyStep d w = (inr res, w1) /\ success res = false).
  { unfold verifyStep, d. cbn [def_verify def_expect].
    destruct (execSync ("test -f " ++ file) (mkExecOptions None None) w)
      as [[out | err] w1] eqn:He.
    - rewrite (CommandVerifier_verify_returns (inl ("test -f " ++ file))
                 (Js.Str file) w w1 out He).
      rewrite (Hquiet out w1 eq_refl).
      cbn [is_undefined checkExpectation_any].
      destruct (checkExpectation "" file) as [msg | [|]] eqn:Hm.
      + eexists. eexists. split; [reflexivity |].
        unfold command_failed.
        destruct (Js.strict_eq _ _ || Js.strict_eq _ _) eqn:Hw;
          [| reflexivity].
        exfalso. apply Hname.
        rewrite Bool.orb_true_iff, !strict_eq_Str in Hw.
        unfold reserved_file_names.
        destruct Hw as [[= ->] | [= ->]]; simpl; auto 10.
      + exfalso. apply Hname.
        apply (checkExpectation_silent file Hre) in Hm.
        unfold reserved_file_names.
        destruct Hm as [-> | [-> | [-> | [-> | ->]]]]; simpl; auto 10.
      + eexists. eexists. split; reflexivity.
    - rewrite (CommandVerifier_verify_throws (inl ("test -f " ++ file))
                 (Js.Str file) w w1 err He).
      eexists. eexists. split; [reflexivity |].
      destruct (success (command_failed err (Js.Str file))) eqn:Hw;
        [| reflexivity].
      exfalso. apply Hname. apply command_failed_success in Hw.
      unfold reserved_file_names.
      destruct Hw as [[= ->] | [= ->]]; simpl; auto 10. }
  destruct Hverdict as (res & w1 & Hverify & Hfail).
  destruct (first_step_fails J r (List.map fst rest)
              (mkStep r ("Create " ++ file) None pending None
                 false false false None d) w w1 res)
    as (out & st & He & Hs1 & Hs2 & _);
    try assumption; try reflexivity; try exact Hs.
  - rewrite Hc. reflexivity.
  - rewrite Hc. reflexivity.
  - rewrite Ho. reflexivity.
  - exists out, st. repeat split; assumption.
Qed.

(** *** [verify] *)

Lemma set_new {V} (k : string) (v : V) (m : JsMap.t V) :
  ~ In k (List.map fst m) -> JsMap.set k v m = (m ++ [(k, v)])%list.
Proof.
  induction m as [| [k' v'] m IH]; simpl; intros Hk; [reflexivity |].
  destruct (String.eqb_spec k k') as [-> | _].
  - exfalso. apply Hk. left. reflexivity.
  - rewrite IH; [reflexivity |]. intros Hin. apply Hk. right. exact Hin.
Qed.

Lemma verify_fold (l : list (string * QuickStep W)) : forall I : Intent W,
  let J := List.fold_left
             (fun I '(r, s) =>
                step r (qs_name s)
                  (mkDefinition None None None
                     (match qs_verify s with
                      | inl cmd => VerifyString cmd
                      | inr fn => VerifyFunction fn
                      end)
                     (qs_expect s)) I)
             l I in
  Built I ->
  NoDup (List.map fst (steps I) ++ List.map fst l) ->
  Built J
  /\ List.map (fun x => (step_id x, step_name x)) (JsMap.values (steps J))
     = (List.map (fun x => (step_id x, step_name x)) (JsMap.values (steps I))
        ++ List.map (fun p => (fst p, qs_name (snd p))) l)%list.
Proof.
  induction l as [| [r s] l IH]; intros I; cbn [List.fold_left]; cbv zeta;
    intros HB Hnd.
  - rewrite app_nil_r. split; [exact HB | reflexivity].
  - set (d := mkDefinition None None None _ (qs_expect s)).
    assert (Hr : ~ In r (List.map fst (steps I))).
    { intros Hin. apply NoDup_remove_2 in Hnd. apply Hnd.
      apply in_or_app. left. exact Hin. }
    assert (Hsteps : steps (step r (qs_name s) d I)
                     = (steps I ++ [(r, mkStep r (qs_name s) None pending None
                                          false false false None d)])%list).
    { cbn [step steps]. apply set_new. exact Hr. }
    specialize (IH (step r (qs_name s) d I)). cbv zeta in IH.
    destruct IH as [HB' Hv].
    + apply built_step. exact HB.
    + rewrite Hsteps, map_app. cbn [List.map fst app] in Hnd |- *.
      rewrite <- app_assoc. exact Hnd.
    + split; [exact HB' |]. rewrite Hv, Hsteps.
      unfold JsMap.values. rewrite !map_app. cbn [List.map snd fst step_id
        step_name app]. rewrite <- app_assoc. reflexivity.
Qed.

(** *** The helpers give [execute] nothing that makes it throw *)

Lemma tame_new rnd goal opts : tame (new_Intent (W := W) rnd goal opts).
Proof.
  split; [constructor | split; [constructor | split; [constructor |]]].
  intros k s act Hget. discriminate Hget.
Qed.

Lemma tame_step rnd name (d : StepDefinition W) (I : Intent W) :
  def_action d = None -> tame I -> tame (step rnd name d I).
Proof.
  intros Hd (Hpre & Hpost & Hinv & Hsteps).
  split; [exact Hpre | split; [exact Hpost | split; [exact Hinv |]]].
  intros k s act Hget Hact. cbn [step steps] in Hget. rewrite get_set in Hget.
  destruct (String.eqb k rnd).
  - injection Hget as <-. cbn [step_definition] in Hact. congruence.
  - exact (Hsteps k s act Hget Hact).
Qed.

Lemma tame_requires_command cmd e (I : Intent W) :
  tame I -> tame (requires (ArgString cmd) e I).
Proof.
  intros (Hpre & Hpost & Hinv & Hsteps).
  split; [| split; [exact Hpost | split; [exact Hinv | exact Hsteps]]].
  cbn [requires with_contract contract preconditions or_default].
  apply Forall_app. split; [exact Hpre | repeat constructor].
Qed.

Lemma tame_ensures_command cmd e (I : Intent W) :
  tame I -> tame (ensures (ArgString cmd) e I).
Proof.
  intros (Hpre & Hpost & Hinv & Hsteps).
  split; [exact Hpre | split; [| split; [exact Hinv | exact Hsteps]]].
  cbn [ensures with_contract contract postconditions or_default].
  apply Forall_app. split; [exact Hpost | repeat constructor].
Qed.

Lemma verify_fold_tame (l : list (string * QuickStep W)) :
  forall I : Intent W,
    tame I ->
    tame (List.fold_left
            (fun I '(r, s) =>
               step r (qs_name s)
                 (mkDefinition None None None
                    (match qs_verify s with
                     | inl cmd => VerifyString cmd
                     | inr fn => VerifyFunction fn
                     end)
                    (qs_expect s)) I)
            l I).
Proof.
  induction l as [| [r s] l IH]; intros I Ht; cbn [List.fold_left];
    [exact Ht |].
  apply IH. apply tame_step; [reflexivity | exact Ht].
Qed.

(** X23.  [verify], given steps whose identities are distinct, always
    resolves (it never rejects), and its result lists the steps once each,
    in the order given and under the names given, whatever their
    outcome. *)
Theorem X23_verify_lists_steps (rnd goal : string)
  (given : list (string * QuickStep W)) (w : W) :
  NoDup (List.map fst given) ->
  exists r st,
    verify rnd goal given w = Resolved r st
    /\ List.map (fun x => (step_id x, step_name x)) (res_steps r)
       = List.map (fun p => (fst p, qs_name (snd p))) given.
Proof.
  intros Hnd.
  destruct (verify_fold given (new_Intent rnd goal no_options))
    as [HB Hv]; [apply built_new | exact Hnd |].
  change (List.fold_left _ given (new_Intent rnd goal no_options))
    with (verify_intent rnd goal given) in HB, Hv.
  cbn [new_Intent steps JsMap.values List.map app] in Hv.
  destruct (covered_resolves (verify_intent rnd goal given) w
              (covered_Built _ HB)
              (verify_fold_tame given _ (tame_new rnd goal no_options)))
    as (r & st & He).
  exists r, st. split; [exact He |].
  rewrite <- Hv.
  pose proof (resolved_skeleton _ w r st He) as Hsk.
  apply (f_equal (List.map (fun t : string * string * option string
                                    * option (list string) * StepDefinition W
                            => (fst (fst (fst (fst t))),
                                snd (fst (fst (fst t))))))) in Hsk.
  rewrite !map_map in Hsk. exact Hsk.
Qed.

(** *** [ensureBugFixed] *)

(** X24.  [ensureBugFixed] with the default expectation: when the command
    exits non-zero before and zero after, the run succeeds; when it exits
    non-zero both times the run fails at "postconditions" with the error of
    the second run; when it exits zero before, printing an output without
    the word "fails", the run fails at "preconditions" and the command is
    not run again.  The step in between is a placeholder that always
    passes. *)
Theorem X24_ensureBugFixed (rnd rnd_step bug cmd : string)
  (expectedOutput : option string) (w : W) :
  expectedOutput = None \/ expectedOutput = Some "" ->
  let request := mkExecOptions None (Some []) in
  exists r st,
    execute (ensureBugFixed rnd rnd_step bug cmd expectedOutput) w
    = Resolved r st
    /\ match execSync cmd request w with
       | (ExecThrows _, w1) =>
           match execSync cmd request w1 with
           | (ExecReturns _, w2) =>
               res_success r = true /\ st_world st = w2
           | (ExecThrows err, w2) =>
               res_success r = false
               /\ res_failedStep r = Some "postconditions"
               /\ res_failureReason r = Some ("Command failed: " ++ err)
               /\ st_world st = w2
           end
       | (ExecReturns out, w1) =>
           Js.includes (Js.trim out) "fails" = false ->
           res_success r = false
           /\ res_failedStep r = Some "preconditions"
           /\ res_failureReason r = Some "Output does not match"
           /\ st_world st = w1
       end.
Proof.
  intros Hexp request.
  assert (Hdefault : match expectedOutput with
                     | Some e => if String.eqb e "" then "success" else e
                     | None => "success"
                     end = "success")
    by (destruct Hexp as [-> | ->]; reflexivity).
  assert (HB : Built (ensureBugFixed (W := W) rnd rnd_step bug cmd
                        expectedOutput))
    by (apply built_ensures, built_step, built_requires, built_new).
  assert (Ht : tame (ensureBugFixed (W := W) rnd rnd_step bug cmd
                       expectedOutput)).
  { apply tame_ensures_command, tame_step; [reflexivity |].
    apply tame_requires_command, tame_new. }
  destruct (covered_resolves _ w (covered_Built _ HB) Ht) as (r & st & He).
  exists r, st. split; [exact He |]. revert He.
  unfold execute, ensureBugFixed, preconditions_phase, steps_phase,
    postconditions_phase.
  rewrite Hdefault.
  cbn [requires ensures step with_contract contract preconditions
       postconditions invariants new_Intent or_default app
       stepOrder steps].
  cbn [check_conditions]. unfold verifyCheck. cbn [check expect critical].
  cbn [st_world emit initial_state with_world].
  destruct (execSync cmd request w) as [[out1 | err1] w1] eqn:H1.
  - rewrite (CommandVerifier_verify_returns (inr (mkCommand cmd None None))
               (Js.Str "fails") w w1 out1 H1).
    cbn [is_undefined checkExpectation_any].
    assert (Hm : checkExpectation (Js.trim out1) "fails"
                 = inr (Js.includes (Js.trim out1) "fails"))
      by reflexivity.
    rewrite Hm. intros He Hin. revert He. rewrite Hin.
    cbn -[String.eqb]. intros [= <- <-]. repeat split.
  - rewrite (CommandVerifier_verify_throws (inr (mkCommand cmd None None))
               (Js.Str "fails") w w1 err1 H1).
    change (command_failed err1 (Js.Str "fails"))
      with (createResult true "Command failed as expected" (Js.Str err1)
              (Js.Str "fails")).
    cbn -[CommandVerifier_verify String.append String.eqb].
    unfold run_step.
    cbn -[CommandVerifier_verify String.append String.eqb].
    repeat (rewrite String.eqb_refl;
            cbn -[CommandVerifier_verify String.append String.eqb]).
    destruct (execSync cmd request w1) as [[out2 | err2] w2] eqn:H2.
    + rewrite (CommandVerifier_verify_returns (inr (mkCommand cmd None None))
                 (Js.Str "success") w1 w2 out2 H2).
      cbn. intros [= <- <-]. repeat split.
    + rewrite (CommandVerifier_verify_throws (inr (mkCommand cmd None None))
                 (Js.Str "success") w1 w2 err2 H2).
      cbn. intros [= <- <-]. repeat split.
Qed.

End HelperProperties.

(** ** The further properties on concrete inputs *)

Lemma X1_silent_output_witness :
  checkExpectation (host := demo_host) "" "notes.txt" <> inr true.
Proof.
  intros H.
  destruct (X1_silent_output (host := demo_host) "notes.txt" eq_refl)
    as [Hf _].
  destruct (Hf H) as [E | [E | [E | [E | E]]]]; discriminate E.
Defined.

Lemma X2_comparators_exclusive_witness :
  let g := matched (checkExpectation (host := demo_host) "7" ">10") in
  let l := matched (checkExpectation (host := demo_host) "7" "<10") in
  let e := matched (checkExpectation (host := demo_host) "7" "=10") in
  (g = true /\ l = false /\ e = false)
  \/ (g = false /\ l = true /\ e = false)
  \/ (g = false /\ l = false /\ e = true).
Proof.
  apply (X2_comparators_exclusive (host := demo_host) "10" "7");
    [discriminate | reflexivity | vm_compute; discriminate].
Defined.

Lemma X3_non_text_expectation_fails_witness :
  success (fst (CommandVerifier_verify (host := demo_host) (inl "true")
                  (Js.Num (Js.Fin 0)) []))
  = false
  /\ success (fst (CommandVerifier_verify (host := demo_host) (inl "true")
                     (Js.StrObj 0 "") []))
     = true.
Proof.
  split.
  - apply (X3_non_text_expectation_fails (host := demo_host)). reflexivity.
  - destruct (X3_non_text_expectation_fails (host := demo_host) (inl "true")
                (Js.StrObj 0 "") []) as [_ H].
    destruct (H 0%nat "" eq_refl) as [Hiff _]. apply Hiff.
    exists "", ["true"]. split; reflexivity.
Defined.

Lemma X4_regex_expectation_witness :
  success (fst (CommandVerifier_verify (host := demo_host)
                  (inl "echo hello") (Js.Str "/ell/") []))
  = true.
Proof.
  destruct (X4_regex_expectation (host := demo_host) (inl "echo hello")
              "/ell/" [] eq_refl) as [[_ H] _].
  apply H.
  exists ("hello" ++ String "010" ""), ["echo hello"],
    (fun input => Js.includes input "ell").
  repeat split.
Defined.

Lemma X5_failure_words_witness :
  success (fst (CommandVerifier_verify (host := demo_host) (inl "false")
                  (Js.Str "fails") []))
  = true.
Proof.
  apply (proj2 (X5_failure_words (host := demo_host) (inl "false") "fails" []
                  (or_introl eq_refl))).
  left. exists "Command failed: false", ["false"]. reflexivity.
Defined.

Lemma X6_exit_status_only_witness :
  success (fst (CommandVerifier_verify (host := demo_host)
                  (inl "echo anything") (Js.Str "exit 0") []))
  = true.
Proof.
  apply (proj2 (X6_exit_status_only (host := demo_host) (inl "echo anything")
                  (Js.Str "exit 0") [] (or_intror (or_introl eq_refl)))).
  exists ("anything" ++ String "010" ""), ["echo anything"]. reflexivity.
Defined.

Lemma X8_result_is_consistent_witness :
  exists r st,
    execute blocked_intent [] = Resolved r st
    /\ res_status r = st_status st
    /\ res_steps r = JsMap.values (st_steps st).
Proof.
  destruct (execute blocked_intent []) as [r st | err st] eqn:E;
    [| vm_compute in E; discriminate].
  exists r, st. split; [reflexivity |].
  destruct (X8_result_is_consistent blocked_intent [] r st E)
    as (Hsteps & _ & Hstatus & _).
  split; assumption.
Defined.


Lemma X11_event_stream_witness :
  exists r st mid,
    execute bugfix_intent [] = Resolved r st
    /\ Forall inner_event mid
    /\ st_events st
       = (EvStart "Fix bug" 1 :: mid
            ++ (if res_success r then [EvComplete 1] else []))%list.
Proof.
  destruct (execute bugfix_intent []) as [r st | err st] eqn:E;
    [| vm_compute in E; discriminate].
  destruct (X11_event_stream bugfix_intent [] r st E) as (mid & Hmid & Hev).
  exists r, st, mid. repeat split; assumption.
Defined.

Lemma X12_log_matches_evaluations_witness :
  exists r st,
    execute chained_intent [] = Resolved r st
    /\ List.map success (res_verificationLog r) = log_of (st_trace st).
Proof.
  destruct (execute chained_intent []) as [r st | err st] eqn:E;
    [| vm_compute in E; discriminate].
  exists r, st. split; [reflexivity |].
  exact (X12_log_matches_evaluations chained_intent [] r st E).
Defined.

Lemma X13_failed_precondition_stops_before_steps_witness :
  exists r st,
    execute blocked_intent [] = Resolved r st
    /\ res_failedStep r = Some "preconditions"
    /\ st_steps st = steps blocked_intent.
Proof.
  assert (Hin : In (ObsCheck PhasePre (Some true) false)
                  (st_trace (final_state (execute blocked_intent [])))).
  { vm_compute. left. reflexivity. }
  assert (Hcrit : Some true <> Some false) by discriminate.
  destruct (X13_failed_precondition_stops_before_steps blocked_intent []
              (Some true) Hin Hcrit)
    as (r & st & result & He & _ & Hlabel & _ & _ & _ & Hsteps & _).
  exists r, st. repeat split; assumption.
Defined.

Lemma X14_unmeetable_dependency_never_runs_witness :
  Forall (fun o => about "a1" o -> o = ObsStatus "a1" skipped)
    (st_trace (final_state (execute forward_intent []))).
Proof.
  assert (Hnd : NoDup (stepOrder forward_intent)).
  { repeat constructor; simpl; intuition discriminate. }
  assert (Hget : exists s,
             JsMap.get "a1" (steps forward_intent) = Some s
             /\ step_dependencies s = Some ["b2"])
    by (eexists; split; reflexivity).
  destruct Hget as (s & Hget & Hdeps).
  assert (Hst : status_of "b2" (steps forward_intent) <> Some completed)
    by (vm_compute; discriminate).
  apply Forall_forall. intros o Hin Ho.
  apply (X14_unmeetable_dependency_never_runs forward_intent [] [] ["b2"]
           ["b2"] "a1" "b2" s Hnd eq_refl Hget Hdeps (or_introl eq_refl)
           (fun H : In "b2" [] => H) Hst o Hin Ho).
Defined.

Lemma X15_file_expected_absent_witness :
  exists r,
    FileVerifier_verify demo_fs "missing.txt" (Some absent_checks) = inr r
    /\ f_success r = true.
Proof.
  destruct (X15_file_expected_absent demo_fs "missing.txt" absent_checks
              eq_refl) as [(r & Hr & Hiff & _) _].
  exists r. split; [exact Hr |]. apply Hiff. reflexivity.
Defined.

Lemma X16_file_accepted_witness :
  FileVerifier_verify demo_fs "notes.txt" (Some hello_checks)
  = inr (mkFileResult true "File verification passed: notes.txt"
           DAbsent DAbsent
           (Some ["File size: 11 bytes"; contains_line "hello"]))
  /\ f_success
       (mkFileResult true "File verification passed: notes.txt"
          DAbsent DAbsent
          (Some ["File size: 11 bytes"; contains_line "hello"]))
     = true.
Proof.
  assert (Hne : fc_exists hello_checks <> Some false) by discriminate.
  apply (proj2 (X16_file_accepted demo_fs "notes.txt" hello_checks _ Hne)).
  exists (mkFile (mkStats 11 1000) (inr "hello world")).
  split; [reflexivity |].
  split.
  { intros bounds [= <-]. split; [intros lo [= <-]; reflexivity |].
    intros hi [=]. }
  split; [intros bounds [=] |].
  split; [| reflexivity].
  intros _. exists "hello world". split; [reflexivity |].
  split; [| intros re [=]].
  intros term [<- | []]. reflexivity.
Defined.

Lemma X18_missing_snapshot_witness :
  StateVerifier_verify "before" (Js.Num (Js.Fin 1)) []
  = inr (createResult false "No snapshot found for key: before"
           Js.Undefined Js.Undefined).
Proof.
  destruct (X18_missing_snapshot "before" "after" (Js.Num (Js.Fin 1)) []
              eq_refl) as [H _].
  exact H.
Defined.

Lemma X19_snapshot_then_verify_witness :
  exists after r,
    snapshot "before" (Js.Num (Js.Fin 5)) [] = inr after
    /\ StateVerifier_verify "before" (Js.Num (Js.Fin 5)) after = inr r
    /\ success r = true.
Proof.
  destruct (snapshot "before" (Js.Num (Js.Fin 5)) []) as [err | after] eqn:E;
    [vm_compute in E; discriminate |].
  destruct (X19_snapshot_then_verify "before" (Js.Num (Js.Fin 5)) [] after E)
    as (copy & Hcopy & _ & _ & H).
  assert (Hsame : JSON_stringify copy = JSON_stringify (Js.Num (Js.Fin 5))).
  { vm_compute in Hcopy. injection Hcopy as <-. reflexivity. }
  assert (Hdef : Js.Num (Js.Fin 5) <> Js.Undefined) by discriminate.
  destruct (H Hdef Hsame) as (r & Hr & Hs).
  exists after, r. repeat split; assumption.
Defined.

Lemma X20_diff_symmetric_witness :
  exists r,
    diff "a" "a" [("a", Js.Str "x")] = inr r /\ success r = true.
Proof.
  destruct (diff "a" "a" [("a", Js.Str "x")]) as [err | r] eqn:E;
    [vm_compute in E; discriminate |].
  exists r. split; [reflexivity |].
  apply (proj2 (X20_diff_symmetric "a" "a" [("a", Js.Str "x")] r E));
    [reflexivity | vm_compute; discriminate].
Defined.

Lemma X22_ensureFilesCreated_never_passes_witness :
  exists res st,
    execute (host := file_shell)
      (ensureFilesCreated "id" [("a1", "notes.txt")]) []
    = Resolved res st
    /\ res_success res = false
    /\ res_failedStep res = Some "Create notes.txt".
Proof.
  assert (Hname : ~ In "notes.txt" reserved_file_names).
  { simpl. intuition discriminate. }
  assert (Hquiet : forall out w1,
             execSync (Host := file_shell) ("test -f " ++ "notes.txt")
               (mkExecOptions None None) []
             = (ExecReturns out, w1) -> Js.trim out = "").
  { intros out w1 H. vm_compute in H. injection H as <- _. reflexivity. }
  exact (X22_ensureFilesCreated_never_passes (host := file_shell)
           "id" "a1" "notes.txt" [] [] eq_refl Hname
           (fun H : In "a1" [] => H) Hquiet).
Defined.

Lemma X23_verify_lists_steps_witness :
  exists r st,
    verify (host := demo_host) "id" "goal"
      [("a1", mkQuickStep "first" (inl "false") Js.Undefined);
       ("b2", mkQuickStep "second" (inr returns_one) Js.Undefined)] []
    = Resolved r st
    /\ List.map (fun x => (step_id x, step_name x)) (res_steps r)
       = [("a1", "first"); ("b2", "second")].
Proof.
  apply (X23_verify_lists_steps (host := demo_host) "id" "goal"
           [("a1", mkQuickStep "first" (inl "false") Js.Undefined);
            ("b2", mkQuickStep "second" (inr returns_one) Js.Undefined)] []).
  repeat constructor; simpl; intuition discriminate.
Defined.

Lemma X24_ensureBugFixed_witness :
  exists r st,
    execute (host := demo_host)
      (ensureBugFixed "id" "a1" "crash" "false" None) []
    = Resolved r st
    /\ res_success r = false
    /\ res_failedStep r = Some "postconditions".
Proof.
  destruct (X24_ensureBugFixed (host := demo_host) "id" "a1" "crash" "false"
              None [] (or_introl eq_refl)) as (r & st & He & Hm).
  vm_compute in Hm. destruct Hm as (H1 & H2 & _).
  exists r, st. repeat split; assumption.
Defined.
